(** * A shallow embedding of goja's bytecode VM core (vm.go)

    The development follows the layout of [vm.go]: runtime values and
    numeric helpers, scope records ("stashes") and references, the
    frame manager, the arithmetic and relational instructions, the
    call / construction instructions, and the try / iterator unwinding
    machinery.  The second half of the file states and proves the
    properties of those definitions. *)

From Stdlib Require Import ZArith Bool Lia.
From Stdlib Require Import Floats.SpecFloat.
From stdpp Require Import base option list gmap strings.

Open Scope Z_scope.

(* ===================================================================== *)
(** ** IEEE-754 doubles and 64-bit integers *)
(* ===================================================================== *)

(** Go's [float64] is modelled by the Standard Library's specification
    floats at binary64 precision.  A NaN carries neither payload nor
    sign here; [vm.go] never looks at either. *)
Definition float64 := spec_float.

Definition prec64 : Z := 53.
Definition emax64 : Z := 1024.

Definition f64_mul : float64 -> float64 -> float64 := SFmul prec64 emax64.
Definition f64_quo : float64 -> float64 -> float64 := SFdiv prec64 emax64.

(** [float64(i)] for an [int64] [i]: round to nearest even. *)
Definition f64_of_int (i : Z) : float64 := binary_normalize prec64 emax64 i 0 false.

(** [math.IsNaN], [math.IsInf], [math.Signbit]. *)
Definition IsNaN (f : float64) : bool :=
  match f with S754_nan => true | _ => false end.

Definition IsInf (f : float64) (sign : Z) : bool :=
  match f with
  | S754_infinity s =>
      if 0 <? sign then negb s else if sign <? 0 then s else true
  | _ => false
  end.

Definition Signbit (f : float64) : bool :=
  match f with
  | S754_zero s | S754_infinity s | S754_finite s _ _ => s
  | S754_nan => false
  end.

(** The Go comparisons [f == 0], [x == y] and [x < y] on doubles. *)
Definition f64_is_zero (f : float64) : bool :=
  match f with S754_zero _ => true | _ => false end.

Definition f64_ltb (x y : float64) : bool := SFltb x y.

(** The integer a finite double denotes, when it denotes one
    ([f == math.Trunc(f)] for a finite [f]). *)
Definition f64_integral (f : float64) : option Z :=
  match f with
  | S754_zero _ => Some 0
  | S754_finite s m e =>
      let mag :=
        if 0 <=? e then Some (Z.pos m * 2 ^ e)
        else if (Z.pos m mod 2 ^ (- e)) =? 0 then Some (Z.pos m / 2 ^ (- e))
        else None in
      (fun z => if s then - z else z) <$> mag
  | _ => None
  end.

Definition minInt64 : Z := - 2 ^ 63.
Definition maxInt64 : Z := 2 ^ 63 - 1.

Definition int64_range (z : Z) : Prop := minInt64 <= z <= maxInt64.

(** Two's-complement wrap-around of Go's [int64] arithmetic. *)
Definition wrap64 (z : Z) : Z := (z + 2 ^ 63) mod 2 ^ 64 - 2 ^ 63.

Definition int64_mul (a b : Z) : Z := wrap64 (a * b).

(** Go's [/] on [int64] truncates towards zero; the one overflowing
    quotient, [minInt64 / -1], wraps back to [minInt64]. *)
Definition int64_quo (a b : Z) : Z := wrap64 (Z.quot a b).

(** [const maxInt = 1 << 53] *)
Definition maxInt : Z := 2 ^ 53.

(* ===================================================================== *)
(** ** Tagged values *)
(* ===================================================================== *)

(** Objects live in the object system, which is outside [vm.go]; the VM
    only holds references to them and compares them by identity. *)
Definition ObjRef := nat.

(** The dynamic types behind Go's [Value] interface that [vm.go]
    distinguishes with type assertions. *)
Inductive Value : Type :=
| valueUndefined
| valueNull
| valueBool (b : bool)
| valueInt (i : Z)
| valueInt64 (i : Z)
| valueFloat (f : float64)
| valueString (s : string)
| valueSymbol (desc : string)
| valueUnresolved (ref : string)
| memberUnresolved (ref : string)
| valueObject (o : ObjRef).

(** A variable of interface type [Value] may also be [nil]; [nil] is the
    "uninitialized" sentinel of let/const slots. *)
Definition Slot := option Value.

Definition _undefined : Value := valueUndefined.
Definition _null : Value := valueNull.
Definition valueTrue : Value := valueBool true.
Definition valueFalse : Value := valueBool false.

(** Modelled from the spec: the declarations of the numeric singletons
    are not in [vm.go]; section 3 describes them as the canonical
    double-float values NaN, +0, -0, +Infinity and -Infinity. *)
Definition _NaN : Value := valueFloat S754_nan.
Definition _positiveInf : Value := valueFloat (S754_infinity false).
Definition _negativeInf : Value := valueFloat (S754_infinity true).
Definition _positiveZero : Value := valueFloat (S754_zero false).
Definition _negativeZero : Value := valueFloat (S754_zero true).

Definition nilSafe (v : Slot) : Value :=
  match v with Some v => v | None => _undefined end.

Global Instance float64_eq_dec : EqDecision float64.
Proof. solve_decision. Defined.

Global Instance Value_eq_dec : EqDecision Value.
Proof. solve_decision. Defined.

(** [intCache] and [int64Cache] hold the boxed small integers, so a
    cache hit is the same value as a fresh box. *)
Definition intToValue (i : Z) : Value :=
  if (- maxInt <=? i) && (i <=? maxInt) then
    if (-128 <=? i) && (i <=? 127) then valueInt i
    else valueInt i
  else valueFloat (f64_of_int i).

Definition int64ToValue (i : Z) : Value :=
  if (-128 <=? i) && (i <=? 127) then valueInt64 i
  else valueInt64 i.

Definition floatToInt (f : float64) : Z * bool :=
  if (negb (f64_is_zero f) || negb (Signbit f)) && negb (IsInf f 0) then
    match f64_integral f with
    | Some z => if (- maxInt <=? z) && (z <=? maxInt) then (z, true) else (0, false)
    | None => (0, false)
    end
  else (0, false).

Definition floatToValue (f : float64) : Value :=
  if f64_is_zero f then
    if Signbit f then _negativeZero else valueFloat f
  else if IsNaN f then _NaN
  else if IsInf f 1 then _positiveInf
  else if IsInf f (-1) then _negativeInf
  else valueFloat f.

(* ===================================================================== *)
(** ** Panics *)
(* ===================================================================== *)

(** [type Exception]: only the thrown value is kept; the captured stack
    frames, [nativeErr] and [ignoreStack] are bookkeeping of the
    embedding boundary. *)
Record Exception : Type := mkException { ex_val : Value }.

(** What a Go [panic] of the VM can carry, by the cases of the type
    switch in [vm.try]. *)
Inductive PanicVal : Type :=
| pValue (v : Value)                (* case Value: a script [throw] *)
| pException (ex : Exception)       (* case *Exception *)
| pTypeError (msg : string)         (* case typeError *)
| pReferenceError (msg : string)    (* case referenceError *)
| pRangeError (msg : string)        (* case rangeError *)
| pInterrupted                      (* case *InterruptedError *)
| pUncatchable                      (* case *uncatchableException *)
| pAccessBeforeInit
| pAssignToConst
| pGo (msg : string).               (* default: any other Go panic *)

(** Modelled from the spec: [errAccessBeforeInit] and [errAssignToConst]
    are declared outside [vm.go]; section 7 lists uninitialized-access
    as an error kind of its own, distinct from unresolved-reference, and
    both as script-visible (catchable) kinds. *)
Definition errAccessBeforeInit : PanicVal := pAccessBeforeInit.
Definition errAssignToConst : PanicVal := pAssignToConst.

Global Instance Exception_eq_dec : EqDecision Exception.
Proof. solve_decision. Defined.

Global Instance PanicVal_eq_dec : EqDecision PanicVal.
Proof. solve_decision. Defined.

(** [fmt.Sprintf("%s is not defined", name)] *)
Definition not_defined_msg (name : string) : string :=
  String.append name " is not defined".

(** Modelled from the spec: [Runtime.throwReferenceError] is outside
    [vm.go]; section 3 says any use of an unresolved reference raises a
    not-defined error. *)
Definition throwReferenceError (name : string) : PanicVal :=
  pReferenceError (not_defined_msg name).

(** A computation that either yields a result or panics, for the
    helpers of [vm.go] that do not touch the machine state. *)
Inductive Result (A : Type) : Type :=
| Done (a : A)
| Raise (x : PanicVal).
Arguments Done {A} a.
Arguments Raise {A} x.

#[local] Set Warnings "-register-all".

(* ===================================================================== *)
(** ** Programs, scope records, references *)
(* ===================================================================== *)

(** The instruction values this development tells apart; every other
    instruction type of [vm.go] is an [otherInstr]. *)
Inductive instruction : Type :=
| halt
| retFinally
| jump (j : Z)
| throw
| mul
| div
| op_lt
| op_lte
| call (numargs : Z)
| callEval_ (numargs : Z)
| callEvalStrict (numargs : Z)
| _new (n : Z)
| try_ (catchOffset finallyOffset : Z)
| enumPopClose
| otherInstr (opcode : nat).

Global Instance instruction_eq_dec : EqDecision instruction.
Proof. solve_decision. Defined.

Record Program : Type := mkProgram {
  code : list instruction;
  prg_values : list Value;
  prg_funcName : string
}.

(** [type stash struct].  [names] is a Go map and may be [nil]. *)
Inductive stash : Type :=
  mkStash (values : list Slot) (extraArgs : list Slot)
          (names : option (gmap string Z)) (obj : option ObjRef)
          (outer : option stash) (variable : bool).

Definition values (s : stash) : list Slot :=
  let '(mkStash v _ _ _ _ _) := s in v.
Definition extraArgs (s : stash) : list Slot :=
  let '(mkStash _ e _ _ _ _) := s in e.
Definition names (s : stash) : option (gmap string Z) :=
  let '(mkStash _ _ n _ _ _) := s in n.
Definition obj (s : stash) : option ObjRef :=
  let '(mkStash _ _ _ o _ _) := s in o.
Definition outer (s : stash) : option stash :=
  let '(mkStash _ _ _ _ o _) := s in o.
Definition variable (s : stash) : bool :=
  let '(mkStash _ _ _ _ _ b) := s in b.

Definition set_values (v : list Slot) (s : stash) : stash :=
  mkStash v (extraArgs s) (names s) (obj s) (outer s) (variable s).
Definition set_names (n : option (gmap string Z)) (s : stash) : stash :=
  mkStash (values s) (extraArgs s) n (obj s) (outer s) (variable s).

(** The zero value [&stash{}]. *)
Definition empty_stash : stash := mkStash [] [] None None None false.

(** Reading a Go map: a [nil] map has no entries. *)
Definition names_lookup (s : stash) (name : string) : option Z :=
  match names s with
  | Some m => m !! name
  | None => None
  end.

(** [len(s.names)] *)
Definition names_len (s : stash) : Z :=
  match names s with
  | Some m => Z.of_nat (size m)
  | None => 0
  end.

(** The bit layout of a name's slot index.  The constants are declared
    by the compiler, outside [vm.go], and are parameters here. *)
Class Layout : Type := {
  maskConst : Z;
  maskVar : Z;
  maskDeletable : Z;
  maskStrict : Z;
  maskTyp : Z
}.

(** Go's [x &^ y] (AND NOT) and indexing of a slice by an integer. *)
Definition and_not (x y : Z) : Z := Z.ldiff x y.

Definition index {A : Type} (l : list A) (i : Z) : option A :=
  if i <? 0 then None else l !! Z.to_nat i.

Definition store {A : Type} (l : list A) (i : Z) (a : A) : option (list A) :=
  match index l i with
  | Some _ => Some (<[Z.to_nat i := a]> l)
  | None => None
  end.

Definition index_out_of_range : PanicVal := pGo "index out of range".
Definition nil_dereference : PanicVal := pGo "nil pointer dereference".

(** The five implementations of [type ref interface].  A stash-backed
    reference points at a value stack ([v *valueStack]); the operations
    below take that stack as an argument and return it updated. *)
Inductive ref : Type :=
| stashRef (n : string) (idx : Z)
| stashRefLex (n : string) (idx : Z)
| stashRefConst (n : string) (idx : Z) (strictConst : bool)
| objRef (base : ObjRef) (name : string) (strict : bool)
| unresolvedRef (name : string).

Definition refname (r : ref) : string :=
  match r with
  | stashRef n _ | stashRefLex n _ | stashRefConst n _ _ => n
  | objRef _ name _ | unresolvedRef name => name
  end.

(** [func (r *stashRef) get / set / init] *)
Definition stashRef_get (idx : Z) (v : list Slot) : Result Value :=
  match index v idx with
  | Some x => Done (nilSafe x)
  | None => Raise index_out_of_range
  end.

Definition stashRef_set (idx : Z) (x : Slot) (v : list Slot) : Result (list Slot) :=
  match store v idx x with
  | Some v' => Done v'
  | None => Raise index_out_of_range
  end.

Definition stashRef_init (idx : Z) (x : Slot) (v : list Slot) : Result (list Slot) :=
  stashRef_set idx x v.

(** [func (r *stashRefLex) get / set / init] *)
Definition stashRefLex_get (idx : Z) (v : list Slot) : Result Value :=
  match index v idx with
  | Some None => Raise errAccessBeforeInit
  | Some (Some x) => Done x
  | None => Raise index_out_of_range
  end.

Definition stashRefLex_set (idx : Z) (x : Slot) (v : list Slot) : Result (list Slot) :=
  match index v idx with
  | Some None => Raise errAccessBeforeInit
  | Some (Some _) => Done (<[Z.to_nat idx := x]> v)
  | None => Raise index_out_of_range
  end.

Definition stashRefLex_init (idx : Z) (x : Slot) (v : list Slot) : Result (list Slot) :=
  stashRefLex_set idx x v.

(** [func (r *stashRefConst) set / init]; [get] is the embedded
    [stashRefLex]'s. *)
Definition stashRefConst_set (strictConst : bool) (x : Slot) (v : list Slot)
  : Result (list Slot) :=
  if strictConst then Raise errAssignToConst else Done v.

Definition stashRefConst_init (strictConst : bool) (x : Slot) (v : list Slot)
  : Result (list Slot) :=
  stashRefConst_set strictConst x v.

(** [func (r *unresolvedRef) get / set / init] *)
Definition unresolvedRef_get {A : Type} (name : string) : Result A :=
  Raise (throwReferenceError name).

(** Method dispatch through the [ref] interface for the references that
    are backed by a value stack or unresolved.  An [objRef] goes to the
    object system and yields [None] here. *)
Definition ref_get (r : ref) (v : list Slot) : option (Result Value) :=
  match r with
  | stashRef _ idx => Some (stashRef_get idx v)
  | stashRefLex _ idx | stashRefConst _ idx _ => Some (stashRefLex_get idx v)
  | unresolvedRef name => Some (unresolvedRef_get name)
  | objRef _ _ _ => None
  end.

Definition ref_set (r : ref) (x : Slot) (v : list Slot) : option (Result (list Slot)) :=
  match r with
  | stashRef _ idx => Some (stashRef_set idx x v)
  | stashRefLex _ idx => Some (stashRefLex_set idx x v)
  | stashRefConst _ _ strictConst => Some (stashRefConst_set strictConst x v)
  | unresolvedRef name => Some (unresolvedRef_get name)
  | objRef _ _ _ => None
  end.

Definition ref_init (r : ref) (x : Slot) (v : list Slot) : option (Result (list Slot)) :=
  match r with
  | stashRef _ idx => Some (stashRef_init idx x v)
  | stashRefLex _ idx => Some (stashRefLex_init idx x v)
  | stashRefConst _ _ strictConst => Some (stashRefConst_init strictConst x v)
  | unresolvedRef name => Some (unresolvedRef_get name)
  | objRef _ _ _ => None
  end.

(* ===================================================================== *)
(** ** The machine state *)
(* ===================================================================== *)

(** Pointers to iterator records, native functions, constructors and
    proxies of the object system. *)
Definition IterRef := nat.
Definition FuncId := nat.

(** [type iterStackItem struct]; [f] is the for-in cursor, of which only
    presence matters here. *)
Record iterStackItem : Type := mkIterStackItem {
  item_val : Slot;
  item_f : option nat;
  item_iter : option IterRef
}.

(** The zero value [iterStackItem{}]. *)
Definition empty_item : iterStackItem := mkIterStackItem None None None.

(** [type vmContext struct] without its Go [context.Context] and lock. *)
Record vmContext : Type := mkCtx {
  ctx_prg : option Program;
  ctx_funcName : string;
  ctx_stash : option stash;
  ctx_newTarget : Slot;
  ctx_result : Slot;
  ctx_pc : Z;
  ctx_sb : Z;
  ctx_args : Z
}.

(** The zero value [vmContext{}]. *)
Definition empty_ctx : vmContext := mkCtx None "" None None None 0 0 0.

(** The fields of [type Runtime struct] that [vm.go] reads. *)
Record Runtime : Type := mkRuntime {
  globalObject : ObjRef;
  global_Eval : ObjRef;
  stackDepthLimit : Z
}.

(** [type vm struct] without its Go context and the interrupt fields. *)
Record vm : Type := mkVm {
  vm_r : Runtime;
  vm_prg : option Program;
  vm_funcName : string;
  vm_pc : Z;
  vm_stack : list Slot;
  vm_sp : Z;
  vm_sb : Z;
  vm_args : Z;
  vm_stash : option stash;
  vm_callStack : list vmContext;
  vm_iterStack : list iterStackItem;
  vm_refStack : list (option ref);
  vm_newTarget : Slot;
  vm_result : Slot;
  vm_maxCallStackSize : Z;
  vm_stashAllocs : Z;
  vm_halt : bool
}.

Definition with_prg (x : option Program) (s : vm) : vm :=
  mkVm (vm_r s) x (vm_funcName s) (vm_pc s) (vm_stack s) (vm_sp s) (vm_sb s)
       (vm_args s) (vm_stash s) (vm_callStack s) (vm_iterStack s) (vm_refStack s)
       (vm_newTarget s) (vm_result s) (vm_maxCallStackSize s) (vm_stashAllocs s)
       (vm_halt s).
Definition with_funcName (x : string) (s : vm) : vm :=
  mkVm (vm_r s) (vm_prg s) x (vm_pc s) (vm_stack s) (vm_sp s) (vm_sb s)
       (vm_args s) (vm_stash s) (vm_callStack s) (vm_iterStack s) (vm_refStack s)
       (vm_newTarget s) (vm_result s) (vm_maxCallStackSize s) (vm_stashAllocs s)
       (vm_halt s).
Definition with_pc (x : Z) (s : vm) : vm :=
  mkVm (vm_r s) (vm_prg s) (vm_funcName s) x (vm_stack s) (vm_sp s) (vm_sb s)
       (vm_args s) (vm_stash s) (vm_callStack s) (vm_iterStack s) (vm_refStack s)
       (vm_newTarget s) (vm_result s) (vm_maxCallStackSize s) (vm_stashAllocs s)
       (vm_halt s).
Definition with_stack (x : list Slot) (s : vm) : vm :=
  mkVm (vm_r s) (vm_prg s) (vm_funcName s) (vm_pc s) x (vm_sp s) (vm_sb s)
       (vm_args s) (vm_stash s) (vm_callStack s) (vm_iterStack s) (vm_refStack s)
       (vm_newTarget s) (vm_result s) (vm_maxCallStackSize s) (vm_stashAllocs s)
       (vm_halt s).
Definition with_sp (x : Z) (s : vm) : vm :=
  mkVm (vm_r s) (vm_prg s) (vm_funcName s) (vm_pc s) (vm_stack s) x (vm_sb s)
       (vm_args s) (vm_stash s) (vm_callStack s) (vm_iterStack s) (vm_refStack s)
       (vm_newTarget s) (vm_result s) (vm_maxCallStackSize s) (vm_stashAllocs s)
       (vm_halt s).
Definition with_sb (x : Z) (s : vm) : vm :=
  mkVm (vm_r s) (vm_prg s) (vm_funcName s) (vm_pc s) (vm_stack s) (vm_sp s) x
       (vm_args s) (vm_stash s) (vm_callStack s) (vm_iterStack s) (vm_refStack s)
       (vm_newTarget s) (vm_result s) (vm_maxCallStackSize s) (vm_stashAllocs s)
       (vm_halt s).
Definition with_args (x : Z) (s : vm) : vm :=
  mkVm (vm_r s) (vm_prg s) (vm_funcName s) (vm_pc s) (vm_stack s) (vm_sp s) (vm_sb s)
       x (vm_stash s) (vm_callStack s) (vm_iterStack s) (vm_refStack s)
       (vm_newTarget s) (vm_result s) (vm_maxCallStackSize s) (vm_stashAllocs s)
       (vm_halt s).
Definition with_stash (x : option stash) (s : vm) : vm :=
  mkVm (vm_r s) (vm_prg s) (vm_funcName s) (vm_pc s) (vm_stack s) (vm_sp s) (vm_sb s)
       (vm_args s) x (vm_callStack s) (vm_iterStack s) (vm_refStack s)
       (vm_newTarget s) (vm_result s) (vm_maxCallStackSize s) (vm_stashAllocs s)
       (vm_halt s).
Definition with_callStack (x : list vmContext) (s : vm) : vm :=
  mkVm (vm_r s) (vm_prg s) (vm_funcName s) (vm_pc s) (vm_stack s) (vm_sp s) (vm_sb s)
       (vm_args s) (vm_stash s) x (vm_iterStack s) (vm_refStack s)
       (vm_newTarget s) (vm_result s) (vm_maxCallStackSize s) (vm_stashAllocs s)
       (vm_halt s).
Definition with_iterStack (x : list iterStackItem) (s : vm) : vm :=
  mkVm (vm_r s) (vm_prg s) (vm_funcName s) (vm_pc s) (vm_stack s) (vm_sp s) (vm_sb s)
       (vm_args s) (vm_stash s) (vm_callStack s) x (vm_refStack s)
       (vm_newTarget s) (vm_result s) (vm_maxCallStackSize s) (vm_stashAllocs s)
       (vm_halt s).
Definition with_refStack (x : list (option ref)) (s : vm) : vm :=
  mkVm (vm_r s) (vm_prg s) (vm_funcName s) (vm_pc s) (vm_stack s) (vm_sp s) (vm_sb s)
       (vm_args s) (vm_stash s) (vm_callStack s) (vm_iterStack s) x
       (vm_newTarget s) (vm_result s) (vm_maxCallStackSize s) (vm_stashAllocs s)
       (vm_halt s).
Definition with_newTarget (x : Slot) (s : vm) : vm :=
  mkVm (vm_r s) (vm_prg s) (vm_funcName s) (vm_pc s) (vm_stack s) (vm_sp s) (vm_sb s)
       (vm_args s) (vm_stash s) (vm_callStack s) (vm_iterStack s) (vm_refStack s)
       x (vm_result s) (vm_maxCallStackSize s) (vm_stashAllocs s)
       (vm_halt s).
Definition with_result (x : Slot) (s : vm) : vm :=
  mkVm (vm_r s) (vm_prg s) (vm_funcName s) (vm_pc s) (vm_stack s) (vm_sp s) (vm_sb s)
       (vm_args s) (vm_stash s) (vm_callStack s) (vm_iterStack s) (vm_refStack s)
       (vm_newTarget s) x (vm_maxCallStackSize s) (vm_stashAllocs s)
       (vm_halt s).
Definition with_halt (x : bool) (s : vm) : vm :=
  mkVm (vm_r s) (vm_prg s) (vm_funcName s) (vm_pc s) (vm_stack s) (vm_sp s) (vm_sb s)
       (vm_args s) (vm_stash s) (vm_callStack s) (vm_iterStack s) (vm_refStack s)
       (vm_newTarget s) (vm_result s) (vm_maxCallStackSize s) (vm_stashAllocs s)
       x.

(* ===================================================================== *)
(** ** Computations over the machine state *)
(* ===================================================================== *)

(** What the VM hands to the code it calls out to, in call order: the
    dispatch loop started at a program counter, an iterator's close, a
    direct [eval], a native function, a constructor, a proxy trap. *)
Inductive Event : Type :=
| EvRun (pc : Z)
| EvReturnIter (it : IterRef)
| EvEval (src : string) (direct strict : bool) (this : Slot)
| EvNative (f : FuncId) (this : Slot) (arguments : list Slot)
| EvConstruct (f : FuncId) (arguments : list Slot)
| EvProxyApply (o : ObjRef) (this : Slot) (arguments : list Slot).

Global Instance Event_eq_dec : EqDecision Event.
Proof. solve_decision. Defined.

(** A call that leaves [vm.go] returns or panics, and hands back the
    machine state it leaves behind. *)
Inductive Reply (A : Type) : Type :=
| Returns (a : A) (s : vm)
| Panics (x : PanicVal) (s : vm).
Arguments Returns {A} a s.
Arguments Panics {A} x s.

(** A method of [*vm]: it ends with a result or in a panic, in a final
    machine state, having made the outside calls [tr].  [OutOfFuel] is
    the answer of the fuel-bounded definitions below when their fuel
    does not suffice; nothing else produces it. *)
Inductive Outcome (A : Type) : Type :=
| Ok (a : A) (s : vm) (tr : list Event)
| Panic (x : PanicVal) (s : vm) (tr : list Event)
| OutOfFuel.
Arguments Ok {A} a s tr.
Arguments Panic {A} x s tr.
Arguments OutOfFuel {A}.

Definition M (A : Type) : Type := vm -> Outcome A.

Definition ret {A : Type} (a : A) : M A := fun s => Ok a s [].

Definition bind {A B : Type} (m : M A) (k : A -> M B) : M B :=
  fun s =>
    match m s with
    | Ok a s1 tr1 =>
        match k a s1 with
        | Ok b s2 tr2 => Ok b s2 (tr1 ++ tr2)
        | Panic x s2 tr2 => Panic x s2 (tr1 ++ tr2)
        | OutOfFuel => OutOfFuel
        end
    | Panic x s1 tr1 => Panic x s1 tr1
    | OutOfFuel => OutOfFuel
    end.

Definition panic {A : Type} (x : PanicVal) : M A := fun s => Panic x s [].
Definition get : M vm := fun s => Ok s s [].
Definition gets {A : Type} (f : vm -> A) : M A := fun s => Ok (f s) s [].
Definition modify (f : vm -> vm) : M unit := fun s => Ok tt (f s) [].

(** A logged call to the outside. *)
Definition outside {A : Type} (ev : Event) (f : vm -> Reply A) : M A :=
  fun s =>
    match f s with
    | Returns a s1 => Ok a s1 [ev]
    | Panics x s1 => Panic x s1 [ev]
    end.

Definition lift {A : Type} (r : Result A) : M A :=
  match r with
  | Done a => ret a
  | Raise x => panic x
  end.

Declare Scope vm_scope.
Delimit Scope vm_scope with vm.
Notation "x <- m ;; k" := (bind m (fun x => k))
  (at level 100, m at next level, right associativity) : vm_scope.
Notation "m ;;; k" := (bind m (fun _ => k))
  (at level 100, right associativity) : vm_scope.
Open Scope vm_scope.

Definition trace {A : Type} (o : Outcome A) : list Event :=
  match o with Ok _ _ tr | Panic _ _ tr => tr | OutOfFuel => [] end.


(** [vm.stack[i]], [vm.stack[i] = v] with Go's bounds check. *)
Definition stack_at (i : Z) : M Slot :=
  fun s =>
    match index (vm_stack s) i with
    | Some v => Ok v s []
    | None => Panic index_out_of_range s []
    end.

Definition stack_put (i : Z) (v : Slot) : M unit :=
  fun s =>
    match store (vm_stack s) i v with
    | Some st => Ok tt (with_stack st s) []
    | None => Panic index_out_of_range s []
    end.

(** Calling a method on a [nil] interface value. *)
Definition non_nil (v : Slot) : M Value :=
  match v with
  | Some x => ret x
  | None => panic nil_dereference
  end.

Definition pc_incr : M unit := modify (fun s => with_pc (vm_pc s + 1) s).

(* ===================================================================== *)
(** ** What [vm.go] consumes from the rest of the runtime *)
(* ===================================================================== *)

(** The implementations behind [Object.self] that the call and
    construction instructions switch on.  A lazy object carries what its
    [create] yields. *)
Inductive objectImpl : Type :=
| methodFuncObject (prg : Program) (st : option stash)
| funcObject (prg : Program) (st : option stash)
| arrowFuncObject (prg : Program) (st : option stash) (this newTarget : Slot)
| nativeFuncObject (f : option FuncId)
| boundFuncObject (f : option FuncId)
| proxyObject
| lazyObject (create : objectImpl)
| baseObject.

(** The value conversions, the object system, and the code the VM calls
    into (section 6 of the spec).  Conversions and property reads are
    taken as functions of their arguments; everything that can run
    script or host code takes and returns the machine state. *)
Class Host : Type := {
  (* value.go: conversions of values that are not numbers *)
  host_ToNumber : Value -> Value;
  host_ToFloat : Value -> float64;
  host_ToInt64 : Value -> Z;
  host_toString : Value -> string;
  ToBoolean : Value -> bool;
  toPrimitiveNumber_obj : ObjRef -> Value;
  (* object system *)
  self : ObjRef -> objectImpl;
  assertConstructor : ObjRef -> option FuncId;
  hasPropertyStr : ObjRef -> string -> bool;
  getStr : ObjRef -> string -> Slot;
  getSym_unscopables : ObjRef -> Slot;
  NewTypeError : string -> ObjRef;
  newError_ReferenceError : string -> ObjRef;
  newError_RangeError : string -> ObjRef;
  script_error : PanicVal -> ObjRef;
  (* code run on behalf of the VM *)
  dispatch_loop : vm -> Reply unit;
  iter_returnIter : IterRef -> vm -> Reply unit;
  r_eval : string -> bool -> bool -> Slot -> vm -> Reply Slot;
  native_f : FuncId -> Slot -> list Slot -> vm -> Reply Slot;
  ctor_f : FuncId -> list Slot -> vm -> Reply Slot;
  proxy_apply : ObjRef -> Slot -> list Slot -> vm -> Reply Slot;
  (* Go's heap: the entry at an index of the array behind [vm.callStack],
     or behind [vm.iterStack], that lies beyond the length of the slice *)
  callStack_beyond : vm -> nat -> vmContext;
  iterStack_beyond : vm -> nat -> iterStackItem
}.

Section Machine.

Context {host : Host} {layout : Layout}.

(** Modelled from the spec: the methods [Value.ToNumber],
    [Value.ToFloat] and [Value.ToInt64] are in [value.go], outside
    [vm.go]; by section 3 numbers convert along a single canonical
    float/integer path whatever their integer width: a number is its own
    [ToNumber], an integer converts to the nearest double and to itself
    as [int64].  Values that are not numbers convert in the host. *)
Definition ToNumber (v : Value) : Value :=
  match v with
  | valueInt _ | valueInt64 _ | valueFloat _ => v
  | _ => host_ToNumber v
  end.

Definition ToFloat (v : Value) : float64 :=
  match v with
  | valueInt i | valueInt64 i => f64_of_int i
  | valueFloat f => f
  | _ => host_ToFloat v
  end.

Definition ToInt64 (v : Value) : Z :=
  match v with
  | valueInt i | valueInt64 i => i
  | _ => host_ToInt64 v
  end.

Definition assertInt64 (v : Value) : Z * bool :=
  match ToNumber v with
  | valueInt i => (i, true)
  | valueInt64 _ => (ToInt64 v, true)
  | valueFloat f =>
      let '(i, ok) := floatToInt f in
      if ok then (i, true) else (0, false)
  | _ => (0, false)
  end.

(* --------------------------------------------------------------------- *)
(** *** Scope records *)

Definition stashObjHas (o : ObjRef) (name : string) : bool :=
  if hasPropertyStr o name then
    match getSym_unscopables o with
    | Some (valueObject unscopables) =>
        match getStr unscopables name with
        | Some b => negb (ToBoolean b)
        | None => true
        end
    | _ => true
    end
  else false.

Definition initByIdx (idx : Z) (v : Slot) (s : stash) : Result stash :=
  match obj s with
  | Some _ => Raise (pGo "Attempt to init by idx into an object scope")
  | None =>
      match store (values s) idx v with
      | Some vs => Done (set_values vs s)
      | None => Raise index_out_of_range
      end
  end.

Definition initByName (name : string) (v : Slot) (s : stash) : Result stash :=
  match names_lookup s name with
  | Some idx =>
      match store (values s) (and_not idx maskTyp) v with
      | Some vs => Done (set_values vs s)
      | None => Raise index_out_of_range
      end
  | None => Raise (pReferenceError (not_defined_msg name))
  end.

Definition getByIdx (idx : Z) (s : stash) : Result Slot :=
  match index (values s) idx with
  | Some v => Done v
  | None => Raise index_out_of_range
  end.

(** [func (s *stash) getByName(name) (v Value, exists bool)] *)
Definition getByName (name : string) (s : stash) : Result (Slot * bool) :=
  match obj s with
  | Some o =>
      if stashObjHas o name then Done (Some (nilSafe (getStr o name)), true)
      else Done (None, false)
  | None =>
      match names_lookup s name with
      | Some idx =>
          match index (values s) (and_not idx maskTyp) with
          | Some None =>
              if Z.land idx maskVar =? 0 then Raise errAccessBeforeInit
              else Done (Some _undefined, true)
          | Some (Some v) => Done (Some v, true)
          | None => Raise index_out_of_range
          end
      | None => Done (None, false)
      end
  end.

(** [func (s *stash) getRefByName(name, strict) ref]; [None] is the
    [nil] reference.  A stash-backed reference points at [s.values]. *)
Definition getRefByName (name : string) (strict : bool) (s : stash) : option ref :=
  match obj s with
  | Some o =>
      if stashObjHas o name then Some (objRef o name strict) else None
  | None =>
      match names_lookup s name with
      | Some idx =>
          if Z.land idx maskVar =? 0 then
            if Z.land idx maskConst =? 0 then
              Some (stashRefLex name (and_not idx maskTyp))
            else
              Some (stashRefConst name (and_not idx maskTyp)
                      (strict || negb (Z.land idx maskStrict =? 0)))
          else Some (stashRef name (and_not idx maskTyp))
      | None => None
      end
  end.

(** [uint32(n)] *)
Definition uint32 (n : Z) : Z := n mod 2 ^ 32.

Definition make_names (s : stash) : stash :=
  match names s with
  | None => set_names (Some ∅) s
  | Some _ => s
  end.

Definition names_insert (name : string) (idx : Z) (s : stash) : stash :=
  match names s with
  | Some m => set_names (Some (<[name := idx]> m)) s
  | None => s
  end.

Definition createBinding (name : string) (deletable : bool) (s : stash) : stash :=
  let s := make_names s in
  match names_lookup s name with
  | Some _ => s
  | None =>
      let idx := Z.lor (uint32 (names_len s)) maskVar in
      let idx := if deletable then Z.lor idx maskDeletable else idx in
      let s := names_insert name idx s in
      set_values (values s ++ [Some _undefined]) s
  end.

Definition createLexBinding (name : string) (isConst : bool) (s : stash) : stash :=
  let s := make_names s in
  match names_lookup s name with
  | Some _ => s
  | None =>
      let idx := uint32 (names_len s) in
      let idx := if isConst then Z.lor idx (Z.lor maskConst maskStrict) else idx in
      let s := names_insert name idx s in
      set_values (values s ++ [None]) s
  end.

Definition deleteBinding (name : string) (s : stash) : stash :=
  match names s with
  | Some m => set_names (Some (delete name m)) s
  | None => s
  end.

(* --------------------------------------------------------------------- *)
(** *** Frames *)

(** [func (vm *vm) push(v Value)], with [valueStack.expand]: the stack
    grows to hold index [sp]; slots it grows by are empty. *)
Definition push (v : Slot) : M unit :=
  fun s =>
    let sp := vm_sp s in
    if sp <? 0 then Panic index_out_of_range s []
    else
      let st := vm_stack s in
      let st := if sp <? Z.of_nat (length st) then st
                else st ++ replicate (Z.to_nat sp + 1 - length st)%nat None in
      Ok tt (with_sp (sp + 1) (with_stack (<[Z.to_nat sp := v]> st) s)) [].

Definition pop : M Slot :=
  modify (fun s => with_sp (vm_sp s - 1) s) ;;;
  sp <- gets vm_sp ;; stack_at sp.

Definition peek : M Slot :=
  sp <- gets vm_sp ;; stack_at (sp - 1).

(** [func (vm *vm) saveCtx(ctx *vmContext)]: the frame saved from the
    current state into a zero [vmContext], which is what both callers
    pass. *)
Definition saveCtx (s : vm) : vmContext :=
  let fn :=
    if negb (String.eqb (vm_funcName s) "") then vm_funcName s
    else match vm_prg s with
         | Some p => if negb (String.eqb (prg_funcName p) "") then prg_funcName p else ""
         | None => ""
         end in
  mkCtx (vm_prg s) fn (vm_stash s) (vm_newTarget s) (vm_result s)
        (vm_pc s) (vm_sb s) (vm_args s).

Definition rangeError (msg : string) : PanicVal := pRangeError msg.

Definition call_stack_exceeded : PanicVal :=
  rangeError "Maximum call stack size exceeded".

(** [func (vm *vm) pushCtx()] *)
Definition pushCtx : M unit :=
  s <- get ;;
  if negb (vm_maxCallStackSize s =? 0)
     && (vm_maxCallStackSize s <=? Z.of_nat (length (vm_callStack s)) + 1)
  then panic (rangeError "Maximum call stack size exceeded")
  else
    modify (with_callStack (vm_callStack s ++ [empty_ctx])) ;;;
    modify (fun s1 =>
      with_callStack
        (<[(length (vm_callStack s1) - 1)%nat := saveCtx s1]> (vm_callStack s1)) s1).

Definition restoreCtx (ctx : vmContext) (s : vm) : vm :=
  with_funcName (ctx_funcName ctx)
    (with_args (ctx_args ctx) (with_sb (ctx_sb ctx) (with_pc (ctx_pc ctx)
      (with_result (ctx_result ctx) (with_newTarget (ctx_newTarget ctx)
        (with_stash (ctx_stash ctx) (with_prg (ctx_prg ctx) s))))))).

(** [func (vm *vm) popCtx()] *)
Definition popCtx : M unit :=
  s <- get ;;
  match last (vm_callStack s) with
  | Some ctx =>
      modify (restoreCtx ctx) ;;;
      modify (fun s1 => with_callStack (removelast (vm_callStack s1)) s1)
  | None => panic index_out_of_range
  end.

(* --------------------------------------------------------------------- *)
(** *** Arithmetic and relational instructions *)

Definition mul_result (left right : Value) : Value :=
  let float_path := floatToValue (f64_mul (ToFloat left) (ToFloat right)) in
  let '(l, ok) := assertInt64 left in
  if ok then
    let '(r, ok) := assertInt64 right in
    if ok then
      if (l =? 0) && (r =? -1) || (l =? -1) && (r =? 0) then _negativeZero
      else
        let res := int64_mul l r in
        (* check for overflow *)
        if (l =? 0) || (r =? 0) || (int64_quo res l =? r) then intToValue res
        else float_path
    else float_path
  else float_path.

(** [func (_mul) exec(vm *vm)] *)
Definition _mul_exec : M unit :=
  sp <- gets vm_sp ;;
  left <- stack_at (sp - 2) ;;
  right <- stack_at (sp - 1) ;;
  left <- non_nil left ;;
  right <- non_nil right ;;
  let result := mul_result left right in
  modify (with_sp (sp - 1)) ;;;
  stack_put (sp - 2) (Some result) ;;;
  pc_incr.

Definition div_result (left right : float64) : Value :=
  if IsNaN left || IsNaN right then _NaN
  else if IsInf left 0 && IsInf right 0 then _NaN
  else if f64_is_zero left && f64_is_zero right then _NaN
  else if IsInf left 0 then
    if Bool.eqb (Signbit left) (Signbit right) then _positiveInf else _negativeInf
  else if IsInf right 0 then
    if Bool.eqb (Signbit left) (Signbit right) then _positiveZero else _negativeZero
  else if f64_is_zero right then
    if Bool.eqb (Signbit left) (Signbit right) then _positiveInf else _negativeInf
  else floatToValue (f64_quo left right).

(** [func (_div) exec(vm *vm)] *)
Definition _div_exec : M unit :=
  sp <- gets vm_sp ;;
  left <- stack_at (sp - 2) ;;
  left <- non_nil left ;;
  right <- stack_at (sp - 1) ;;
  right <- non_nil right ;;
  let result := div_result (ToFloat left) (ToFloat right) in
  modify (with_sp (sp - 1)) ;;;
  stack_put (sp - 2) (Some result) ;;;
  pc_incr.

Definition toPrimitiveNumber (v : Value) : Value :=
  match v with
  | valueObject o => toPrimitiveNumber_obj o
  | _ => v
  end.

(** Modelled from the spec: [valueString.compareTo] is outside [vm.go];
    section 4.3 says string operands compare lexicographically. *)
Definition compareTo (xs ys : string) : Z :=
  match String.compare xs ys with
  | Lt => -1
  | Eq => 0
  | Gt => 1
  end.

Definition bool_value (b : bool) : Value := if b then valueTrue else valueFalse.

(** [func cmp(px, py Value) Value]; [_undefined] stands for
    "incomparable". *)
Definition cmp (px py : Value) : Value :=
  match px, py with
  | valueString xs, valueString ys => bool_value (compareTo xs ys <? 0)
  | valueInt xi, valueInt yi => bool_value (xi <? yi)
  | valueInt64 xi, valueInt64 yi => bool_value (xi <? yi)
  | _, _ =>
      let nx := ToFloat px in
      let ny := ToFloat py in
      if IsNaN nx || IsNaN ny then _undefined
      else bool_value (f64_ltb nx ny)
  end.

Definition lt_result (left right : Value) : Value :=
  let r := cmp left right in
  if bool_decide (r = _undefined) then valueFalse else r.

Definition lte_result (left right : Value) : Value :=
  let r := cmp right left in
  if bool_decide (r = _undefined) || bool_decide (r = valueTrue) then valueFalse
  else valueTrue.

Definition relational (op : Value -> Value -> Value) : M unit :=
  sp <- gets vm_sp ;;
  left <- stack_at (sp - 2) ;;
  right <- stack_at (sp - 1) ;;
  left <- non_nil left ;;
  right <- non_nil right ;;
  let left := toPrimitiveNumber left in
  let right := toPrimitiveNumber right in
  stack_put (sp - 2) (Some (op left right)) ;;;
  modify (with_sp (sp - 1)) ;;;
  pc_incr.

(** [func (_op_lt) exec(vm *vm)], [func (_op_lte) exec(vm *vm)] *)
Definition _op_lt_exec : M unit := relational lt_result.
Definition _op_lte_exec : M unit := relational lte_result.

(* --------------------------------------------------------------------- *)
(** *** Calls and construction *)

(** [panic(vm.r.NewTypeError(...))]: the panic carries the error object. *)
Definition throwTypeError {A : Type} (msg : string) : M A :=
  panic (pValue (valueObject (NewTypeError msg))).

(** Modelled from the spec: [Runtime.toObject] is outside [vm.go]; by
    section 7 a value with no object form raises a type error. *)
Definition toObject (v : Slot) : M ObjRef :=
  match v with
  | Some (valueObject o) => ret o
  | Some x => throwTypeError (String.append "Value is not an object: " (host_toString x))
  | None => throwTypeError "Value is not an object: undefined"
  end.

(** [func (vm *vm) toCallee(v Value) *Object] *)
Definition toCallee (v : Slot) : M ObjRef :=
  match v with
  | Some (valueObject o) => ret o
  | Some (valueUnresolved name) => panic (throwReferenceError name)
  | Some (memberUnresolved name) =>
      throwTypeError (String.append "'" (String.append name "' is not a function"))
  | Some x => throwTypeError (String.append "Value is not an object: " (host_toString x))
  | None => panic nil_dereference
  end.

(** The slice expression [vm.stack[lo:hi]]. *)
Definition stack_slice (lo hi : Z) : M (list Slot) :=
  fun s =>
    if (0 <=? lo) && (lo <=? hi) && (hi <=? Z.of_nat (length (vm_stack s))) then
      Ok (take (Z.to_nat (hi - lo)) (drop (Z.to_nat lo) (vm_stack s))) s []
    else Panic (pGo "slice bounds out of range") s [].

(** [func (vm *vm) _nativeCall(f *nativeFuncObject, n int)]; [o] is the
    object whose implementation [f] is. *)
Definition _nativeCall (o : ObjRef) (f : option FuncId) (n : Z) : M unit :=
  match f with
  | Some fn =>
      pushCtx ;;;
      modify (with_prg None) ;;;
      modify (with_funcName (host_toString (nilSafe (getStr o "name")))) ;;;
      sp <- gets vm_sp ;;
      arguments <- stack_slice (sp - n) sp ;;
      this <- stack_at (sp - n - 2) ;;
      r <- outside (EvNative fn this arguments) (native_f fn this arguments) ;;
      let r := Some (nilSafe r) in
      sp <- gets vm_sp ;;
      stack_put (sp - n - 2) r ;;;
      popCtx
  | None =>
      sp <- gets vm_sp ;;
      stack_put (sp - n - 2) (Some _undefined)
  end ;;;
  modify (fun s => with_sp (vm_sp s - (n + 1)) s) ;;;
  pc_incr.

(** Entering a scripted function: the three function cases of
    [call.exec] up to the stack swap. *)
Definition enter_function (n : Z) (prg : Program) (st : option stash) : M unit :=
  pc_incr ;;;
  pushCtx ;;;
  modify (with_args n) ;;;
  modify (with_prg (Some prg)) ;;;
  modify (with_stash st) ;;;
  modify (with_pc 0).

(** The [repeat:] loop of [call.exec], by recursion on what a lazy
    object materializes to. *)
Fixpoint call_dispatch (n : Z) (o : ObjRef) (impl : objectImpl) : M unit :=
  s <- get ;;
  if negb (stackDepthLimit (vm_r s) =? 0)
     && (stackDepthLimit (vm_r s) <=? Z.of_nat (length (vm_callStack s)) + 1)
  then panic (rangeError "Maximum call stack size exceeded")
  else
    match impl with
    | methodFuncObject prg st | funcObject prg st =>
        enter_function n prg st ;;;
        sp <- gets vm_sp ;;
        a <- stack_at (sp - n - 2) ;;
        b <- stack_at (sp - n - 1) ;;
        stack_put (sp - n - 1) a ;;;
        stack_put (sp - n - 2) b
    | arrowFuncObject prg st this newTarget =>
        enter_function n prg st ;;;
        sp <- gets vm_sp ;;
        b <- stack_at (sp - n - 1) ;;
        stack_put (sp - n - 1) this ;;;
        stack_put (sp - n - 2) b ;;;
        modify (with_newTarget newTarget)
    | nativeFuncObject f | boundFuncObject f => _nativeCall o f n
    | proxyObject =>
        pushCtx ;;;
        modify (with_prg None) ;;;
        modify (with_funcName "proxy") ;;;
        sp <- gets vm_sp ;;
        this <- stack_at (sp - n - 2) ;;
        arguments <- stack_slice (sp - n) sp ;;
        r <- outside (EvProxyApply o this arguments) (proxy_apply o this arguments) ;;
        let r := Some (nilSafe r) in
        sp <- gets vm_sp ;;
        stack_put (sp - n - 2) r ;;;
        popCtx ;;;
        modify (fun s => with_sp (vm_sp s - (n + 1)) s) ;;;
        pc_incr
    | lazyObject create => call_dispatch n o create
    | baseObject =>
        throwTypeError
          (String.append "Not a function: " (host_toString (valueObject o)))
    end.

(** [func (numargs call) exec(vm *vm)] *)
Definition call_exec (n : Z) : M unit :=
  sp <- gets vm_sp ;;
  v <- stack_at (sp - n - 1) ;;
  o <- toCallee v ;;
  call_dispatch n o (self o).

(** [func (vm *vm) callEval(n int, strict bool)] *)
Definition callEval (n : Z) (strict : bool) : M unit :=
  sp <- gets vm_sp ;;
  callee <- stack_at (sp - n - 1) ;;
  match callee with
  | Some (valueObject o) =>
      s <- get ;;
      if bool_decide (o = global_Eval (vm_r s)) then
        (if 0 <? n then
           srcVal <- stack_at (sp - n) ;;
           match srcVal with
           | Some (valueString src) =>
               this <- (if 0 <=? vm_sb s then stack_at (vm_sb s)
                        else ret (Some (valueObject (globalObject (vm_r s))))) ;;
               r <- outside (EvEval src true strict this) (r_eval src true strict this) ;;
               sp <- gets vm_sp ;;
               stack_put (sp - n - 2) r
           | _ => stack_put (sp - n - 2) srcVal
           end
         else stack_put (sp - n - 2) (Some _undefined)) ;;;
        modify (fun s => with_sp (vm_sp s - (n + 1)) s) ;;;
        pc_incr
      else call_exec n
  | _ => throwTypeError "'eval' is not a function"
  end.

Definition callEval_exec (numargs : Z) : M unit := callEval numargs false.
Definition callEvalStrict_exec (numargs : Z) : M unit := callEval numargs true.

(** [func (n _new) exec(vm *vm)] *)
Definition _new_exec (n : Z) : M unit :=
  s <- get ;;
  let sp := vm_sp s - n in
  callee <- stack_at (sp - 1) ;;
  o <- toObject callee ;;
  match assertConstructor o with
  | Some ctor =>
      arguments <- stack_slice sp (vm_sp s) ;;
      r <- outside (EvConstruct ctor arguments) (ctor_f ctor arguments) ;;
      stack_put (sp - 1) r
  | None =>
      match self o with
      | nativeFuncObject f =>
          arguments <- stack_slice (vm_sp s - vm_args s) (vm_sp s) ;;
          match f with
          | Some fn =>
              r <- outside (EvNative fn callee arguments) (native_f fn callee arguments) ;;
              stack_put (sp - 1) r
          | None => panic nil_dereference
          end
      | _ => ret tt
      end
  end ;;;
  modify (with_sp sp) ;;;
  pc_incr.

(* --------------------------------------------------------------------- *)
(** *** The dispatch loop, try regions and iterator unwinding *)

(** [func (vm *vm) run()]: the loop clears the halt flag and executes
    instructions from the current program counter until one of them
    halts it or panics.  The instruction set is large; the loop is
    represented by what it does to the machine state. *)
Definition run : M unit :=
  modify (with_halt false) ;;;
  s <- get ;;
  outside (EvRun (vm_pc s)) dispatch_loop.

(** The type switch of [vm.try] on the recovered panic: either an
    [*Exception] to return, or a panic to raise again.  The two error
    constants declared outside [vm.go] are script-visible errors
    (section 7 of the spec) and are caught like the other error kinds. *)
Inductive Handled : Type :=
| Caught (ex : Exception)
| Rethrown (x : PanicVal).

Definition handle (x : PanicVal) : Handled :=
  match x with
  | pValue v => Caught (mkException v)
  | pInterrupted => Rethrown x
  | pException ex => Caught ex
  | pUncatchable => Rethrown x
  | pTypeError msg => Caught (mkException (valueObject (NewTypeError msg)))
  | pReferenceError msg =>
      Caught (mkException (valueObject (newError_ReferenceError msg)))
  | pRangeError msg =>
      Caught (mkException (valueObject (newError_RangeError msg)))
  | pAccessBeforeInit | pAssignToConst =>
      Caught (mkException (valueObject (script_error x)))
  | pGo _ => Rethrown x
  end.

Definition slice_bounds : PanicVal := pGo "slice bounds out of range".

(** The loop over [iterTail] in the deferred function of [vm.try].
    [iterTail] is the tail of the iterator stack as it was when the
    loop started; entry [i] of the tail is entry [base + i] of the
    stack.  The iterator stack is a value here: a close sees the stack
    with the entries before its own already cleared, and what it does to
    the stack does not change the entries still to be visited. *)
Fixpoint close_tail (try_close : IterRef -> M unit)
    (iterTail : list iterStackItem) (base : nat) : M unit :=
  match iterTail with
  | [] => ret tt
  | item :: rest =>
      match item_iter item with
      | Some it => try_close it
      | None => ret tt
      end ;;;
      modify (fun s => with_iterStack (<[base := empty_item]> (vm_iterStack s)) s) ;;;
      close_tail try_close rest (S base)
  end.

Definition returnIter (it : IterRef) : M unit :=
  outside (EvReturnIter it) (iter_returnIter it).

(** [vm.callStack[:n]].  The bound of a slice expression [a[:n]] is
    checked against the capacity of [a], not its length: with [n] beyond
    the length the slice is extended again over the entries its array
    holds there, which are those of frames popped earlier ([popCtx]
    clears four fields of an entry and leaves it in the array).  The
    frame array is only ever appended to or cut ([pushCtx], [popCtx] and
    here), so its capacity is no less than any length it had, and the
    [n] of [vm.try], a length it had, is within it. *)
Definition callStack_upto (n : nat) (s : vm) : list vmContext :=
  take n (vm_callStack s)
  ++ (callStack_beyond s <$> seq (length (vm_callStack s))
                                 (n - length (vm_callStack s))).

(** [vm.iterStack[:n]], after the closes.  As for the frame array, the
    bound is checked against the capacity, which is no less than any
    length the stack had; if a close left the stack shorter than [n],
    the slice is extended again over the entries the array holds beyond
    the length.  (The instructions of [vm.go] that pop the iterator
    stack set the entry they give up to [iterStackItem{}] first.) *)
Definition iterStack_upto (n : nat) (s : vm) : list iterStackItem :=
  take n (vm_iterStack s)
  ++ (iterStack_beyond s <$> seq (length (vm_iterStack s))
                                 (n - length (vm_iterStack s))).

(** The innermost deferred function of [vm.try]: the machine goes back
    to the frame saved on entry, and the iterator and reference stacks
    are cut back to their lengths on entry, every open iterator in the
    part cut off being closed under a [vm.try] of its own
    ([try_close]).  The two slice expressions that take a tail,
    [vm.iterStack[iterLen:]] and [vm.refStack[refLen:]], panic when the
    stack is shorter than the bound. *)
Definition restore_stacks (try_close : IterRef -> M unit)
    (ctx : vmContext) (ctxOffset : nat) (sp : Z) (iterLen refLen : nat) : M unit :=
  modify (fun s => with_callStack (callStack_upto ctxOffset s) s) ;;;
  modify (restoreCtx ctx) ;;;
  modify (with_sp sp) ;;;
  (* Restore other stacks *)
  s <- get ;;
  if (length (vm_iterStack s) <? iterLen)%nat then panic slice_bounds
  else
    close_tail try_close (drop iterLen (vm_iterStack s)) iterLen ;;;
    modify (fun s => with_iterStack (iterStack_upto iterLen s) s) ;;;
    s <- get ;;
    if (length (vm_refStack s) <? refLen)%nat then panic slice_bounds
    else modify (fun s => with_refStack (take refLen (vm_refStack s)) s).

(** [func (vm *vm) try(ctx1, f func()) (ex *Exception)].  On a panic of
    [f] the stacks are restored whatever the panic is; then the type
    switch decides between returning an exception and panicking again.
    A panic while restoring takes the place of the one being handled.
    Closing an iterator calls [vm.try] again; [fuel] bounds the depth of
    that nesting. *)
Fixpoint vm_try (fuel : nat) (f : M unit) : M (option Exception) :=
  match fuel with
  | O => fun _ => OutOfFuel
  | S fuel' =>
      fun s0 =>
        let ctx := saveCtx s0 in
        let ctxOffset := length (vm_callStack s0) in
        let sp := vm_sp s0 in
        let iterLen := length (vm_iterStack s0) in
        let refLen := length (vm_refStack s0) in
        match f s0 with
        | Ok _ s1 tr => Ok None s1 tr
        | OutOfFuel => OutOfFuel
        | Panic x s1 tr =>
            match restore_stacks
                    (fun it => _ <- vm_try fuel' (returnIter it) ;; ret tt)
                    ctx ctxOffset sp iterLen refLen s1 with
            | Ok _ s2 tr2 =>
                match handle x with
                | Caught ex => Ok (Some ex) s2 (tr ++ tr2)
                | Rethrown y => Panic y s2 (tr ++ tr2)
                end
            | Panic y s2 tr2 => Panic y s2 (tr ++ tr2)
            | OutOfFuel => OutOfFuel
            end
        end
  end.

(** [func (vm *vm) runTry(ctx) (ex *Exception)] *)
Definition runTry (fuel : nat) : M (option Exception) := vm_try fuel run.

(** [vm.prg.code[vm.pc]] *)
Definition fetch (s : vm) : Result instruction :=
  match vm_prg s with
  | None => Raise nil_dereference
  | Some p =>
      match index (code p) (vm_pc s) with
      | Some i => Done i
      | None => Raise index_out_of_range
      end
  end.

Definition code_at_pc : M instruction :=
  s <- get ;; lift (fetch s).

(** The try / catch part of [try.exec]: what is pending when the
    finally part is reached. *)
Definition try_catch (fuel : nat) (o catchOffset : Z) : M (option Exception) :=
  ex <- runTry fuel ;;
  match ex with
  | Some e =>
      if 0 <? catchOffset then
        (* run the catch block (in try) *)
        modify (with_pc (o + catchOffset)) ;;;
        push (Some (ex_val e)) ;;;
        runTry fuel
      else ret ex
  | None => ret ex
  end.

(** The finally part of [try.exec]. *)
Definition try_finally (o finallyOffset : Z) (ex : option Exception)
  : M (option Exception) :=
  if 0 <? finallyOffset then
    pc <- gets vm_pc ;;
    (* Run finally *)
    modify (with_pc (o + finallyOffset)) ;;;
    run ;;;
    i <- code_at_pc ;;
    if bool_decide (i = retFinally) then modify (with_pc pc) ;;; ret ex
    else
      (* break or continue out of finally, dropping exception *)
      ret None
  else ret ex.

(** [func (t try) exec(vm *vm)] *)
Definition try_exec (fuel : nat) (catchOffset finallyOffset : Z) : M unit :=
  o <- gets vm_pc ;;
  pc_incr ;;;
  ex <- try_catch fuel o catchOffset ;;
  ex <- try_finally o finallyOffset ex ;;
  modify (with_halt false) ;;;
  match ex with
  | Some e =>
      modify (with_pc (-1)) ;;;
      panic (pException e)
  | None => ret tt
  end.

(** [func (_enumPopClose) exec(vm *vm)] *)
Definition _enumPopClose_exec : M unit :=
  s <- get ;;
  match last (vm_iterStack s) with
  | None => panic index_out_of_range
  | Some item =>
      modify (with_iterStack (removelast (vm_iterStack s))) ;;;
      match item_iter item with
      | Some it => returnIter it
      | None => ret tt
      end ;;;
      pc_incr
  end.

(** [func (_halt) exec], [func (_retFinally) exec], [func (j jump) exec],
    [func (_throw) exec] *)
Definition _halt_exec : M unit := modify (with_halt true) ;;; pc_incr.
Definition _retFinally_exec : M unit := pc_incr.
Definition jump_exec (j : Z) : M unit := modify (fun s => with_pc (vm_pc s + j) s).
Definition _throw_exec : M unit :=
  sp <- gets vm_sp ;;
  v <- stack_at (sp - 1) ;;
  v <- non_nil v ;;
  panic (pValue v).

(** The [exec] method of the instructions above; an [otherInstr] has
    none here. *)
Definition exec (fuel : nat) (i : instruction) : option (M unit) :=
  match i with
  | halt => Some _halt_exec
  | retFinally => Some _retFinally_exec
  | jump j => Some (jump_exec j)
  | throw => Some _throw_exec
  | mul => Some _mul_exec
  | div => Some _div_exec
  | op_lt => Some _op_lt_exec
  | op_lte => Some _op_lte_exec
  | call numargs => Some (call_exec numargs)
  | callEval_ numargs => Some (callEval_exec numargs)
  | callEvalStrict numargs => Some (callEvalStrict_exec numargs)
  | _new n => Some (_new_exec n)
  | try_ catchOffset finallyOffset => Some (try_exec fuel catchOffset finallyOffset)
  | enumPopClose => Some _enumPopClose_exec
  | otherInstr _ => None
  end.

End Machine.

(* ===================================================================== *)
(** ** More of the machine *)
(* ===================================================================== *)

(** *** The growable value stack *)

(** [type valueStack []Value] as Go holds it: a backing array, whose
    length is the capacity, and the length of the part in view. *)
Record valueStack : Type := mkValueStack {
  backing : list Slot;
  vlen : nat
}.

Definition vcap (s : valueStack) : nat := length (backing s).

(** The slice proper: the elements below the length. *)
Definition visible (s : valueStack) : list Slot := take (vlen s) (backing s).

(** The new capacity [expand] asks of [make] for the incremented index
    [idx]. *)
Definition new_cap (idx : Z) : Z :=
  if idx <? 1024 then idx * 2 else and_not (idx + 1025) 1023.

(** [func (s *valueStack) expand(idx int)] *)
Definition expand (idx : Z) (s : valueStack) : valueStack :=
  if idx <? Z.of_nat (vlen s) then s
  else
    let idx := idx + 1 in
    if idx <? Z.of_nat (vcap s) then mkValueStack (backing s) (Z.to_nat idx)
    else
      mkValueStack
        (visible s ++ replicate (Z.to_nat (new_cap idx) - vlen s)%nat None)
        (Z.to_nat idx).

(** The loop and the reslice of [vm.clearStack] on a value stack:
    the slots from [sp] up to the length are set to [nil] and the
    length becomes [sp].  [None] is the slice-bounds panic. *)
Definition clear_from (sp : Z) (s : valueStack) : option valueStack :=
  if (0 <=? sp) && (sp <=? Z.of_nat (vlen s)) then
    Some (mkValueStack
            (take (Z.to_nat sp) (backing s)
             ++ replicate (vlen s - Z.to_nat sp)%nat None
             ++ drop (vlen s) (backing s))
            (Z.to_nat sp))
  else None.

(** The length is within the capacity, and every slot of the backing
    array beyond the length is [nil]. *)
Definition cleared (s : valueStack) : Prop :=
  (vlen s <= vcap s)%nat
  /\ drop (vlen s) (backing s) = replicate (vcap s - vlen s)%nat None.

(** What [expand] does to the slice in view when the slots it brings
    into view are empty; the operand stack of the machine is kept as
    that slice. *)
Definition grow (idx : Z) (st : list Slot) : list Slot :=
  if idx <? Z.of_nat (length st) then st
  else st ++ replicate (Z.to_nat (idx + 1) - length st)%nat None.

(** *** More arithmetic *)

Definition f64_add : float64 -> float64 -> float64 := SFadd prec64 emax64.
Definition f64_sub : float64 -> float64 -> float64 := SFsub prec64 emax64.
Definition f64_neg : float64 -> float64 := SFopp.

Definition int64_add (a b : Z) : Z := wrap64 (a + b).
Definition int64_sub (a b : Z) : Z := wrap64 (a - b).
Definition int64_neg (a : Z) : Z := wrap64 (- a).

(** Go's [%] on [int64]: the remainder of the truncated division; it
    does not overflow. *)
Definition int64_rem (a b : Z) : Z := Z.rem a b.

Section MachineMore.

Context {host : Host} {layout : Layout}.

(** [math.Mod], from Go's library. *)
Variable math_Mod : float64 -> float64 -> float64.

Definition sub_result (left right : Value) : Value :=
  match left, right with
  | valueInt l, valueInt r => intToValue (int64_sub l r)
  | valueInt64 l, valueInt64 r => int64ToValue (int64_sub l r)
  | _, _ => floatToValue (f64_sub (ToFloat left) (ToFloat right))
  end.

(** [func (_sub) exec(vm *vm)] *)
Definition _sub_exec : M unit :=
  sp <- gets vm_sp ;;
  right <- stack_at (sp - 1) ;;
  left <- stack_at (sp - 2) ;;
  left <- non_nil left ;;
  right <- non_nil right ;;
  let result := sub_result left right in
  modify (with_sp (sp - 1)) ;;;
  stack_put (sp - 2) (Some result) ;;;
  pc_incr.

Definition mod_result (left right : Value) : Value :=
  let float_path := floatToValue (math_Mod (ToFloat left) (ToFloat right)) in
  let '(leftInt, ok) := assertInt64 left in
  if ok then
    let '(rightInt, ok) := assertInt64 right in
    if ok then
      if rightInt =? 0 then _NaN
      else
        let r := int64_rem leftInt rightInt in
        if (r =? 0) && (leftInt <? 0) then _negativeZero
        else intToValue (int64_rem leftInt rightInt)
    else float_path
  else float_path.

(** [func (_mod) exec(vm *vm)] *)
Definition _mod_exec : M unit :=
  sp <- gets vm_sp ;;
  left <- stack_at (sp - 2) ;;
  right <- stack_at (sp - 1) ;;
  left <- non_nil left ;;
  right <- non_nil right ;;
  let result := mod_result left right in
  modify (with_sp (sp - 1)) ;;;
  stack_put (sp - 2) (Some result) ;;;
  pc_incr.

Definition neg_result (operand : Value) : Value :=
  let '(i, ok) := assertInt64 operand in
  if ok then
    if i =? 0 then _negativeZero else valueInt (int64_neg i)
  else
    let f := ToFloat operand in
    valueFloat (if negb (IsNaN f) then f64_neg f else f).

Definition inc_result (v : Value) : Value :=
  let '(i, ok) := assertInt64 v in
  if ok then intToValue (int64_add i 1)
  else valueFloat (f64_add (ToFloat v) (f64_of_int 1)).

Definition dec_result (v : Value) : Value :=
  let '(i, ok) := assertInt64 v in
  if ok then intToValue (int64_sub i 1)
  else valueFloat (f64_sub (ToFloat v) (f64_of_int 1)).

(** The instructions that replace the top of the stack by a function of
    it: [_neg], [_inc], [_dec]. *)
Definition unary (op : Value -> Value) : M unit :=
  sp <- gets vm_sp ;;
  v <- stack_at (sp - 1) ;;
  v <- non_nil v ;;
  stack_put (sp - 1) (Some (op v)) ;;;
  pc_incr.

(** [func (_neg) exec], [func (_inc) exec], [func (_dec) exec] *)
Definition _neg_exec : M unit := unary neg_result.
Definition _inc_exec : M unit := unary inc_result.
Definition _dec_exec : M unit := unary dec_result.

(** [v == _negativeZero]: Go compares two interface values that hold a
    [valueFloat] as floats, and both zeros are equal as floats. *)
Definition eq_negativeZero (v : Value) : bool :=
  match v with
  | valueFloat g => f64_is_zero g
  | _ => false
  end.

(** [func toIntIgnoreNegZero(v Value) (int64, bool)] *)
Definition toIntIgnoreNegZero (v : Value) : Z * bool :=
  match ToNumber v with
  | valueInt i => (i, true)
  | valueInt64 i => (i, true)
  | valueFloat f =>
      if eq_negativeZero v then (0, true)
      else
        let '(i, ok) := floatToInt f in
        if ok then (i, true) else (0, false)
  | _ => (0, false)
  end.

(* --------------------------------------------------------------------- *)
(** *** Registers on the stack *)

Definition illegal_stack_var : PanicVal := pGo "Illegal stack var index".

Definition sp_decr : M unit := modify (fun s => with_sp (vm_sp s - 1) s).

(** [func (l loadStack) exec(vm *vm)] *)
Definition loadStack_exec (l : Z) : M unit :=
  s <- get ;;
  (if 0 <? l then
     v <- stack_at (vm_sb s + vm_args s + l) ;; push (Some (nilSafe v))
   else
     v <- stack_at (vm_sb s) ;; push v) ;;;
  pc_incr.

(** [func (l loadStack1) exec(vm *vm)] *)
Definition loadStack1_exec (l : Z) : M unit :=
  s <- get ;;
  (if 0 <? l then
     v <- stack_at (vm_sb s + l) ;; push (Some (nilSafe v))
   else
     v <- stack_at (vm_sb s) ;; push v) ;;;
  pc_incr.

(** [func (l loadStackLex) exec(vm *vm)] *)
Definition loadStackLex_exec (l : Z) : M unit :=
  s <- get ;;
  if (l <? 0) && (vm_args s <? - l) then
    push (Some _undefined) ;;; pc_incr
  else
    p <- stack_at (if l <? 0 then vm_sb s + - l else vm_sb s + vm_args s + l) ;;
    match p with
    | None => panic errAccessBeforeInit
    | Some v => push (Some v) ;;; pc_incr
    end.

(** [func (l loadStack1Lex) exec(vm *vm)] *)
Definition loadStack1Lex_exec (l : Z) : M unit :=
  s <- get ;;
  p <- stack_at (vm_sb s + l) ;;
  match p with
  | None => panic errAccessBeforeInit
  | Some v => push (Some v) ;;; pc_incr
  end.

(** [func (vm *vm) storeStack(s int)] *)
Definition storeStack (s : Z) : M unit :=
  if 0 <? s then
    st <- get ;;
    v <- stack_at (vm_sp st - 1) ;;
    stack_put (vm_sb st + vm_args st + s) v ;;;
    pc_incr
  else panic illegal_stack_var.

(** [func (vm *vm) storeStack1(s int)] *)
Definition storeStack1 (s : Z) : M unit :=
  if 0 <? s then
    st <- get ;;
    v <- stack_at (vm_sp st - 1) ;;
    stack_put (vm_sb st + s) v ;;;
    pc_incr
  else panic illegal_stack_var.

(** [func (vm *vm) storeStackLex(s int)] *)
Definition storeStackLex (s : Z) : M unit :=
  st <- get ;;
  let i := if s <? 0 then vm_sb st - s else vm_sb st + vm_args st + s in
  p <- stack_at i ;;
  match p with
  | Some _ =>
      v <- stack_at (vm_sp st - 1) ;;
      stack_put i v ;;;
      pc_incr
  | None => panic errAccessBeforeInit
  end.

(** [func (vm *vm) storeStack1Lex(s int)] *)
Definition storeStack1Lex (s : Z) : M unit :=
  if s <=? 0 then panic illegal_stack_var
  else
    st <- get ;;
    p <- stack_at (vm_sb st + s) ;;
    match p with
    | Some _ =>
        v <- stack_at (vm_sp st - 1) ;;
        stack_put (vm_sb st + s) v ;;;
        pc_incr
    | None => panic errAccessBeforeInit
    end.

(** [func (vm *vm) initStack(s int)] *)
Definition initStack (s : Z) : M unit :=
  st <- get ;;
  v <- stack_at (vm_sp st - 1) ;;
  stack_put (if s <=? 0 then vm_sb st - s else vm_sb st + vm_args st + s) v ;;;
  pc_incr.

(** [func (vm *vm) initStack1(s int)] *)
Definition initStack1 (s : Z) : M unit :=
  if s <=? 0 then panic illegal_stack_var
  else
    st <- get ;;
    v <- stack_at (vm_sp st - 1) ;;
    stack_put (vm_sb st + s) v ;;;
    pc_incr.

(** The [exec] methods of [storeStack], [storeStack1], [storeStackLex],
    [storeStack1Lex] and of their popping forms, and of [initStack] and
    [initStack1]. *)
Definition storeStack_exec (s : Z) : M unit := storeStack s.
Definition storeStack1_exec (s : Z) : M unit := storeStack1 s.
Definition storeStackLex_exec (s : Z) : M unit := storeStackLex s.
Definition storeStack1Lex_exec (s : Z) : M unit := storeStack1Lex s.
Definition initStack_exec (s : Z) : M unit := initStack s ;;; sp_decr.
Definition initStack1_exec (s : Z) : M unit := initStack1 s ;;; sp_decr.
Definition storeStackP_exec (s : Z) : M unit := storeStack s ;;; sp_decr.
Definition storeStack1P_exec (s : Z) : M unit := storeStack1 s ;;; sp_decr.
Definition storeStackLexP_exec (s : Z) : M unit := storeStackLex s ;;; sp_decr.
Definition storeStack1LexP_exec (s : Z) : M unit := storeStack1Lex s ;;; sp_decr.

(** [func (_dup) exec], [func (d dupN) exec], [func (d rdupN) exec],
    [func (_pop) exec] *)
Definition _dup_exec : M unit :=
  sp <- gets vm_sp ;;
  v <- stack_at (sp - 1) ;;
  push v ;;;
  pc_incr.

Definition dupN_exec (d : Z) : M unit :=
  sp <- gets vm_sp ;;
  v <- stack_at (sp - 1 - d) ;;
  push v ;;;
  pc_incr.

Definition rdupN_exec (d : Z) : M unit :=
  sp <- gets vm_sp ;;
  v <- stack_at (sp - 1) ;;
  stack_put (sp - 1 - d) v ;;;
  pc_incr.

Definition _pop_exec : M unit := sp_decr ;;; pc_incr.

(* --------------------------------------------------------------------- *)
(** *** Variadic calls *)

(** [variadicMarker] is a symbol made once when the package is loaded.
    Go compares symbols by identity, which the description kept in
    [valueSymbol] does not give, so the marker is a parameter. *)
Variable variadicMarker : Value.

(** [func (_startVariadic) exec(vm *vm)] *)
Definition _startVariadic_exec : M unit :=
  push (Some variadicMarker) ;;; pc_incr.

Definition marker_not_found : PanicVal :=
  pGo "Variadic marker was not found. Compiler bug.".

(** The loop of [countVariadicArgs]: [n] indices are left to visit, the
    next one being [n - 1]. *)
Fixpoint count_down (st : list Slot) (n : nat) (count : Z) : Result Z :=
  match n with
  | O => Raise marker_not_found
  | S i =>
      match st !! i with
      | None => Raise index_out_of_range
      | Some v =>
          if bool_decide (v = Some variadicMarker) then Done count
          else count_down st i (count + 1)
      end
  end.

(** [func (vm *vm) countVariadicArgs() int] *)
Definition countVariadicArgs : M Z :=
  s <- get ;;
  lift (count_down (vm_stack s) (Z.to_nat (vm_sp s)) 0).

(** [func (_callVariadic) exec(vm *vm)]; the count less two is converted
    to the [uint32] that [call] is. *)
Definition _callVariadic_exec : M unit :=
  c <- countVariadicArgs ;;
  call_exec (uint32 (c - 2)).

(** [func (_endVariadic) exec(vm *vm)] *)
Definition _endVariadic_exec : M unit :=
  sp_decr ;;;
  sp <- gets vm_sp ;;
  v <- stack_at sp ;;
  stack_put (sp - 1) v ;;;
  pc_incr.

(* --------------------------------------------------------------------- *)
(** *** Variables in scope records, by level and index *)

Definition set_outer (o : option stash) (s : stash) : stash :=
  mkStash (values s) (extraArgs s) (names s) (obj s) o (variable s).

(** [for i := 0; i < level; i++ { stash = stash.outer }] *)
Fixpoint outer_at (level : nat) (st : option stash) : Result (option stash) :=
  match level with
  | O => Done st
  | S n =>
      match st with
      | Some s => outer_at n (outer s)
      | None => Raise nil_dereference
      end
  end.

(** A method called on the scope record [level] steps out that changes
    the record.  The chain is a value here: the change is made in the
    chain that [vm.stash] holds. *)
Fixpoint update_at (level : nat) (f : stash -> Result stash) (st : option stash)
  : Result (option stash) :=
  match st with
  | None => Raise nil_dereference
  | Some s =>
      match level with
      | O =>
          match f s with
          | Done s' => Done (Some s')
          | Raise x => Raise x
          end
      | S n =>
          match update_at n f (outer s) with
          | Done o => Done (Some (set_outer o s))
          | Raise x => Raise x
          end
      end
  end.

(** The operand of the stash instructions: the level in the bits from
    24 up, the index in the 24 bits below. *)
Definition stash_level (s : Z) : nat := Z.to_nat (Z.shiftr s 24).
Definition stash_idx (s : Z) : Z := uint32 (Z.land s 16777215).

(** [func (vm *vm) setLocalLex(s int)] *)
Definition setLocalLex (s : Z) : M unit :=
  st <- get ;;
  v <- stack_at (vm_sp st - 1) ;;
  chain <- lift (update_at (stash_level s)
                   (fun sc =>
                      match stashRefLex_set (stash_idx s) v (values sc) with
                      | Done vs => Done (set_values vs sc)
                      | Raise x => Raise x
                      end)
                   (vm_stash st)) ;;
  modify (with_stash chain) ;;;
  pc_incr.

(** [func (vm *vm) initLocal(s int)] *)
Definition initLocal (s : Z) : M unit :=
  st <- get ;;
  v <- stack_at (vm_sp st - 1) ;;
  chain <- lift (update_at (stash_level s) (initByIdx (stash_idx s) v)
                   (vm_stash st)) ;;
  modify (with_stash chain) ;;;
  pc_incr.

(** The [exec] methods of [storeStash], [storeStashP], [storeStashLex],
    [storeStashLexP] and [initStash]. *)
Definition storeStash_exec (s : Z) : M unit := initLocal s.
Definition storeStashP_exec (s : Z) : M unit := initLocal s ;;; sp_decr.
Definition storeStashLex_exec (s : Z) : M unit := setLocalLex s.
Definition storeStashLexP_exec (s : Z) : M unit := setLocalLex s ;;; sp_decr.
Definition initStash_exec (s : Z) : M unit := initLocal s ;;; sp_decr.

Definition stash_at (g : Z) : M stash :=
  st <- get ;;
  sc <- lift (outer_at (stash_level g) (vm_stash st)) ;;
  match sc with
  | Some sc => ret sc
  | None => panic nil_dereference
  end.

(** [func (g loadStash) exec(vm *vm)] *)
Definition loadStash_exec (g : Z) : M unit :=
  sc <- stash_at g ;;
  v <- lift (getByIdx (stash_idx g) sc) ;;
  push (Some (nilSafe v)) ;;;
  pc_incr.

(** [func (g loadStashLex) exec(vm *vm)] *)
Definition loadStashLex_exec (g : Z) : M unit :=
  sc <- stash_at g ;;
  v <- lift (getByIdx (stash_idx g) sc) ;;
  match v with
  | None => panic errAccessBeforeInit
  | Some x => push (Some x) ;;; pc_incr
  end.

(* --------------------------------------------------------------------- *)
(** *** Resolution by name along the scope chain *)

(** The loop [for stash := vm.stash; stash != nil; stash = stash.outer]
    around [getRefByName]. *)
Fixpoint chain_getRefByName (name : string) (strict : bool) (s : stash) : option ref :=
  match getRefByName name strict s with
  | Some r => Some r
  | None =>
      match s with
      | mkStash _ _ _ _ (Some o) _ => chain_getRefByName name strict o
      | mkStash _ _ _ _ None _ => None
      end
  end.

Definition resolve_in_chain (name : string) (strict : bool) (st : option stash)
  : option ref :=
  match st with
  | Some s => chain_getRefByName name strict s
  | None => None
  end.

Definition push_ref (r : ref) : M unit :=
  modify (fun s => with_refStack (vm_refStack s ++ [Some r]) s).

(** [func (s resolveVar1) exec(vm *vm)] *)
Definition resolveVar1_exec (name : string) : M unit :=
  s <- get ;;
  let r :=
    match resolve_in_chain name false (vm_stash s) with
    | Some r => r
    | None => objRef (globalObject (vm_r s)) name false
    end in
  push_ref r ;;;
  pc_incr.

(** [func (s resolveVar1Strict) exec(vm *vm)] *)
Definition resolveVar1Strict_exec (name : string) : M unit :=
  s <- get ;;
  let r :=
    match resolve_in_chain name true (vm_stash s) with
    | Some r => r
    | None =>
        if hasPropertyStr (globalObject (vm_r s)) name then
          objRef (globalObject (vm_r s)) name true
        else unresolvedRef name
    end in
  push_ref r ;;;
  pc_incr.

(** The loop around [getByName] in [loadDynamic]; [Done None] when no
    record of the chain has the name. *)
Fixpoint chain_getByName (name : string) (s : stash) : Result Slot :=
  match getByName name s with
  | Raise x => Raise x
  | Done (v, true) => Done v
  | Done (_, false) =>
      match s with
      | mkStash _ _ _ _ (Some o) _ => chain_getByName name o
      | mkStash _ _ _ _ None _ => Done None
      end
  end.

(** [func (n loadDynamic) exec(vm *vm)] *)
Definition loadDynamic_exec (name : string) : M unit :=
  s <- get ;;
  val <- lift (match vm_stash s with
               | Some st => chain_getByName name st
               | None => Done None
               end) ;;
  val <- match val with
         | Some v => ret (Some v)
         | None =>
             match getStr (globalObject (vm_r s)) name with
             | Some v => ret (Some v)
             | None => panic (throwReferenceError name)
             end
         end ;;
  push val ;;;
  pc_incr.

(* --------------------------------------------------------------------- *)
(** *** Blocks and function frames *)

Definition with_stashAllocs (x : Z) (s : vm) : vm :=
  mkVm (vm_r s) (vm_prg s) (vm_funcName s) (vm_pc s) (vm_stack s) (vm_sp s) (vm_sb s)
       (vm_args s) (vm_stash s) (vm_callStack s) (vm_iterStack s) (vm_refStack s)
       (vm_newTarget s) (vm_result s) (vm_maxCallStackSize s) x
       (vm_halt s).

(** [func (vm *vm) newStash()] *)
Definition newStash : M unit :=
  modify (fun s => with_stash (Some (mkStash [] [] None None (vm_stash s) false)) s) ;;;
  modify (fun s => with_stashAllocs (vm_stashAllocs s + 1) s).

(** An assignment to a field of [vm.stash]. *)
Definition on_stash (f : stash -> stash) : M unit :=
  s <- get ;;
  match vm_stash s with
  | Some st => modify (with_stash (Some (f st)))
  | None => panic nil_dereference
  end.

(** [vm.stack.expand(idx)] on the slice in view. *)
Definition stack_expand (idx : Z) : M unit :=
  modify (fun s => with_stack (grow idx (vm_stack s)) s).

(** [vv := vm.stack[lo:hi]; for i := range vv { vv[i] = v }].  Every
    use follows an [expand] that brings [hi] within the length. *)
Definition fill (lo hi : Z) (v : Slot) : M unit :=
  fun s =>
    let st := vm_stack s in
    if (0 <=? lo) && (lo <=? hi) && (hi <=? Z.of_nat (length st)) then
      Ok tt (with_stack (take (Z.to_nat lo) st
                         ++ replicate (Z.to_nat (hi - lo)) v
                         ++ drop (Z.to_nat hi) st) s) []
    else Panic slice_bounds s [].

(** [func (vm *vm) clearStack()] *)
Definition clearStack : M unit :=
  s <- get ;;
  let sp := vm_sp s in
  if (0 <=? sp) && (sp <=? Z.of_nat (length (vm_stack s))) then
    modify (with_stack (take (Z.to_nat sp) (vm_stack s)))
  else panic slice_bounds.

(** [func (e *enterBlock) exec(vm *vm)]; the [uint32] fields are
    naturals. *)
Definition enterBlock_exec (e_names : gmap string Z) (stashSize stackSize : nat)
  : M unit :=
  (if (0 <? stashSize)%nat then
     newStash ;;;
     on_stash (set_values (replicate stashSize None)) ;;;
     (if (0 <? size e_names)%nat then on_stash (set_names (Some e_names))
      else ret tt)
   else ret tt) ;;;
  sp <- gets vm_sp ;;
  let ss := Z.of_nat stackSize in
  stack_expand (sp + ss - 1) ;;;
  fill sp (sp + ss) None ;;;
  modify (with_sp (sp + ss)) ;;;
  pc_incr.

(** [func (e *enterCatchBlock) exec(vm *vm)] *)
Definition enterCatchBlock_exec (e_names : gmap string Z) (stashSize stackSize : nat)
  : M unit :=
  newStash ;;;
  on_stash (set_values (replicate stashSize None)) ;;;
  (if (0 <? size e_names)%nat then on_stash (set_names (Some e_names))
   else ret tt) ;;;
  sp_decr ;;;
  sp <- gets vm_sp ;;
  v <- stack_at sp ;;
  s <- get ;;
  match vm_stash s with
  | Some st =>
      match store (values st) 0 v with
      | Some vs => modify (with_stash (Some (set_values vs st)))
      | None => panic index_out_of_range
      end
  | None => panic nil_dereference
  end ;;;
  let ss := Z.of_nat stackSize in
  stack_expand (sp + ss - 1) ;;;
  fill sp (sp + ss) None ;;;
  modify (with_sp (sp + ss)) ;;;
  pc_incr.

(** [func (l *leaveBlock) exec(vm *vm)] *)
Definition leaveBlock_exec (stackSize : nat) (popStash : bool) : M unit :=
  (if popStash then
     s <- get ;;
     match vm_stash s with
     | Some st => modify (with_stash (outer st))
     | None => panic nil_dereference
     end
   else ret tt) ;;;
  (if (0 <? stackSize)%nat then
     modify (fun s => with_sp (vm_sp s - Z.of_nat stackSize) s)
   else ret tt) ;;;
  pc_incr.

(** [func (e *enterFuncStashless) exec(vm *vm)] *)
Definition enterFuncStashless_exec (stackSize args : nat) : M unit :=
  s <- get ;;
  let sp := vm_sp s in
  modify (with_sb (sp - vm_args s - 1)) ;;;
  let d := Z.of_nat args - vm_args s in
  (if 0 <? d then
     let ss := sp + Z.of_nat stackSize + d in
     stack_expand ss ;;;
     fill sp (sp + d) (Some _undefined) ;;;
     fill (sp + d) ss None ;;;
     modify (with_args (Z.of_nat args)) ;;;
     modify (with_sp ss)
   else
     if (0 <? stackSize)%nat then
       let ss := sp + Z.of_nat stackSize in
       stack_expand ss ;;;
       fill sp ss None ;;;
       modify (with_sp ss)
     else ret tt) ;;;
  pc_incr.

(** [func (_ret) exec(vm *vm)] *)
Definition _ret_exec : M unit :=
  s <- get ;;
  v <- stack_at (vm_sp s - 1) ;;
  stack_put (vm_sb s - 1) v ;;;
  modify (with_sp (vm_sb s)) ;;;
  popCtx ;;;
  pc <- gets vm_pc ;;
  if pc <? 0 then modify (with_halt true) else ret tt.

(* --------------------------------------------------------------------- *)
(** *** Iteration *)

(** [Runtime.getIterator] and [iteratorRecord.step], which run script
    code: they return or panic, and leave a machine state behind. *)
Variable r_getIterator : Slot -> vm -> Reply IterRef.
Variable iter_step : IterRef -> vm -> Reply (Slot * option Exception).

(** A call to the outside that no statement here counts. *)
Definition unlogged {A : Type} (f : vm -> Reply A) : M A :=
  fun s =>
    match f s with
    | Returns a s1 => Ok a s1 []
    | Panics x s1 => Panic x s1 []
    end.

Definition iter_push (item : iterStackItem) : M unit :=
  modify (fun s => with_iterStack (vm_iterStack s ++ [item]) s).

(** [vm.iterStack[l] = iterStackItem{}; vm.iterStack = vm.iterStack[:l]]
    with [l := len(vm.iterStack) - 1]. *)
Definition iter_drop_top : M unit :=
  s <- get ;;
  match vm_iterStack s with
  | [] => panic index_out_of_range
  | _ => modify (with_iterStack (removelast (vm_iterStack s)))
  end.

(** [func (_iterate) exec(vm *vm)] *)
Definition _iterate_exec : M unit :=
  sp <- gets vm_sp ;;
  v <- stack_at (sp - 1) ;;
  iter <- unlogged (r_getIterator v) ;;
  iter_push (mkIterStackItem None None (Some iter)) ;;;
  pc_incr.

(** [func (_iterateP) exec(vm *vm)] *)
Definition _iterateP_exec : M unit :=
  sp <- gets vm_sp ;;
  v <- stack_at (sp - 1) ;;
  iter <- unlogged (r_getIterator v) ;;
  iter_push (mkIterStackItem None None (Some iter)) ;;;
  sp_decr ;;;
  pc_incr.

(** [func (_enumPop) exec(vm *vm)] *)
Definition _enumPop_exec : M unit := iter_drop_top ;;; pc_incr.

(** [func (_enumGet) exec(vm *vm)] *)
Definition _enumGet_exec : M unit :=
  s <- get ;;
  match last (vm_iterStack s) with
  | Some item => push (item_val item) ;;; pc_incr
  | None => panic index_out_of_range
  end.

(** [func (jmp iterNext) exec(vm *vm)]; a [nil] record on top of the
    iterator stack is dereferenced by [step]. *)
Definition iterNext_exec (jmp : Z) : M unit :=
  s <- get ;;
  let l := Z.of_nat (length (vm_iterStack s)) - 1 in
  match index (vm_iterStack s) l with
  | None => panic index_out_of_range
  | Some item =>
      match item_iter item with
      | None => panic nil_dereference
      | Some iter =>
          r <- unlogged (iter_step iter) ;;
          match r with
          | (value, None) =>
              match value with
              | None => modify (fun s => with_pc (vm_pc s + jmp) s)
              | Some _ =>
                  s1 <- get ;;
                  match index (vm_iterStack s1) l with
                  | Some cur =>
                      modify (with_iterStack
                                (<[Z.to_nat l :=
                                     mkIterStackItem value (item_f cur) (item_iter cur)]>
                                   (vm_iterStack s1))) ;;;
                      pc_incr
                  | None => panic index_out_of_range
                  end
              end
          | (_, Some ex) =>
              iter_drop_top ;;;
              panic (pValue (ex_val ex))
          end
      end
  end.

End MachineMore.

(* ===================================================================== *)
(** ** Declaring [var] bindings *)
(* ===================================================================== *)

Section Declarations.

Context {host : Host} {layout : Layout}.

(** [Runtime.newError] with the [SyntaxError] constructor. *)
Variable newError_SyntaxError : string -> ObjRef.

(** [func (vm *vm) alreadyDeclared(name) Value], as it is thrown. *)
Definition alreadyDeclared (name : string) : PanicVal :=
  pValue (valueObject
            (newError_SyntaxError
               (String.append "Identifier '"
                  (String.append name "' has already been declared")))).

(** The inner loop of [bindVars.exec] for one name, from the scope
    record [s] at [depth] steps out: the depth of the first variable
    scope record, [None] when the chain ends before one. *)
Fixpoint var_target (name : string) (s : stash) (depth : nat) : Result (option nat) :=
  let declared_lexically :=
    match names_lookup s name with
    | Some idx => Z.land idx maskVar =? 0
    | None => false
    end in
  if declared_lexically then Raise (alreadyDeclared name)
  else if variable s then Done (Some depth)
  else
    match s with
    | mkStash _ _ _ _ (Some o) _ => var_target name o (S depth)
    | mkStash _ _ _ _ None _ => Done None
    end.

(** The outer loop: [target] is what the names visited so far left. *)
Fixpoint bind_targets (d_names : list string) (chain : option stash)
    (target : option nat) : Result (option nat) :=
  match d_names with
  | [] => Done target
  | name :: rest =>
      match (match chain with
             | Some s => var_target name s 0
             | None => Done None
             end) with
      | Raise x => Raise x
      | Done (Some depth) => bind_targets rest chain (Some depth)
      | Done None => bind_targets rest chain target
      end
  end.

(** [func (d *bindVars) exec(vm *vm)]; the target is a depth in the
    chain that [vm.stash] holds, depth 0 when no variable scope record
    was found. *)
Definition bindVars_exec (d_names : list string) (deletable : bool) : M unit :=
  s <- get ;;
  target <- lift (bind_targets d_names (vm_stash s) None) ;;
  let depth := default 0%nat target in
  match d_names with
  | [] => ret tt
  | _ =>
      chain <- lift (update_at depth
                       (fun sc =>
                          Done (foldl (fun acc name => createBinding name deletable acc)
                                  sc d_names))
                       (vm_stash s)) ;;
      modify (with_stash chain)
  end ;;;
  pc_incr.

End Declarations.

(* ===================================================================== *)
(** ** A concrete runtime for the examples *)
(* ===================================================================== *)

(** A bit layout with the three kind bits at the top of a [uint32] and
    the strictness bit sharing the deletable bit. *)
Definition top_bits : Layout := {|
  maskConst := 2 ^ 31;
  maskVar := 2 ^ 30;
  maskDeletable := 2 ^ 29;
  maskStrict := 2 ^ 29;
  maskTyp := 2 ^ 31 + 2 ^ 30 + 2 ^ 29
|}.

(** A small runtime around a given dispatch loop and iterator close:
    object 0 is the global object, object 1 the built-in [eval], object
    2 a plain object, object 3 a native function without a constructor;
    error objects are numbered from 97.  An [eval], a native call and a
    constructor return without touching the machine. *)
Definition host_with (loop : vm -> Reply unit) (close : IterRef -> vm -> Reply unit)
  : Host := {|
  host_ToNumber := fun _ => _NaN;
  host_ToFloat := fun _ => S754_nan;
  host_ToInt64 := fun _ => 0;
  host_toString := fun _ => "value";
  ToBoolean := fun _ => true;
  toPrimitiveNumber_obj := fun _ => _NaN;
  self := fun o => match o with 3%nat => nativeFuncObject (Some 0%nat) | _ => baseObject end;
  assertConstructor := fun _ => None;
  hasPropertyStr := fun _ _ => false;
  getStr := fun _ _ => None;
  getSym_unscopables := fun _ => None;
  NewTypeError := fun msg => (100 + String.length msg)%nat;
  newError_ReferenceError := fun _ => 98%nat;
  newError_RangeError := fun _ => 99%nat;
  script_error := fun _ => 97%nat;
  dispatch_loop := loop;
  iter_returnIter := close;
  r_eval := fun _ _ _ _ s => Returns (Some _undefined) s;
  native_f := fun _ _ _ s => Returns (Some _undefined) s;
  ctor_f := fun _ _ s => Returns (Some (valueObject 2%nat)) s;
  proxy_apply := fun _ _ _ s => Returns (Some _undefined) s;
  callStack_beyond := fun _ _ => empty_ctx;
  iterStack_beyond := fun _ _ => empty_item
|}.

(** The dispatch loop halts at once; a close returns at once. *)
Definition small_host : Host :=
  host_with (fun s => Returns tt (with_halt true s)) (fun _ s => Returns tt s).

Definition small_runtime : Runtime := mkRuntime 0%nat 1%nat 0.

(** [MaxInt32], the call stack size [vm.init] configures. *)
Definition MaxInt32 : Z := 2 ^ 31 - 1.

(** A machine as [vm.init] leaves it, with nothing loaded. *)
Definition fresh_vm (r : Runtime) : vm :=
  mkVm r None "" 0 [] 0 (-1) 0 None [] [] [] None None MaxInt32 0 false.

(** A fresh machine whose operand stack holds [st]. *)
Definition vm_with_stack (st : list Slot) : vm :=
  with_sp (Z.of_nat (length st)) (with_stack st (fresh_vm small_runtime)).

(** The value on top of the operand stack of a finished instruction. *)
Definition top_of {A : Type} (o : Outcome A) : option Slot :=
  match o with
  | Ok _ s _ => index (vm_stack s) (vm_sp s - 1)
  | _ => None
  end.

Definition panic_of {A : Type} (o : Outcome A) : option PanicVal :=
  match o with
  | Panic x _ _ => Some x
  | _ => None
  end.

(** The program counters at which the dispatch loop was started, and the
    iterators that were closed, in a trace. *)
Definition run_pcs (tr : list Event) : list Z :=
  omap (fun ev => match ev with EvRun pc => Some pc | _ => None end) tr.


(** The open iterators of a stretch of the iterator stack. *)
Definition open_iters (items : list iterStackItem) : list IterRef :=
  omap item_iter items.

(** The operand pairs [cmp] settles without converting to doubles. *)
Definition same_kind (px py : Value) : bool :=
  match px, py with
  | valueString _, valueString _
  | valueInt _, valueInt _
  | valueInt64 _, valueInt64 _ => true
  | _, _ => false
  end.

(** A machine state after a two-operand instruction that replaced its
    operands at [sp-2] and [sp-1] by [v]. *)
Definition after_binop (v : Value) (s : vm) : vm :=
  with_pc (vm_pc s + 1)
    (with_stack (<[Z.to_nat (vm_sp s - 2) := Some v]> (vm_stack s))
       (with_sp (vm_sp s - 1) s)).

Definition after_relational (v : Value) (s : vm) : vm :=
  with_pc (vm_pc s + 1)
    (with_sp (vm_sp s - 1)
       (with_stack (<[Z.to_nat (vm_sp s - 2) := Some v]> (vm_stack s)) s)).

(** The receiver a direct [eval] runs with: the current frame's, or
    the global object when there is no frame. *)
Definition caller_this (s : vm) : option Slot :=
  if 0 <=? vm_sb s then index (vm_stack s) (vm_sb s)
  else Some (Some (valueObject (globalObject (vm_r s)))).

(** The end of the fast path of [callEval]: the result [r] replaces the
    receiver slot below callee and arguments, which are popped. *)
Definition eval_done (n : Z) (r : Slot) (s : vm) (tr : list Event) : Outcome unit :=
  match store (vm_stack s) (vm_sp s - n - 2) r with
  | Some st =>
      Ok tt (with_pc (vm_pc s + 1) (with_sp (vm_sp s - (n + 1)) (with_stack st s))) tr
  | None => Panic index_out_of_range s tr
  end.

Definition not_a_function_eval {host : Host} : PanicVal :=
  pValue (valueObject (NewTypeError "'eval' is not a function")).

Definition is_object (v : Slot) : bool :=
  match v with Some (valueObject _) => true | _ => false end.

Definition is_native (impl : objectImpl) : bool :=
  match impl with nativeFuncObject _ => true | _ => false end.

(** An outcome during which the dispatch loop was not started. *)
Definition quiet {A : Type} (o : Outcome A) : Prop := run_pcs (trace o) = [].


(** The machine state in which [try.exec] starts the finally block. *)
Definition finally_entry (o finallyOffset : Z) (s : vm) : vm :=
  with_halt false (with_pc (o + finallyOffset) s).

(** A runtime whose dispatch loop raises a type error when started at
    program counter 1 and halts at once anywhere else, and a program
    whose try block is at 1 and whose finally block, at 2, is left by a
    jump. *)
Definition erring_host : Host :=
  host_with
    (fun s => if vm_pc s =? 1 then Panics (pTypeError "x") s
              else Returns tt (with_halt true s))
    (fun _ s => Returns tt s).

Definition try_program : Program :=
  mkProgram [try_ 0 2; otherInstr 0; jump 7; retFinally] [] "".

Definition try_vm : vm := with_prg (Some try_program) (fresh_vm small_runtime).

(** The machine after the type error in the try block of [try_program]
    has been turned into a pending exception. *)
Definition try_vm_raised : vm :=
  Eval vm_compute in
    match try_catch (host := erring_host) 2 0 0 (with_pc 1 try_vm) with
    | Ok _ s _ => s
    | _ => try_vm
    end.




(** The end of [_new.exec] after a constructor or native function has
    returned [r] in state [s1]: [r] replaces the callee at [sp-1], where
    [sp] is the stack pointer below the arguments. *)
Definition new_done (sp : Z) (r : Slot) (s1 : vm) (tr : list Event) : Outcome unit :=
  match store (vm_stack s1) (sp - 1) r with
  | Some st => Ok tt (with_pc (vm_pc s1 + 1) (with_sp sp (with_stack st s1))) tr
  | None => Panic index_out_of_range s1 tr
  end.

(** A bit layout in which the kind bits lie within [maskTyp] and the
    bit of a [var] binding is set in no lexical binding. *)
Definition layout_ok {layout : Layout} : Prop :=
  Z.ldiff maskVar maskTyp = 0
  /\ Z.ldiff maskDeletable maskTyp = 0
  /\ Z.ldiff maskConst maskTyp = 0
  /\ Z.ldiff maskStrict maskTyp = 0
  /\ maskVar <> 0
  /\ Z.land maskConst maskVar = 0
  /\ Z.land maskStrict maskVar = 0.

(** A declarative scope record whose [values] has one slot for each
    name, the number of names fitting in the index bits. *)
Definition one_slot_per_name {layout : Layout} (s : stash) : Prop :=
  obj s = None
  /\ Z.of_nat (length (values s)) = names_len s
  /\ names_len s < 2 ^ 32
  /\ Z.land (names_len s) maskTyp = 0.

(** The operand stack after a block has taken [ss] empty slots at
    [sp]. *)
Definition fresh_slots (sp : Z) (ss : nat) (st : list Slot) : list Slot :=
  let st' := grow (sp + Z.of_nat ss - 1) st in
  take (Z.to_nat sp) st' ++ replicate ss None ++ drop (Z.to_nat sp + ss) st'.

(** The scope record a block with [stashSize] variables starts with. *)
Definition block_stash (e_names : gmap string Z) (stashSize : nat)
    (st : option stash) : option stash :=
  if (0 <? stashSize)%nat then
    Some (mkStash (replicate stashSize None) []
            (if (0 <? size e_names)%nat then Some e_names else None)
            None st false)
  else st.

(** The records of a scope chain, innermost first. *)
Fixpoint scope_chain (s : stash) : list stash :=
  s :: match s with
       | mkStash _ _ _ _ (Some o) _ => scope_chain o
       | mkStash _ _ _ _ None _ => []
       end.

(** A scope record that has a binding for a name: a property its object
    shows, or an entry of its name map. *)
Definition binds {host : Host} (name : string) (s : stash) : bool :=
  match obj s with
  | Some o => stashObjHas o name
  | None => bool_decide (is_Some (names_lookup s name))
  end.

(** A stack whose slots from [lo] up to [hi] have been set to [v]. *)
Definition filled (lo hi : Z) (v : Slot) (st : list Slot) : list Slot :=
  take (Z.to_nat lo) st ++ replicate (Z.to_nat (hi - lo)) v ++ drop (Z.to_nat hi) st.

(** The small runtime with a scripted function as object 5. *)
Definition script_host : Host := {|
  host_ToNumber := host_ToNumber (Host := small_host);
  host_ToFloat := host_ToFloat (Host := small_host);
  host_ToInt64 := host_ToInt64 (Host := small_host);
  host_toString := host_toString (Host := small_host);
  ToBoolean := ToBoolean (Host := small_host);
  toPrimitiveNumber_obj := toPrimitiveNumber_obj (Host := small_host);
  self := fun o =>
    match o with
    | 5%nat => funcObject (mkProgram [] [] "f") None
    | _ => self (Host := small_host) o
    end;
  assertConstructor := assertConstructor (Host := small_host);
  hasPropertyStr := hasPropertyStr (Host := small_host);
  getStr := getStr (Host := small_host);
  getSym_unscopables := getSym_unscopables (Host := small_host);
  NewTypeError := NewTypeError (Host := small_host);
  newError_ReferenceError := newError_ReferenceError (Host := small_host);
  newError_RangeError := newError_RangeError (Host := small_host);
  script_error := script_error (Host := small_host);
  dispatch_loop := dispatch_loop (Host := small_host);
  iter_returnIter := iter_returnIter (Host := small_host);
  r_eval := r_eval (Host := small_host);
  native_f := native_f (Host := small_host);
  ctor_f := ctor_f (Host := small_host);
  proxy_apply := proxy_apply (Host := small_host);
  callStack_beyond := callStack_beyond (Host := small_host);
  iterStack_beyond := iterStack_beyond (Host := small_host)
|}.

(** A scope record in which a name is bound lexically: its index has
    the [var] bit clear. *)
Definition lexically_bound {layout : Layout} (name : string) (s : stash) : bool :=
  match names_lookup s name with
  | Some idx => Z.land idx maskVar =? 0
  | None => false
  end.

(** The exception a panic is for the script, for the panics a script
    can see: a thrown value, an exception an inner try region raised
    again, and the errors the machine raises itself.  An interrupt, an
    uncatchable condition and a foreign Go panic are none. *)
Definition thrown {host : Host} (x : PanicVal) : option Exception :=
  match x with
  | pValue v => Some (mkException v)
  | pException ex => Some ex
  | pTypeError msg => Some (mkException (valueObject (NewTypeError msg)))
  | pReferenceError msg =>
      Some (mkException (valueObject (newError_ReferenceError msg)))
  | pRangeError msg => Some (mkException (valueObject (newError_RangeError msg)))
  | pAccessBeforeInit | pAssignToConst =>
      Some (mkException (valueObject (script_error x)))
  | pInterrupted | pUncatchable | pGo _ => None
  end.

(** A close that leaves the stack pointer and the references of its
    caller alone: when it returns, the stack pointer is as before and
    the reference stack no shorter; when it throws, it throws something
    a script can see and leaves no iterator or reference of its own
    behind. *)
Definition tidy_close {host : Host} (it : IterRef) (s : vm) : Prop :=
  match iter_returnIter it s with
  | Returns _ s' =>
      vm_sp s' = vm_sp s
      /\ (length (vm_refStack s) <= length (vm_refStack s'))%nat
  | Panics y s' =>
      is_Some (thrown y)
      /\ length (vm_iterStack s') = length (vm_iterStack s)
      /\ (length (vm_refStack s) <= length (vm_refStack s'))%nat
  end.

(** The state [s1] in which a function entered in [s0] panicked can be
    unwound: the iterator and reference stacks are no shorter than on
    entry, and the iterators left open close tidily. *)
Definition unwinds {host : Host} (s0 s1 : vm) : Prop :=
  (length (vm_iterStack s0) <= length (vm_iterStack s1))%nat
  /\ (length (vm_refStack s0) <= length (vm_refStack s1))%nat
  /\ forall it,
       it ∈ open_iters (drop (length (vm_iterStack s0)) (vm_iterStack s1)) ->
       forall s, tidy_close it s.

(** The state in which [vm.try], entered in [s0], starts to close the
    iterators that a panic in state [s1] left open: the frame and the
    stack pointer of the entry. *)
Definition unwound {host : Host} (s0 s1 : vm) : vm :=
  with_sp (vm_sp s0)
    (restoreCtx (saveCtx s0)
       (with_callStack (callStack_upto (length (vm_callStack s0)) s1) s1)).




(* ===================================================================== *)
(** * Properties *)
(* ===================================================================== *)

Section ScopeProperties.

Context {host : Host} {layout : Layout}.

Lemma make_names_present (s : stash) (name : string) (idx : Z) :
  names_lookup s name = Some idx -> make_names s = s.
Proof.
  unfold names_lookup, make_names.
  destruct (names s) as [m|]; [reflexivity | discriminate].
Qed.

Lemma names_lookup_create (s : stash) (name : string) (deletable : bool) :
  is_Some (names_lookup (createBinding name deletable s) name).
Proof.
  unfold createBinding.
  destruct (names_lookup (make_names s) name) as [idx|] eqn:E.
  - rewrite E. eauto.
  - destruct s as [v e [m|] o ou va]; cbn in *;
      rewrite lookup_insert_eq; eauto.
Qed.

Lemma names_lookup_createLex (s : stash) (name : string) (isConst : bool) :
  is_Some (names_lookup (createLexBinding name isConst s) name).
Proof.
  unfold createLexBinding.
  destruct (names_lookup (make_names s) name) as [idx|] eqn:E.
  - rewrite E. eauto.
  - destruct s as [v e [m|] o ou va]; cbn in *;
      rewrite lookup_insert_eq; eauto.
Qed.

Lemma createBinding_present (s : stash) (name : string) (deletable : bool) :
  is_Some (names_lookup s name) -> createBinding name deletable s = s.
Proof.
  intros [idx Hidx]. unfold createBinding.
  rewrite (make_names_present s name idx Hidx), Hidx. reflexivity.
Qed.

Lemma createLexBinding_present (s : stash) (name : string) (isConst : bool) :
  is_Some (names_lookup s name) -> createLexBinding name isConst s = s.
Proof.
  intros [idx Hidx]. unfold createLexBinding.
  rewrite (make_names_present s name idx Hidx), Hidx. reflexivity.
Qed.

(** C10.  [createBinding] and [createLexBinding] do nothing for a name
    that the scope record's name map already holds: the record is
    returned as it was, so no slot is appended to [values] and the
    name's index, with its kind bits, and its value stay.  In particular
    a second creation of a name, by either operation, changes nothing. *)
Theorem create_binding_idempotent
    (s : stash) (name : string) (deletable isConst : bool)
    (Hpresent : is_Some (names_lookup s name)) :
  createBinding name deletable s = s
  /\ createLexBinding name isConst s = s
  /\ (forall d c s0,
        createBinding name d (createBinding name deletable s0)
          = createBinding name deletable s0
        /\ createLexBinding name c (createBinding name deletable s0)
          = createBinding name deletable s0
        /\ createBinding name d (createLexBinding name isConst s0)
          = createLexBinding name isConst s0
        /\ createLexBinding name c (createLexBinding name isConst s0)
          = createLexBinding name isConst s0).
Proof.
  split; [by apply createBinding_present|].
  split; [by apply createLexBinding_present|].
  intros d c s0.
  pose proof (names_lookup_create s0 name deletable) as Hv.
  pose proof (names_lookup_createLex s0 name isConst) as Hl.
  repeat split;
    (apply createBinding_present || apply createLexBinding_present); assumption.
Qed.

End ScopeProperties.

Lemma create_binding_idempotent_witness :
  let s := createBinding (layout := top_bits) "x" false empty_stash in
  is_Some (names_lookup s "x")
  /\ createBinding (layout := top_bits) "x" true s = s
  /\ createLexBinding (layout := top_bits) "x" true s = s.
Proof.
  cbv zeta.
  assert (Hp : is_Some (names_lookup
            (createBinding (layout := top_bits) "x" false empty_stash) "x"))
    by (vm_compute; eauto).
  split; [exact Hp|].
  pose proof (create_binding_idempotent (layout := top_bits) _ "x" true true Hp)
    as (Hv & Hl & _).
  split; [exact Hv | exact Hl].
Defined.

Section FrameProperties.

Context {host : Host} {layout : Layout}.

Lemma pushCtx_refused (s : vm) :
  vm_maxCallStackSize s <> 0 ->
  vm_maxCallStackSize s <= Z.of_nat (length (vm_callStack s)) + 1 ->
  pushCtx s = Panic call_stack_exceeded s [].
Proof.
  intros Hmax Hle. unfold pushCtx, bind, get.
  destruct (Z.eqb_spec (vm_maxCallStackSize s) 0) as [|_]; [contradiction|].
  destruct (Z.leb_spec (vm_maxCallStackSize s)
              (Z.of_nat (length (vm_callStack s)) + 1)) as [_|]; [|lia].
  reflexivity.
Qed.

Lemma pushCtx_accepted (s : vm) :
  vm_maxCallStackSize s = 0
  \/ Z.of_nat (length (vm_callStack s)) + 1 < vm_maxCallStackSize s ->
  exists s', pushCtx s = Ok tt s' []
    /\ vm_callStack s' = vm_callStack s ++ [saveCtx s].
Proof.
  intros Hok. unfold pushCtx, bind, get, modify.
  assert (negb (vm_maxCallStackSize s =? 0)
          && (vm_maxCallStackSize s <=? Z.of_nat (length (vm_callStack s)) + 1)
          = false) as ->.
  { destruct Hok as [-> | Hlt]; [reflexivity|].
    apply andb_false_iff. right. apply Z.leb_gt. exact Hlt. }
  eexists. split; [reflexivity|]. cbn.
  rewrite length_app, Nat.add_sub. cbn.
  change (saveCtx (with_callStack (vm_callStack s ++ [empty_ctx]) s))
    with (saveCtx s).
  rewrite (insert_app_r_alt _ _ (length (vm_callStack s))) by lia.
  rewrite Nat.sub_diag. reflexivity.
Qed.

(** C2.  On a machine with a configured (non-zero) maximum call stack
    size, [pushCtx] panics with the range error "Maximum call stack size
    exceeded" when the call stack holds as many frames as the maximum
    and, more precisely, exactly when one more than the number of saved
    frames reaches the maximum.  The outcome is a function of the
    machine state alone, and the panic leaves the machine, the frame
    array included, as it was; a save that is not refused appends
    exactly one frame. *)
Theorem pushCtx_limit (s : vm) (Hmax : vm_maxCallStackSize s <> 0) :
  (Z.of_nat (length (vm_callStack s)) = vm_maxCallStackSize s ->
     pushCtx s = Panic call_stack_exceeded s [])
  /\ (vm_maxCallStackSize s <= Z.of_nat (length (vm_callStack s)) + 1 <->
        pushCtx s = Panic call_stack_exceeded s [])
  /\ (forall x s' tr, pushCtx s = Panic x s' tr ->
        x = call_stack_exceeded /\ s' = s /\ vm_callStack s' = vm_callStack s)
  /\ (forall s' tr, pushCtx s = Ok tt s' tr ->
        vm_callStack s' = vm_callStack s ++ [saveCtx s]).
Proof.
  destruct (Z.le_gt_cases (vm_maxCallStackSize s)
              (Z.of_nat (length (vm_callStack s)) + 1)) as [Hle | Hgt].
  - pose proof (pushCtx_refused s Hmax Hle) as E.
    repeat split; try (intros; exact E || lia).
    + intros. congruence.
    + congruence.
    + congruence.
    + intros s' tr E'. congruence.
  - destruct (pushCtx_accepted s) as (s1 & E & Hcs); [right; lia|].
    repeat split.
    + intros. lia.
    + intros. lia.
    + intros E'. congruence.
    + congruence.
    + congruence.
    + congruence.
    + intros s' tr E'. congruence.
Qed.

End FrameProperties.

Lemma pushCtx_limit_witness :
  let s := mkVm small_runtime None "" 0 [] 0 (-1) 0 None [empty_ctx; empty_ctx]
                [] [] None None 2 0 false in
  vm_maxCallStackSize s <> 0
  /\ Z.of_nat (length (vm_callStack s)) = vm_maxCallStackSize s
  /\ pushCtx s = Panic call_stack_exceeded s [].
Proof.
  intros s.
  assert (Hmax : vm_maxCallStackSize s <> 0) by (cbn; discriminate).
  split; [exact Hmax|]. split; [reflexivity|].
  apply (proj1 (pushCtx_limit s Hmax)). reflexivity.
Defined.

Section LexicalAccess.

Context {host : Host} {layout : Layout}.

Variables (s : stash) (name : string) (idx : Z).
Hypothesis Hslots : obj s = None.
Hypothesis Hname : names_lookup s name = Some idx.
Hypothesis Hlex : Z.land idx maskVar = 0.
Hypothesis Huninit : index (values s) (and_not idx maskTyp) = Some None.

Lemma getByName_uninitialized : getByName name s = Raise errAccessBeforeInit.
Proof.
  unfold getByName. rewrite Hslots, Hname, Huninit, Hlex. reflexivity.
Qed.

Lemma getRefByName_let (strict : bool) :
  Z.land idx maskConst = 0 ->
  getRefByName name strict s = Some (stashRefLex name (and_not idx maskTyp)).
Proof.
  intros Hc. unfold getRefByName. rewrite Hslots, Hname, Hlex, Hc. reflexivity.
Qed.

Lemma getRefByName_const (strict : bool) :
  Z.land idx maskConst <> 0 ->
  getRefByName name strict s
  = Some (stashRefConst name (and_not idx maskTyp)
            (strict || negb (Z.land idx maskStrict =? 0))).
Proof.
  intros Hc. unfold getRefByName. rewrite Hslots, Hname, Hlex.
  destruct (Z.eqb_spec (Z.land idx maskConst) 0); [contradiction|reflexivity].
Qed.

Lemma stashRefLex_get_uninitialized :
  stashRefLex_get (and_not idx maskTyp) (values s) = Raise errAccessBeforeInit.
Proof. unfold stashRefLex_get. rewrite Huninit. reflexivity. Qed.

Lemma stashRefLex_set_uninitialized (x : Slot) :
  stashRefLex_set (and_not idx maskTyp) x (values s) = Raise errAccessBeforeInit.
Proof. unfold stashRefLex_set. rewrite Huninit. reflexivity. Qed.

End LexicalAccess.

(** C5, as the code has it.  Take a slot-backed scope record in which
    [name] is bound to a let/const index (its var bit is clear) whose
    slot still holds [nil].  Reading the name with [getByName] panics
    with the access-before-initialization error, and so does [get]
    through the reference [getRefByName] resolves; the read yields no
    value at all, so not undefined, and the panic is not the not-defined
    error of an unresolved reference.  Writing depends on the kind: the
    reference to a let binding panics with access-before-initialization
    on [set] and [init]; the reference to a const binding never does:
    its [set] and [init] panic with the assignment-to-constant error
    when the reference is strict and do nothing otherwise. *)
Theorem uninitialized_lexical_access
    {host : Host} {layout : Layout}
    (s : stash) (name : string) (idx : Z) (strict : bool) (x : Slot)
    (Hslots : obj s = None)
    (Hname : names_lookup s name = Some idx)
    (Hlex : Z.land idx maskVar = 0)
    (Huninit : index (values s) (and_not idx maskTyp) = Some None) :
  getByName name s = Raise errAccessBeforeInit
  /\ (forall r, getByName name s <> Done r)
  /\ errAccessBeforeInit <> throwReferenceError name
  /\ exists r,
      getRefByName name strict s = Some r
      /\ ref_get r (values s) = Some (Raise errAccessBeforeInit)
      /\ (Z.land idx maskConst = 0 ->
            r = stashRefLex name (and_not idx maskTyp)
            /\ ref_set r x (values s) = Some (Raise errAccessBeforeInit)
            /\ ref_init r x (values s) = Some (Raise errAccessBeforeInit))
      /\ (Z.land idx maskConst <> 0 ->
            let strictConst := strict || negb (Z.land idx maskStrict =? 0) in
            r = stashRefConst name (and_not idx maskTyp) strictConst
            /\ ref_set r x (values s)
               = Some (if strictConst then Raise errAssignToConst else Done (values s))
            /\ ref_init r x (values s) = ref_set r x (values s)
            /\ ref_set r x (values s) <> Some (Raise errAccessBeforeInit)).
Proof.
  pose proof (getByName_uninitialized s name idx Hslots Hname Hlex Huninit) as Hget.
  split; [exact Hget|]. split; [intros r; rewrite Hget; discriminate|].
  split; [unfold errAccessBeforeInit, throwReferenceError; discriminate|].
  destruct (Z.eq_dec (Z.land idx maskConst) 0) as [Hc | Hc].
  - exists (stashRefLex name (and_not idx maskTyp)).
    split; [by apply getRefByName_let|].
    split; [cbn; by rewrite stashRefLex_get_uninitialized|].
    split; [|intros; contradiction].
    intros _. split; [reflexivity|].
    cbn. unfold stashRefLex_init.
    by rewrite stashRefLex_set_uninitialized.
  - exists (stashRefConst name (and_not idx maskTyp)
              (strict || negb (Z.land idx maskStrict =? 0))).
    split; [by apply getRefByName_const|].
    split; [cbn; by rewrite stashRefLex_get_uninitialized|].
    split; [intros; contradiction|].
    intros _. cbn. split; [reflexivity|].
    unfold stashRefConst_init, stashRefConst_set.
    repeat split.
    destruct (strict || negb (Z.land idx maskStrict =? 0)); discriminate.
Qed.

Lemma uninitialized_lexical_access_witness :
  let s := createLexBinding (layout := top_bits) "x" false empty_stash in
  getByName (host := small_host) (layout := top_bits) "x" s
  = Raise errAccessBeforeInit.
Proof.
  cbv zeta.
  refine (proj1 (uninitialized_lexical_access (host := small_host)
                   (layout := top_bits) _ "x" 0 false None _ _ _ _));
    vm_compute; reflexivity.
Defined.

(** C5 as stated fails for a const binding: in the scope record that
    [createLexBinding("x", true)] builds, "x" is a resolved const binding
    whose slot holds [nil], and writing through its reference panics
    with the assignment-to-constant error, not with
    access-before-initialization. *)
Lemma uninitialized_const_write_counterexample :
  let s := createLexBinding (layout := top_bits) "x" true empty_stash in
  exists idx r,
    obj s = None
    /\ names_lookup s "x" = Some idx
    /\ Z.land idx (maskVar (Layout := top_bits)) = 0
    /\ index (values s) (and_not idx (maskTyp (Layout := top_bits))) = Some None
    /\ getRefByName (host := small_host) (layout := top_bits) "x" false s = Some r
    /\ ref_set r (Some (valueInt 1)) (values s) = Some (Raise errAssignToConst)
    /\ ref_set r (Some (valueInt 1)) (values s) <> Some (Raise errAccessBeforeInit).
Proof.
  cbv zeta.
  exists (Z.lor 0 (Z.lor (2 ^ 31) (2 ^ 29))), (stashRefConst "x" 0 true).
  repeat split; try (vm_compute; reflexivity).
  vm_compute. discriminate.
Qed.

Section NumericProperties.

Context {host : Host} {layout : Layout}.

Lemma floatToValue_valueFloat (f : float64) : floatToValue f = valueFloat f.
Proof. destruct f as [[|]|[|]| |[|] m e]; reflexivity. Qed.

Lemma store_index {A : Type} (l : list A) (i : Z) (a b : A) :
  index l i = Some a -> store l i b = Some (<[Z.to_nat i := b]> l).
Proof. unfold store. intros ->. reflexivity. Qed.

Lemma _div_exec_operands (s : vm) (a b : Value) :
  index (vm_stack s) (vm_sp s - 2) = Some (Some a) ->
  index (vm_stack s) (vm_sp s - 1) = Some (Some b) ->
  _div_exec s = Ok tt (after_binop (div_result (ToFloat a) (ToFloat b)) s) [].
Proof.
  intros Ha Hb.
  unfold _div_exec, bind, gets, stack_at, non_nil, ret, modify, stack_put, pc_incr.
  rewrite Ha, Hb. cbn.
  rewrite (store_index _ _ _ _ Ha). reflexivity.
Qed.

Lemma div_result_ieee (left right : float64) :
  div_result left right = valueFloat (f64_quo left right).
Proof.
  unfold div_result, f64_quo.
  destruct left as [[|]|[|]| |[|] ml el], right as [[|]|[|]| |[|] mr er];
    try reflexivity; cbn [IsNaN IsInf f64_is_zero Signbit orb andb Bool.eqb];
    cbn [Z.ltb Z.compare]; apply floatToValue_valueFloat.
Qed.

(** C3.  The result of the divide instruction is decided by the table of
    special cases: it is NaN when an operand is NaN, when both operands
    are infinite and when both are zero; otherwise an infinite dividend
    gives an infinity, an infinite divisor a zero and a zero divisor an
    infinity, each with the sign of the quotient (negative exactly when
    the operand signs differ); only then are the operands divided.  In
    every case the result is the IEEE-754 quotient.  On the operand
    stack, 1/0 leaves +Infinity, -1/0 leaves -Infinity, 0/0 leaves NaN
    and -0/1 leaves negative zero. *)
Theorem div_special_cases (left right : float64) :
  div_result left right = valueFloat (f64_quo left right)
  /\ (IsNaN left || IsNaN right
      || IsInf left 0 && IsInf right 0
      || f64_is_zero left && f64_is_zero right = true ->
      div_result left right = _NaN)
  /\ (IsNaN right = false -> IsInf left 0 = true -> IsInf right 0 = false ->
      div_result left right
      = valueFloat (S754_infinity (xorb (Signbit left) (Signbit right))))
  /\ (IsNaN left = false -> IsInf left 0 = false -> IsInf right 0 = true ->
      div_result left right
      = valueFloat (S754_zero (xorb (Signbit left) (Signbit right))))
  /\ (IsNaN left = false -> IsInf left 0 = false -> f64_is_zero left = false ->
      f64_is_zero right = true ->
      div_result left right
      = valueFloat (S754_infinity (xorb (Signbit left) (Signbit right))))
  /\ (IsNaN left || IsNaN right || IsInf left 0 || IsInf right 0
      || f64_is_zero right = false ->
      div_result left right = floatToValue (f64_quo left right))
  /\ top_of (_div_exec (vm_with_stack [Some (valueInt 1); Some (valueInt 0)]))
     = Some (Some _positiveInf)
  /\ top_of (_div_exec (vm_with_stack [Some (valueInt (-1)); Some (valueInt 0)]))
     = Some (Some _negativeInf)
  /\ top_of (_div_exec (vm_with_stack [Some (valueInt 0); Some (valueInt 0)]))
     = Some (Some _NaN)
  /\ top_of (_div_exec (vm_with_stack [Some _negativeZero; Some (valueInt 1)]))
     = Some (Some _negativeZero).
Proof.
  split; [apply div_result_ieee|].
  repeat apply conj.
  - destruct left as [[|]|[|]| |[|] ml el], right as [[|]|[|]| |[|] mr er];
      cbn; intros; (reflexivity || discriminate).
  - destruct left as [[|]|[|]| |[|] ml el], right as [[|]|[|]| |[|] mr er];
      cbn; intros; (reflexivity || discriminate).
  - destruct left as [[|]|[|]| |[|] ml el], right as [[|]|[|]| |[|] mr er];
      cbn; intros; (reflexivity || discriminate).
  - destruct left as [[|]|[|]| |[|] ml el], right as [[|]|[|]| |[|] mr er];
      cbn; intros; (reflexivity || discriminate).
  - destruct left as [[|]|[|]| |[|] ml el], right as [[|]|[|]| |[|] mr er];
      cbn; intros; (reflexivity || discriminate).
  - rewrite (_div_exec_operands _ (valueInt 1) (valueInt 0)); reflexivity.
  - rewrite (_div_exec_operands _ (valueInt (-1)) (valueInt 0)); reflexivity.
  - rewrite (_div_exec_operands _ (valueInt 0) (valueInt 0)); reflexivity.
  - rewrite (_div_exec_operands _ _negativeZero (valueInt 1)); reflexivity.
Qed.

End NumericProperties.

Section RelationalProperties.

Context {host : Host} {layout : Layout}.

Lemma relational_operands (op : Value -> Value -> Value) (s : vm) (a b : Value) :
  index (vm_stack s) (vm_sp s - 2) = Some (Some a) ->
  index (vm_stack s) (vm_sp s - 1) = Some (Some b) ->
  relational op s
  = Ok tt (after_relational (op (toPrimitiveNumber a) (toPrimitiveNumber b)) s) [].
Proof.
  intros Ha Hb.
  unfold relational, bind, gets, stack_at, non_nil, ret, modify, stack_put, pc_incr.
  rewrite Ha, Hb. cbn.
  rewrite (store_index _ _ _ _ Ha). reflexivity.
Qed.

Lemma cmp_float_path (px py : Value) :
  same_kind px py = false ->
  cmp px py
  = if IsNaN (ToFloat px) || IsNaN (ToFloat py) then _undefined
    else bool_value (f64_ltb (ToFloat px) (ToFloat py)).
Proof. destruct px, py; cbn; intros; (reflexivity || discriminate). Qed.

Lemma cmp_nan_operand (px py : Value) :
  px = _NaN \/ py = _NaN -> cmp px py = _undefined.
Proof.
  intros [-> | ->].
  - reflexivity.
  - destruct px; cbn; try reflexivity;
      match goal with |- context [IsNaN ?f] => destruct (IsNaN f) end; reflexivity.
Qed.

Lemma bool_value_defined (b : bool) : bool_value b <> _undefined.
Proof. destruct b; discriminate. Qed.

Lemma cmp_range (px py : Value) :
  cmp px py = _undefined \/ exists b, cmp px py = bool_value b.
Proof.
  destruct (same_kind px py) eqn:E.
  - right. destruct px, py; try discriminate; cbn; eauto.
  - rewrite (cmp_float_path _ _ E).
    destruct (IsNaN (ToFloat px) || IsNaN (ToFloat py)); eauto.
Qed.

Lemma shr_1_nonneg (mrs : shr_record) : 0 <= shr_m mrs -> 0 <= shr_m (shr_1 mrs).
Proof.
  destruct mrs as [[|[m|m|]|[m|m|]] r st]; cbn; lia.
Qed.

Lemma iter_pos_shr_1_nonneg (p : positive) :
  forall mrs, 0 <= shr_m mrs -> 0 <= shr_m (SpecFloat.iter_pos shr_1 p mrs).
Proof.
  induction p as [p IH|p IH|]; intros mrs H; cbn [SpecFloat.iter_pos].
  - apply IH, IH, shr_1_nonneg, H.
  - apply IH, IH, H.
  - apply shr_1_nonneg, H.
Qed.

Lemma shr_fexp_nonneg (m e : Z) (l : location) :
  0 <= m -> 0 <= shr_m (fst (shr_fexp prec64 emax64 m e l)).
Proof.
  intros Hm. unfold shr_fexp, shr.
  assert (H0 : 0 <= shr_m (shr_record_of_loc m l))
    by (destruct l as [|[]]; exact Hm).
  destruct (_ - e); cbn [fst]; try exact H0.
  apply iter_pos_shr_1_nonneg, H0.
Qed.

Lemma round_nearest_even_nonneg (m : Z) (l : location) :
  0 <= m -> 0 <= round_nearest_even m l.
Proof.
  intros Hm. destruct l as [|[]]; cbn; try lia.
  destruct (Z.even m); lia.
Qed.

Lemma binary_round_aux_not_nan (sx : bool) (mx ex : Z) (lx : location) :
  0 <= mx -> IsNaN (binary_round_aux prec64 emax64 sx mx ex lx) = false.
Proof.
  intros Hm. unfold binary_round_aux.
  pose proof (shr_fexp_nonneg mx ex lx Hm) as H1.
  destruct (shr_fexp prec64 emax64 mx ex lx) as [mrs' e']. cbn [fst] in H1.
  pose proof (shr_fexp_nonneg _ e' loc_Exact
                (round_nearest_even_nonneg _ (loc_of_shr_record mrs') H1)) as H2.
  destruct (shr_fexp prec64 emax64 _ e' loc_Exact) as [mrs'' e'']. cbn [fst] in H2.
  destruct (shr_m mrs'') as [|m|m]; [reflexivity | | lia].
  destruct (e'' <=? emax64 - prec64); reflexivity.
Qed.

(** The double of an integer is a number. *)
Lemma f64_of_int_not_nan (i : Z) : IsNaN (f64_of_int i) = false.
Proof.
  unfold f64_of_int, binary_normalize, binary_round.
  destruct i as [|m|m]; [reflexivity| |];
    destruct (shl_align _ _ _) as [mz ez];
    apply binary_round_aux_not_nan; lia.
Qed.

(** C6.  The two relational instructions replace their operands, made
    primitive, by the answer of a comparison.  Two strings are ordered
    lexicographically and two integers of the same width directly.
    Every other pair is converted to doubles and ordered as doubles: so
    are an [int] and an [int64], which therefore compare through their
    nearest doubles and not directly.  A pair of which one double is NaN
    is incomparable ([_undefined] from [cmp]); less-than and
    less-than-or-equal consume that answer each with its own polarity,
    and both leave false.  On comparable operands [x <= y] is the
    negation of [y < x]. *)
Theorem relational_semantics :
  (forall xs ys,
      cmp (valueString xs) (valueString ys)
      = bool_value (bool_decide (String.compare xs ys = Lt)))
  /\ (forall xi yi, cmp (valueInt xi) (valueInt yi) = bool_value (xi <? yi))
  /\ (forall xi yi, cmp (valueInt64 xi) (valueInt64 yi) = bool_value (xi <? yi))
  /\ (forall xi yi,
        cmp (valueInt xi) (valueInt64 yi)
        = bool_value (f64_ltb (f64_of_int xi) (f64_of_int yi))
        /\ cmp (valueInt64 xi) (valueInt yi)
           = bool_value (f64_ltb (f64_of_int xi) (f64_of_int yi)))
  /\ (forall x y,
        same_kind x y = false ->
        cmp x y = if IsNaN (ToFloat x) || IsNaN (ToFloat y) then _undefined
                  else bool_value (f64_ltb (ToFloat x) (ToFloat y)))
  /\ (forall x y b, cmp y x = bool_value b ->
        lt_result y x = bool_value b /\ lte_result x y = bool_value (negb b))
  /\ (forall x y, cmp y x = _undefined ->
        lt_result y x = valueFalse /\ lte_result x y = valueFalse)
  /\ (forall x y, x = _NaN \/ y = _NaN ->
        lt_result x y = valueFalse /\ lte_result x y = valueFalse)
  /\ (forall s a b,
        index (vm_stack s) (vm_sp s - 2) = Some (Some a) ->
        index (vm_stack s) (vm_sp s - 1) = Some (Some b) ->
        let x := toPrimitiveNumber a in
        let y := toPrimitiveNumber b in
        (forall xs ys,
            x = valueString xs -> y = valueString ys ->
            _op_lt_exec s
            = Ok tt (after_relational
                       (bool_value (bool_decide (String.compare xs ys = Lt))) s) []
            /\ _op_lte_exec s
               = Ok tt (after_relational
                          (bool_value (negb (bool_decide (String.compare ys xs = Lt))))
                          s) [])
        /\ (forall xi yi,
              x = valueInt xi /\ y = valueInt yi
              \/ x = valueInt64 xi /\ y = valueInt64 yi ->
              _op_lt_exec s = Ok tt (after_relational (bool_value (xi <? yi)) s) []
              /\ _op_lte_exec s = Ok tt (after_relational (bool_value (xi <=? yi)) s) [])
        /\ (same_kind x y = false ->
              IsNaN (ToFloat x) || IsNaN (ToFloat y) = false ->
              _op_lt_exec s
              = Ok tt (after_relational
                         (bool_value (f64_ltb (ToFloat x) (ToFloat y))) s) []
              /\ _op_lte_exec s
                 = Ok tt (after_relational
                            (bool_value (negb (f64_ltb (ToFloat y) (ToFloat x)))) s) [])
        /\ (same_kind x y = false ->
              IsNaN (ToFloat x) || IsNaN (ToFloat y) = true ->
              _op_lt_exec s = Ok tt (after_relational valueFalse s) []
              /\ _op_lte_exec s = Ok tt (after_relational valueFalse s) [])
        /\ (a = _NaN \/ b = _NaN ->
              _op_lt_exec s = Ok tt (after_relational valueFalse s) []
              /\ _op_lte_exec s = Ok tt (after_relational valueFalse s) [])).
Proof.
  assert (Hnan : forall p q, p = _NaN \/ q = _NaN ->
            lt_result p q = valueFalse /\ lte_result p q = valueFalse).
  { intros p q Hpq. unfold lt_result, lte_result.
    rewrite (cmp_nan_operand p q Hpq).
    rewrite (cmp_nan_operand q p) by tauto. split; reflexivity. }
  assert (Hsym : forall p q, same_kind p q = false -> same_kind q p = false)
    by (intros p q; destruct p, q; cbn; intros; (reflexivity || discriminate)).
  repeat apply conj.
  - intros xs ys. cbn. unfold compareTo.
    destruct (String.compare xs ys); reflexivity.
  - reflexivity.
  - reflexivity.
  - intros xi yi. cbn [cmp ToFloat].
    rewrite !f64_of_int_not_nan. split; reflexivity.
  - intros x y. apply cmp_float_path.
  - intros x y b Hb. unfold lt_result, lte_result. rewrite Hb.
    destruct b; split; reflexivity.
  - intros x y Hu. unfold lt_result, lte_result. rewrite Hu. split; reflexivity.
  - intros x y. apply Hnan.
  - intros s a b Ha Hb x y.
    unfold _op_lt_exec, _op_lte_exec.
    rewrite !(relational_operands _ s a b Ha Hb). fold x y.
    split; [|split; [|split; [|split]]].
    + intros xs ys -> ->. unfold lt_result, lte_result. cbn [cmp]. unfold compareTo.
      destruct (String.compare xs ys), (String.compare ys xs); split; reflexivity.
    + intros xi yi [[-> ->] | [-> ->]]; unfold lt_result, lte_result; cbn [cmp];
        rewrite (Z.leb_antisym yi xi);
        destruct (xi <? yi), (yi <? xi); split; reflexivity.
    + intros Hk Hn. unfold lt_result, lte_result.
      rewrite (cmp_float_path _ _ Hk), (cmp_float_path _ _ (Hsym _ _ Hk)).
      rewrite (orb_comm (IsNaN (ToFloat y))), Hn.
      destruct (f64_ltb (ToFloat x) (ToFloat y)), (f64_ltb (ToFloat y) (ToFloat x));
        split; reflexivity.
    + intros Hk Hn. unfold lt_result, lte_result.
      rewrite (cmp_float_path _ _ Hk), (cmp_float_path _ _ (Hsym _ _ Hk)).
      rewrite (orb_comm (IsNaN (ToFloat y))), Hn. split; reflexivity.
    + intros Hab.
      assert (Hab' : x = _NaN \/ y = _NaN)
        by (destruct Hab as [-> | ->]; [left|right]; reflexivity).
      destruct (Hnan _ _ Hab') as [-> ->]. split; reflexivity.
Qed.

End RelationalProperties.

Lemma relational_semantics_witness :
  lt_result (host := small_host) _NaN (valueInt 1) = valueFalse
  /\ lte_result (host := small_host) _NaN (valueInt 1) = valueFalse
  /\ _op_lt_exec (host := small_host)
       (vm_with_stack [Some (valueInt 1); Some (valueInt 2)])
     = Ok tt (after_relational valueTrue
                (vm_with_stack [Some (valueInt 1); Some (valueInt 2)])) []
  /\ _op_lte_exec (host := small_host)
       (vm_with_stack [Some (valueString "b"); Some (valueString "a")])
     = Ok tt (after_relational valueFalse
                (vm_with_stack [Some (valueString "b"); Some (valueString "a")])) []
  /\ _op_lt_exec (host := small_host)
       (vm_with_stack [Some (valueInt 1); Some _NaN])
     = Ok tt (after_relational valueFalse
                (vm_with_stack [Some (valueInt 1); Some _NaN])) [].
Proof.
  pose proof (relational_semantics (host := small_host))
    as (_ & _ & _ & _ & _ & _ & _ & Hnan & Hexec).
  destruct (Hnan _NaN (valueInt 1) (or_introl eq_refl)) as (Hlt & Hlte).
  split; [exact Hlt|]. split; [exact Hlte|].
  split; [|split].
  - destruct (Hexec (vm_with_stack [Some (valueInt 1); Some (valueInt 2)])
                (valueInt 1) (valueInt 2) eq_refl eq_refl)
      as (_ & Hint & _).
    exact (proj1 (Hint 1 2 (or_introl (conj eq_refl eq_refl)))).
  - destruct (Hexec (vm_with_stack [Some (valueString "b"); Some (valueString "a")])
                (valueString "b") (valueString "a") eq_refl eq_refl)
      as (Hstr & _).
    exact (proj2 (Hstr "b" "a" eq_refl eq_refl)).
  - destruct (Hexec (vm_with_stack [Some (valueInt 1); Some _NaN])
                (valueInt 1) _NaN eq_refl eq_refl) as (_ & _ & _ & _ & Hn).
    exact (proj1 (Hn (or_intror eq_refl))).
Defined.

(** C6 as stated fails for two integers of different widths: 2^53 as an
    [int] and 2^53 + 1 as an [int64] have the same nearest double, so
    the first is not less than the second for [op_lt], and the second
    is less than or equal to the first for [op_lte]. *)
Lemma mixed_width_integers_counterexample :
  let lo := 9007199254740992 in
  let hi := 9007199254740993 in
  lo < hi
  /\ _op_lt_exec (host := small_host)
       (vm_with_stack [Some (valueInt lo); Some (valueInt64 hi)])
     = Ok tt (after_relational valueFalse
                (vm_with_stack [Some (valueInt lo); Some (valueInt64 hi)])) []
  /\ _op_lte_exec (host := small_host)
       (vm_with_stack [Some (valueInt64 hi); Some (valueInt lo)])
     = Ok tt (after_relational valueTrue
                (vm_with_stack [Some (valueInt64 hi); Some (valueInt lo)])) []
  /\ _op_lt_exec (host := small_host)
       (vm_with_stack [Some (valueInt lo); Some (valueInt hi)])
     = Ok tt (after_relational valueTrue
                (vm_with_stack [Some (valueInt lo); Some (valueInt hi)])) [].
Proof.
  cbv zeta. split; [lia|]. repeat split; vm_compute; reflexivity.
Qed.

Lemma div_special_cases_witness :
  div_result (S754_infinity true) (S754_infinity false) = _NaN
  /\ div_result (S754_finite false 1 0) (S754_zero true) = _negativeInf.
Proof.
  split.
  - pose proof (div_special_cases (host := small_host)
                  (S754_infinity true) (S754_infinity false))
      as (_ & Hnan & _).
    apply Hnan. reflexivity.
  - pose proof (div_special_cases (host := small_host)
                  (S754_finite false 1 0) (S754_zero true))
      as (_ & _ & _ & _ & Hzero & _).
    apply Hzero; reflexivity.
Defined.

Section Int64.

Lemma wrap64_range (z : Z) : int64_range (wrap64 z).
Proof.
  unfold int64_range, wrap64, minInt64, maxInt64.
  pose proof (Z.mod_pos_bound (z + 2 ^ 63) (2 ^ 64) ltac:(lia)). lia.
Qed.

Lemma wrap64_congruent (z : Z) : exists k, wrap64 z = z - k * 2 ^ 64.
Proof.
  exists ((z + 2 ^ 63) / 2 ^ 64). unfold wrap64.
  pose proof (Z.div_mod (z + 2 ^ 63) (2 ^ 64) ltac:(lia)). lia.
Qed.

Lemma wrap64_id (z : Z) : int64_range z -> wrap64 z = z.
Proof.
  unfold int64_range, wrap64, minInt64, maxInt64. intros Hz.
  rewrite Z.mod_small; lia.
Qed.

Lemma quot_small (a b : Z) :
  Z.abs a <= 2 ^ 63 -> 2 <= Z.abs b -> Z.abs (Z.quot a b) <= 2 ^ 62.
Proof.
  intros Ha Hb.
  rewrite <- Z.quot_abs by lia.
  rewrite Z.quot_div_nonneg by lia.
  apply Z.div_le_upper_bound; lia.
Qed.

(** The reverse-division check of [_mul.exec] on non-zero operands:
    it accepts the wrapped product exactly when the product did not
    overflow, except for the pair [-1 * minInt64]. *)
Lemma reverse_division_check (l r : Z) :
  int64_range l -> int64_range r -> l <> 0 ->
  ~ (l = -1 /\ r = minInt64) ->
  (int64_quo (int64_mul l r) l =? r) = true <-> int64_range (l * r).
Proof.
  intros Hl Hr Hl0 Hex. rewrite Z.eqb_eq. unfold int64_quo, int64_mul. split.
  - intros Hq.
    pose proof (wrap64_range (l * r)) as Hres.
    destruct (wrap64_congruent (l * r)) as [k Hk].
    set (res := wrap64 (l * r)) in *.
    unfold int64_range, minInt64, maxInt64 in *.
    destruct (Z.eq_dec l 1) as [-> | Hl1]; [lia|].
    destruct (Z.eq_dec l (-1)) as [-> | Hlm1].
    + change (-1) with (- (1)) in Hq. rewrite Z.quot_opp_r, Z.quot_1_r in Hq by lia.
      destruct (Z.eq_dec res (- 2 ^ 63)) as [Hmin | Hmin].
      * rewrite Hmin in Hq. vm_compute in Hq. subst r. exfalso. apply Hex.
        split; reflexivity.
      * rewrite wrap64_id in Hq
          by (unfold int64_range, minInt64, maxInt64; lia).
        lia.
    + pose proof (quot_small res l ltac:(lia) ltac:(lia)) as Hsmall.
      rewrite wrap64_id in Hq
        by (unfold int64_range, minInt64, maxInt64; lia).
      pose proof (Z.quot_rem' res l) as Hdiv.
      pose proof (Z.rem_bound_abs res l Hl0) as Hrem.
      rewrite Hq in Hdiv.
      assert (k = 0) by lia. subst k. lia.
  - intros Hprod. rewrite (wrap64_id _ Hprod).
    rewrite Z.mul_comm, Z.quot_mul by exact Hl0.
    apply wrap64_id. exact Hr.
Qed.

End Int64.

Section MultiplyProperties.

Context {host : Host} {layout : Layout}.

Lemma _mul_exec_operands (s : vm) (a b : Value) :
  index (vm_stack s) (vm_sp s - 2) = Some (Some a) ->
  index (vm_stack s) (vm_sp s - 1) = Some (Some b) ->
  _mul_exec s = Ok tt (after_binop (mul_result a b) s) [].
Proof.
  intros Ha Hb.
  unfold _mul_exec, bind, gets, stack_at, non_nil, ret, modify, stack_put, pc_incr.
  rewrite Ha, Hb. cbn.
  rewrite (store_index _ _ _ _ Ha). reflexivity.
Qed.

(** The edge products of [_mul.exec]: [0 * -1] and [-1 * 0] are the
    negative zero, a double that is zero and has its sign bit set, while
    [1 * 0] is the integer zero. *)
Lemma mul_negative_zero :
  mul_result (valueInt 0) (valueInt (-1)) = _negativeZero
  /\ mul_result (valueInt (-1)) (valueInt 0) = _negativeZero
  /\ mul_result (valueInt 1) (valueInt 0) = valueInt 0
  /\ mul_result (valueInt 1) (valueInt 0) <> _negativeZero
  /\ f64_is_zero (ToFloat _negativeZero) = true
  /\ Signbit (ToFloat _negativeZero) = true
  /\ Signbit (ToFloat (mul_result (valueInt 1) (valueInt 0))) = false
  /\ top_of (_mul_exec (vm_with_stack [Some (valueInt 0); Some (valueInt (-1))]))
     = Some (Some _negativeZero)
  /\ top_of (_mul_exec (vm_with_stack [Some (valueInt (-1)); Some (valueInt 0)]))
     = Some (Some _negativeZero).
Proof.
  repeat apply conj; try reflexivity.
  discriminate.
Qed.

(** The integer fast path of [_mul.exec] away from the pair
    [-1 * minInt64]: a product that fits [int64] is returned through
    [intToValue], a product that overflows is recomputed on doubles. *)
Lemma mul_fast_path (l r : Z) :
  int64_range l -> int64_range r ->
  ~ (l = 0 /\ r = -1) -> ~ (l = -1 /\ r = 0) ->
  ~ (l = -1 /\ r = minInt64) ->
  mul_result (valueInt l) (valueInt r)
  = if bool_decide (int64_range (l * r)) then intToValue (l * r)
    else floatToValue (f64_mul (f64_of_int l) (f64_of_int r)).
Proof.
  intros Hl Hr He1 He2 Hex. unfold mul_result. cbn [assertInt64 ToNumber ToFloat].
  assert (((l =? 0) && (r =? -1) || (l =? -1) && (r =? 0)) = false) as ->.
  { destruct (Z.eqb_spec l 0), (Z.eqb_spec r (-1)), (Z.eqb_spec l (-1)),
      (Z.eqb_spec r 0); cbn; try reflexivity; lia. }
  destruct (Z.eqb_spec l 0) as [-> | Hl0].
  { cbn [orb]. rewrite bool_decide_eq_true_2 by (cbn; split; vm_compute; discriminate).
    unfold int64_mul. reflexivity. }
  destruct (Z.eqb_spec r 0) as [-> | Hr0].
  { cbn [orb]. rewrite Z.mul_0_r.
    rewrite bool_decide_eq_true_2 by (split; vm_compute; discriminate).
    unfold int64_mul. rewrite Z.mul_0_r. reflexivity. }
  cbn [orb].
  pose proof (reverse_division_check l r Hl Hr Hl0 Hex) as Hcheck.
  destruct (int64_quo (int64_mul l r) l =? r) eqn:E.
  - rewrite bool_decide_eq_true_2 by (apply Hcheck; reflexivity).
    unfold int64_mul. rewrite wrap64_id by (apply Hcheck; reflexivity). reflexivity.
  - rewrite bool_decide_eq_false_2; [reflexivity|].
    intros Hp. apply Hcheck in Hp. discriminate.
Qed.

(** C4, where the code departs from it.  The product [-1 * minInt64] is
    [2^63] and does not fit [int64], yet the reverse-division check of
    [_mul.exec] accepts the wrapped product: [minInt64 / -1] wraps to
    [minInt64], the right operand.  The instruction returns the double
    of the wrapped product, [-2^63], where the product on doubles that
    an overflow is promoted to is [+2^63]. *)
Theorem mul_overflow_undetected :
  ~ int64_range (-1 * minInt64)
  /\ int64_mul (-1) minInt64 = minInt64
  /\ int64_quo (int64_mul (-1) minInt64) (-1) = minInt64
  /\ mul_result (valueInt (-1)) (valueInt64 minInt64)
     = valueFloat (S754_finite true (2 ^ 52) 11)
  /\ mul_result (valueInt (-1)) (valueInt minInt64)
     = valueFloat (S754_finite true (2 ^ 52) 11)
  /\ floatToValue (f64_mul (ToFloat (valueInt (-1))) (ToFloat (valueInt64 minInt64)))
     = valueFloat (S754_finite false (2 ^ 52) 11)
  /\ top_of (_mul_exec
               (vm_with_stack [Some (valueInt (-1)); Some (valueInt64 minInt64)]))
     = Some (Some (valueFloat (S754_finite true (2 ^ 52) 11))).
Proof.
  repeat apply conj; try (vm_compute; reflexivity).
  unfold int64_range. vm_compute. intros [_ Hle]. apply Hle. reflexivity.
Qed.

End MultiplyProperties.

Section CallProperties.

Context {host : Host} {layout : Layout}.

Lemma callEval_not_object (n : Z) (strict : bool) (s : vm) (callee : Slot) :
  index (vm_stack s) (vm_sp s - n - 1) = Some callee ->
  is_object callee = false ->
  callEval n strict s = Panic not_a_function_eval s [].
Proof.
  intros Hc Hno. cbv beta iota delta [callEval bind gets stack_at].
  rewrite Hc. destruct callee as [[]|]; try discriminate; reflexivity.
Qed.

Lemma callEval_other_object (n : Z) (strict : bool) (s : vm) (o : ObjRef) :
  index (vm_stack s) (vm_sp s - n - 1) = Some (Some (valueObject o)) ->
  o <> global_Eval (vm_r s) ->
  callEval n strict s = call_exec n s.
Proof.
  intros Hc Hne. cbv beta iota delta [callEval bind gets stack_at get].
  rewrite Hc. cbv beta iota. rewrite bool_decide_eq_false_2 by exact Hne.
  destruct (call_exec n s); reflexivity.
Qed.

Lemma callEval_eval (n : Z) (strict : bool) (s : vm) :
  index (vm_stack s) (vm_sp s - n - 1)
  = Some (Some (valueObject (global_Eval (vm_r s)))) ->
  callEval n strict s
  = if 0 <? n then
      match index (vm_stack s) (vm_sp s - n) with
      | Some (Some (valueString src)) =>
          match caller_this s with
          | Some this =>
              match r_eval src true strict this s with
              | Returns r s1 => eval_done n r s1 [EvEval src true strict this]
              | Panics x s1 => Panic x s1 [EvEval src true strict this]
              end
          | None => Panic index_out_of_range s []
          end
      | Some srcVal => eval_done n srcVal s []
      | None => Panic index_out_of_range s []
      end
    else eval_done n (Some _undefined) s [].
Proof.
  intros Hc.
  cbv beta iota delta [callEval bind gets stack_at get ret outside caller_this
                       stack_put modify pc_incr eval_done].
  rewrite Hc. cbv beta iota. rewrite bool_decide_eq_true_2 by reflexivity.
  destruct (0 <? n).
  - destruct (index (vm_stack s) (vm_sp s - n)) as [[[]|]|]; cbv beta iota;
      try (destruct (store (vm_stack s) (vm_sp s - n - 2) _); reflexivity);
      try reflexivity.
    destruct (0 <=? vm_sb s).
    + destruct (index (vm_stack s) (vm_sb s)) as [this|]; [|reflexivity].
      cbv beta iota.
      destruct (r_eval s0 true strict this s) as [r s1 | x s1]; [|reflexivity].
      cbv beta iota.
      destruct (store (vm_stack s1) (vm_sp s1 - n - 2) r); reflexivity.
    + cbv beta iota.
      destruct (r_eval s0 true strict _ s) as [r s1 | x s1]; [|reflexivity].
      cbv beta iota.
      destruct (store (vm_stack s1) (vm_sp s1 - n - 2) r); reflexivity.
  - destruct (store (vm_stack s) (vm_sp s - n - 2) (Some _undefined)); reflexivity.
Qed.

(** C7, as the code has it.  [callEval] first requires an object as
    callee: any other callee is refused with the type error
    "'eval' is not a function" and never reaches the call path.  An
    object other than the built-in [eval] is called exactly as [call]
    calls it.  For the built-in [eval] itself: without arguments the
    result is undefined; a first argument that is not a string is the
    result, unchanged; a string first argument is handed to the
    runtime's [eval] as a direct call, with the instruction's strictness,
    on the caller's machine state (so in its current scope) and with the
    caller's receiver, the global object when there is no frame; the
    result replaces receiver, callee and arguments on the stack. *)
Theorem callEval_dispatch (n : Z) (strict : bool) (s : vm) (callee : Slot)
    (Hcallee : index (vm_stack s) (vm_sp s - n - 1) = Some callee) :
  (is_object callee = false ->
     callEval n strict s = Panic not_a_function_eval s [])
  /\ (forall o, callee = Some (valueObject o) -> o <> global_Eval (vm_r s) ->
        callEval n strict s = call_exec n s)
  /\ (callee = Some (valueObject (global_Eval (vm_r s))) ->
      (n <= 0 -> callEval n strict s = eval_done n (Some _undefined) s [])
      /\ (forall srcVal,
            0 < n -> index (vm_stack s) (vm_sp s - n) = Some srcVal ->
            (forall src, srcVal <> Some (valueString src)) ->
            callEval n strict s = eval_done n srcVal s [])
      /\ (forall src this,
            0 < n -> index (vm_stack s) (vm_sp s - n) = Some (Some (valueString src)) ->
            caller_this s = Some this ->
            callEval n strict s
            = match r_eval src true strict this s with
              | Returns r s1 => eval_done n r s1 [EvEval src true strict this]
              | Panics x s1 => Panic x s1 [EvEval src true strict this]
              end)).
Proof.
  repeat apply conj.
  - by apply callEval_not_object.
  - intros o ->. by apply callEval_other_object.
  - intros ->. rewrite (callEval_eval _ _ _ Hcallee). repeat apply conj.
    + intros Hn. destruct (Z.ltb_spec 0 n); [lia|reflexivity].
    + intros srcVal Hn Hsrc Hns.
      destruct (Z.ltb_spec 0 n); [|lia]. rewrite Hsrc.
      destruct srcVal as [[]|]; try reflexivity. by destruct (Hns s0).
    + intros src this Hn Hsrc Hthis.
      destruct (Z.ltb_spec 0 n); [|lia]. rewrite Hsrc, Hthis. reflexivity.
Qed.

Lemma new_exec_not_constructible (n : Z) (s : vm) (o : ObjRef) :
  index (vm_stack s) (vm_sp s - n - 1) = Some (Some (valueObject o)) ->
  assertConstructor o = None ->
  is_native (self o) = false ->
  _new_exec n s = Ok tt (with_pc (vm_pc s + 1) (with_sp (vm_sp s - n) s)) [].
Proof.
  intros Hc Hctor Hnat.
  cbv beta iota zeta delta [_new_exec bind get stack_at toObject ret modify pc_incr].
  rewrite Hc. cbv beta iota. rewrite Hctor.
  destruct (self o); try discriminate; reflexivity.
Qed.

(** The two branches [_new.exec] does have: a registered constructor is
    called with the arguments on the stack; failing that, a native
    function is called as a function, with the callee as receiver and
    the current frame's argument count deciding the argument slice. *)
Lemma new_exec_constructor (n : Z) (s : vm) (o : ObjRef) (ctor : FuncId)
    (arguments : list Slot) :
  index (vm_stack s) (vm_sp s - n - 1) = Some (Some (valueObject o)) ->
  assertConstructor o = Some ctor ->
  stack_slice (vm_sp s - n) (vm_sp s) s = Ok arguments s [] ->
  _new_exec n s
  = match ctor_f ctor arguments s with
    | Returns r s1 => new_done (vm_sp s - n) r s1 [EvConstruct ctor arguments]
    | Panics x s1 => Panic x s1 [EvConstruct ctor arguments]
    end.
Proof.
  intros Hc Hctor Hargs.
  cbv beta iota zeta delta [_new_exec bind get stack_at toObject ret modify pc_incr
                            outside stack_put new_done].
  rewrite Hc. cbv beta iota. rewrite Hctor, Hargs. cbv beta iota.
  destruct (ctor_f ctor arguments s) as [r s1 | x s1]; [|reflexivity].
  cbv beta iota.
  destruct (store (vm_stack s1) (vm_sp s - n - 1) r); reflexivity.
Qed.

Lemma new_exec_native (n : Z) (s : vm) (o : ObjRef) (fn : FuncId)
    (arguments : list Slot) :
  index (vm_stack s) (vm_sp s - n - 1) = Some (Some (valueObject o)) ->
  assertConstructor o = None ->
  self o = nativeFuncObject (Some fn) ->
  stack_slice (vm_sp s - vm_args s) (vm_sp s) s = Ok arguments s [] ->
  _new_exec n s
  = match native_f fn (Some (valueObject o)) arguments s with
    | Returns r s1 =>
        new_done (vm_sp s - n) r s1 [EvNative fn (Some (valueObject o)) arguments]
    | Panics x s1 => Panic x s1 [EvNative fn (Some (valueObject o)) arguments]
    end.
Proof.
  intros Hc Hctor Hself Hargs.
  cbv beta iota zeta delta [_new_exec bind get stack_at toObject ret modify pc_incr
                            outside stack_put new_done].
  rewrite Hc. cbv beta iota. rewrite Hctor, Hself, Hargs. cbv beta iota.
  destruct (native_f fn (Some (valueObject o)) arguments s) as [r s1 | x s1];
    [|reflexivity].
  cbv beta iota.
  destruct (store (vm_stack s1) (vm_sp s - n - 1) r); reflexivity.
Qed.

(** C8, where the code departs from it.  When the callee of the
    construction instruction is an object that has neither a
    constructor nor a native-function implementation, [_new.exec] does
    not panic: neither branch is taken, nothing is called, the
    arguments are popped and the callee object itself is left on the
    stack as the result. *)
Theorem new_exec_no_type_error (n : Z) (s : vm) (o : ObjRef)
    (Hcallee : index (vm_stack s) (vm_sp s - n - 1) = Some (Some (valueObject o)))
    (Hctor : assertConstructor o = None)
    (Hnative : is_native (self o) = false) :
  _new_exec n s = Ok tt (with_pc (vm_pc s + 1) (with_sp (vm_sp s - n) s)) []
  /\ panic_of (_new_exec n s) = None
  /\ trace (_new_exec n s) = []
  /\ top_of (_new_exec n s) = Some (Some (valueObject o)).
Proof.
  rewrite (new_exec_not_constructible n s o Hcallee Hctor Hnative).
  repeat apply conj; try reflexivity.
  cbn. rewrite <- Hcallee. reflexivity.
Qed.

End CallProperties.

Lemma callEval_dispatch_witness :
  let s := vm_with_stack [Some _undefined; Some (valueObject 1%nat);
                          Some (valueString "1 + 1")] in
  callEval (host := small_host) 1 false s
  = eval_done 1 (Some _undefined) s
      [EvEval "1 + 1" true false (Some (valueObject 0%nat))].
Proof.
  intros s.
  pose proof (callEval_dispatch (host := small_host) 1 false s
                (Some (valueObject 1%nat)) eq_refl) as (_ & _ & Heval).
  destruct (Heval eq_refl) as (_ & _ & Hsrc).
  apply (Hsrc "1 + 1" (Some (valueObject 0%nat))); [lia | reflexivity | reflexivity].
Defined.

(** C7 as stated fails for a callee that is not an object.  An
    unresolved callee is refused by [callEval] with a type error where
    the call instruction raises the not-defined reference error; a
    number is refused with "'eval' is not a function" where the call
    instruction reports "Value is not an object". *)
Lemma callEval_not_ordinary_call_counterexample :
  let s := vm_with_stack [Some _undefined; Some (valueUnresolved "eval")] in
  let s' := vm_with_stack [Some _undefined; Some (valueInt 5)] in
  Some (valueUnresolved "eval")
    <> Some (valueObject (global_Eval (vm_r s)))
  /\ callEval (host := small_host) 0 false s
     = Panic (pValue (valueObject (NewTypeError (Host := small_host)
                                      "'eval' is not a function"))) s []
  /\ call_exec (host := small_host) 0 s
     = Panic (pReferenceError "eval is not defined") s []
  /\ callEval (host := small_host) 0 false s <> call_exec (host := small_host) 0 s
  /\ callEval (host := small_host) 0 false s' <> call_exec (host := small_host) 0 s'.
Proof.
  cbv zeta. repeat apply conj; try reflexivity; discriminate.
Qed.

Lemma new_exec_no_type_error_witness :
  let s := vm_with_stack [Some (valueObject 2%nat); Some (valueInt 7)] in
  _new_exec (host := small_host) 1 s
  = Ok tt (with_pc (vm_pc s + 1) (with_sp (vm_sp s - 1) s)) []
  /\ top_of (_new_exec (host := small_host) 1 s) = Some (Some (valueObject 2%nat)).
Proof.
  intros s.
  pose proof (new_exec_no_type_error (host := small_host) 1 s 2%nat
                eq_refl eq_refl eq_refl) as (Hrun & _ & _ & Htop).
  split; [exact Hrun | exact Htop].
Defined.

Section TraceLemmas.

Context {host : Host} {layout : Layout}.

Lemma run_pcs_app (a b : list Event) : run_pcs (a ++ b) = run_pcs a ++ run_pcs b.
Proof. apply omap_app. Qed.


Lemma bind_Ok {A B : Type} (m : M A) (k : A -> M B) (s s1 : vm) (a : A) tr1 :
  m s = Ok a s1 tr1 ->
  bind m k s
  = match k a s1 with
    | Ok b s2 tr2 => Ok b s2 (tr1 ++ tr2)
    | Panic x s2 tr2 => Panic x s2 (tr1 ++ tr2)
    | OutOfFuel => OutOfFuel
    end.
Proof. intros E. unfold bind. rewrite E. reflexivity. Qed.

Lemma bind_Ok_nil {A B : Type} (m : M A) (k : A -> M B) (s s1 : vm) (a : A) :
  m s = Ok a s1 [] -> bind m k s = k a s1.
Proof.
  intros E. rewrite (bind_Ok m k s s1 a [] E). destruct (k a s1); reflexivity.
Qed.

Lemma bind_modify {B : Type} (g : vm -> vm) (k : unit -> M B) (s : vm) :
  bind (modify g) k s = k tt (g s).
Proof. unfold bind, modify. destruct (k tt (g s)); reflexivity. Qed.

Lemma bind_get {B : Type} (k : vm -> M B) (s : vm) : bind get k s = k s s.
Proof. unfold bind, get. destruct (k s s); reflexivity. Qed.

Lemma bind_gets {A B : Type} (g : vm -> A) (k : A -> M B) (s : vm) :
  bind (gets g) k s = k (g s) s.
Proof. unfold bind, gets. destruct (k (g s) s); reflexivity. Qed.

Lemma bind_ret {A B : Type} (a : A) (k : A -> M B) (s : vm) :
  bind (ret a) k s = k a s.
Proof. unfold bind, ret. destruct (k a s); reflexivity. Qed.

Lemma quiet_bind {A B : Type} (m : M A) (k : A -> M B) (s : vm) :
  quiet (m s) -> (forall a s1, quiet (k a s1)) -> quiet (bind m k s).
Proof.
  unfold quiet, bind. intros Hm Hk.
  destruct (m s) as [a s1 tr1 | x s1 tr1 |]; cbn [trace] in *; try assumption.
  specialize (Hk a s1).
  destruct (k a s1) as [b s2 tr2 | x s2 tr2 |]; cbn [trace] in *;
    rewrite ?run_pcs_app, ?Hm, ?Hk; reflexivity.
Qed.

Lemma quiet_returnIter (it : IterRef) (s : vm) : quiet (returnIter it s).
Proof.
  unfold quiet, returnIter, outside.
  destruct (iter_returnIter it s); reflexivity.
Qed.

Lemma quiet_close_tail (try_close : IterRef -> M unit) :
  (forall it s, quiet (try_close it s)) ->
  forall iterTail base s, quiet (close_tail try_close iterTail base s).
Proof.
  intros Hc iterTail. induction iterTail as [|item rest IH]; intros base s.
  - reflexivity.
  - cbn [close_tail]. apply quiet_bind.
    + destruct (item_iter item); [apply Hc | reflexivity].
    + intros _ s1. apply quiet_bind; [reflexivity|]. intros _ s2. apply IH.
Qed.

Lemma quiet_restore_stacks (try_close : IterRef -> M unit) ctx ctxOffset sp iterLen refLen :
  (forall it s, quiet (try_close it s)) ->
  forall s, quiet (restore_stacks try_close ctx ctxOffset sp iterLen refLen s).
Proof.
  intros Hc s. unfold restore_stacks.
  apply quiet_bind; [reflexivity | intros _ sa].
  apply quiet_bind; [reflexivity | intros _ sb].
  apply quiet_bind; [reflexivity | intros _ sc].
  apply quiet_bind; [reflexivity | intros sd se].
  destruct (length (vm_iterStack sd) <? iterLen)%nat; [reflexivity|].
  apply quiet_bind; [by apply quiet_close_tail | intros _ sf].
  apply quiet_bind; [reflexivity | intros _ sg].
  apply quiet_bind; [reflexivity | intros sh si].
  destruct (length (vm_refStack sh) <? refLen)%nat; reflexivity.
Qed.

(** Restoring the stacks never starts the dispatch loop: the runs in
    the trace of a [vm.try] are those of the function it guards. *)
Lemma vm_try_run_pcs (fuel : nat) :
  forall (f : M unit) (s : vm),
    vm_try fuel f s <> OutOfFuel ->
    run_pcs (trace (vm_try fuel f s)) = run_pcs (trace (f s)).
Proof.
  induction fuel as [|fuel IH]; intros f s Hfuel; [by destruct Hfuel|].
  cbn [vm_try] in *.
  destruct (f s) as [[] s1 tr | x s1 tr |]; [reflexivity | | by destruct Hfuel].
  assert (Hq : quiet (restore_stacks
                        (fun it => _ <- vm_try fuel (returnIter it) ;; ret tt)
                        (saveCtx s) (length (vm_callStack s)) (vm_sp s)
                        (length (vm_iterStack s)) (length (vm_refStack s)) s1)).
  { apply quiet_restore_stacks. intros it s'.
    apply quiet_bind; [|reflexivity].
    unfold quiet.
    destruct (vm_try fuel (returnIter it) s') eqn:E; try reflexivity.
    - rewrite <- E, IH by (rewrite E; discriminate). apply quiet_returnIter.
    - rewrite <- E, IH by (rewrite E; discriminate). apply quiet_returnIter. }
  unfold quiet in Hq.
  destruct (restore_stacks _ _ _ _ _ _ s1) as [[] s2 tr2 | y s2 tr2 |];
    [| | by destruct Hfuel].
  - destruct (handle x); cbn [trace] in *;
      rewrite run_pcs_app, Hq, app_nil_r; reflexivity.
  - cbn [trace] in *. rewrite run_pcs_app, Hq, app_nil_r. reflexivity.
Qed.

Lemma run_outcome (s : vm) :
  run s
  = match dispatch_loop (with_halt false s) with
    | Returns _ s1 => Ok tt s1 [EvRun (vm_pc s)]
    | Panics x s1 => Panic x s1 [EvRun (vm_pc s)]
    end.
Proof.
  unfold run. rewrite bind_modify, bind_get. unfold outside.
  destruct (dispatch_loop (with_halt false s)) as [[]|]; reflexivity.
Qed.

Lemma runTry_run_pcs (fuel : nat) (s : vm) :
  runTry fuel s <> OutOfFuel ->
  run_pcs (trace (runTry fuel s)) = [vm_pc s].
Proof.
  intros Hfuel. unfold runTry in *. rewrite (vm_try_run_pcs _ _ _ Hfuel).
  rewrite run_outcome. destruct (dispatch_loop (with_halt false s)); reflexivity.
Qed.

End TraceLemmas.

Section Unwinding.

Context {host : Host} {layout : Layout}.

Lemma open_iters_cons (item : iterStackItem) (rest : list iterStackItem) :
  open_iters (item :: rest)
  = match item_iter item with
    | Some it => it :: open_iters rest
    | None => open_iters rest
    end.
Proof. reflexivity. Qed.

Lemma handle_thrown (x : PanicVal) (e : Exception) :
  thrown x = Some e -> handle x = Caught e.
Proof. destruct x; cbn; intros [= <-]; reflexivity. Qed.

Lemma iterStack_upto_length (n : nat) (s : vm) :
  length (iterStack_upto n s) = n.
Proof.
  unfold iterStack_upto.
  rewrite length_app, length_take, length_fmap, length_seq. lia.
Qed.

Lemma iterStack_upto_within (n : nat) (s : vm) :
  (n <= length (vm_iterStack s))%nat ->
  iterStack_upto n s = take n (vm_iterStack s).
Proof.
  intros Hn. unfold iterStack_upto.
  replace (n - length (vm_iterStack s))%nat with 0%nat by lia.
  apply app_nil_r.
Qed.

Lemma vm_try_step (fuel : nat) (f : M unit) (s0 : vm) :
  vm_try (S fuel) f s0
  = match f s0 with
    | Ok _ s1 tr => Ok None s1 tr
    | OutOfFuel => OutOfFuel
    | Panic x s1 tr =>
        match restore_stacks
                (fun it => _ <- vm_try fuel (returnIter it) ;; ret tt)
                (saveCtx s0) (length (vm_callStack s0)) (vm_sp s0)
                (length (vm_iterStack s0)) (length (vm_refStack s0)) s1 with
        | Ok _ s2 tr2 =>
            match handle x with
            | Caught ex => Ok (Some ex) s2 (tr ++ tr2)
            | Rethrown y => Panic y s2 (tr ++ tr2)
            end
        | Panic y s2 tr2 => Panic y s2 (tr ++ tr2)
        | OutOfFuel => OutOfFuel
        end
    end.
Proof. reflexivity. Qed.

(** The deferred restore of [vm.try] once the closes are done. *)
Lemma restore_stacks_after (try_close : IterRef -> M unit)
    ctx ctxOffset sp iterLen refLen (s1 s2 : vm) (tr : list Event) :
  (iterLen <= length (vm_iterStack s1))%nat ->
  close_tail try_close (drop iterLen (vm_iterStack s1)) iterLen
    (with_sp sp (restoreCtx ctx (with_callStack (callStack_upto ctxOffset s1) s1)))
  = Ok tt s2 tr ->
  (refLen <= length (vm_refStack s2))%nat ->
  restore_stacks try_close ctx ctxOffset sp iterLen refLen s1
  = Ok tt (with_refStack (take refLen (vm_refStack s2))
             (with_iterStack (iterStack_upto iterLen s2) s2)) tr.
Proof.
  intros Hiter Hclose Hrefs. unfold restore_stacks.
  rewrite !bind_modify, bind_get.
  cbn [vm_iterStack with_sp restoreCtx with_funcName with_args with_sb with_pc
       with_result with_newTarget with_stash with_prg with_callStack].
  destruct (Nat.ltb_spec (length (vm_iterStack s1)) iterLen); [lia|].
  rewrite (bind_Ok _ _ _ _ _ _ Hclose), bind_modify, bind_get.
  cbn [vm_refStack with_iterStack].
  destruct (Nat.ltb_spec (length (vm_refStack s2)) refLen); [lia|].
  unfold modify. cbn [vm_refStack with_iterStack]. by rewrite app_nil_r.
Qed.

(** A tidy close under its own [vm.try] ends normally, after the one
    call of the iterator's close, whether the close returned or threw. *)
Lemma try_tidy_close (fuel : nat) (it : IterRef) (s : vm) :
  tidy_close it s ->
  exists s',
    (_ <- vm_try (S fuel) (returnIter it) ;; ret tt) s = Ok tt s' [EvReturnIter it]
    /\ vm_sp s' = vm_sp s
    /\ (length (vm_refStack s) <= length (vm_refStack s'))%nat.
Proof.
  unfold tidy_close. intros Hc.
  unfold bind at 1. rewrite vm_try_step. unfold returnIter at 1, outside.
  destruct (iter_returnIter it s) as [[] s1 | y s1].
  - exists s1. destruct Hc as (Hsp & Href). repeat split; assumption.
  - destruct Hc as ((ex & Hex) & Hiter & Href).
    pose proof (restore_stacks_after
                  (fun it => _ <- vm_try fuel (returnIter it) ;; ret tt)
                  (saveCtx s) (length (vm_callStack s)) (vm_sp s)
                  (length (vm_iterStack s)) (length (vm_refStack s))
                  s1 (unwound s s1) [] ltac:(lia)) as Hr.
    rewrite drop_ge in Hr by lia. specialize (Hr eq_refl Href).
    rewrite Hr, (handle_thrown _ _ Hex). eexists. split; [reflexivity|].
    cbn [vm_sp vm_refStack with_refStack with_iterStack unwound with_sp].
    split; [reflexivity|]. rewrite length_take.
    cbn [unwound vm_refStack with_sp restoreCtx with_funcName with_args with_sb
         with_pc with_result with_newTarget with_stash with_prg with_callStack].
    lia.
Qed.

Lemma close_tail_tidy (fuel : nat) (iterTail : list iterStackItem) :
  (forall it, it ∈ open_iters iterTail -> forall s, tidy_close it s) ->
  forall base s,
  exists s',
    close_tail (fun it => _ <- vm_try (S fuel) (returnIter it) ;; ret tt)
               iterTail base s
    = Ok tt s' (EvReturnIter <$> open_iters iterTail)
    /\ vm_sp s' = vm_sp s
    /\ (length (vm_refStack s) <= length (vm_refStack s'))%nat.
Proof.
  induction iterTail as [|item rest IH]; intros Hall base s.
  - exists s. repeat split; reflexivity || lia.
  - cbn [close_tail]. rewrite open_iters_cons in *.
    destruct (item_iter item) as [it|] eqn:Hit.
    + destruct (try_tidy_close fuel it s) as (s1 & E1 & Hsp1 & Href1);
        [apply Hall; by left|].
      rewrite (bind_Ok _ _ _ _ _ _ E1), bind_modify.
      destruct (IH (fun it' Hin => Hall it' (list_elem_of_further _ _ _ Hin))
                   (S base)
                   (with_iterStack (<[base := empty_item]> (vm_iterStack s1)) s1))
        as (s2 & E2 & Hsp2 & Href2).
      rewrite E2. exists s2. split; [reflexivity|].
      cbn [vm_sp vm_refStack with_iterStack] in Hsp2, Href2.
      split; [congruence | lia].
    + rewrite bind_ret, bind_modify.
      destruct (IH Hall (S base)
                   (with_iterStack (<[base := empty_item]> (vm_iterStack s)) s))
        as (s2 & E2 & Hsp2 & Href2).
      exists s2. split; [exact E2|]. split; assumption.
Qed.

(** Unwinding a panic of [f] under [vm.try]: the iterators left open
    above the entry length of the iterator stack are closed, each once,
    in stack order, and then the panic is handled; what it is handled
    as depends on the panic alone, not on what the closes did. *)
Lemma vm_try_unwinds (fuel : nat) (f : M unit) (s0 s1 : vm) (x : PanicVal) tr :
  f s0 = Panic x s1 tr ->
  unwinds s0 s1 ->
  exists s2,
    let tr' :=
      tr ++ (EvReturnIter
               <$> open_iters (drop (length (vm_iterStack s0)) (vm_iterStack s1))) in
    vm_try (S (S fuel)) f s0
    = match handle x with
      | Caught ex => Ok (Some ex) s2 tr'
      | Rethrown y => Panic y s2 tr'
      end
    /\ vm_sp s2 = vm_sp s0
    /\ length (vm_iterStack s2) = length (vm_iterStack s0)
    /\ length (vm_refStack s2) = length (vm_refStack s0).
Proof.
  intros Hf (Hiter & Hrefs & Hall).
  destruct (close_tail_tidy fuel _ Hall (length (vm_iterStack s0)) (unwound s0 s1))
    as (s2 & Hclose & Hsp & Href2).
  eexists. cbv zeta. split.
  - rewrite vm_try_step, Hf.
    erewrite restore_stacks_after; [reflexivity | exact Hiter | exact Hclose |].
    cbn [unwound vm_refStack with_sp restoreCtx with_funcName with_args with_sb
         with_pc with_result with_newTarget with_stash with_prg with_callStack]
      in Href2.
    lia.
  - cbn [vm_sp vm_iterStack vm_refStack with_refStack with_iterStack].
    split; [exact Hsp|]. rewrite iterStack_upto_length, length_take.
    cbn [unwound vm_refStack with_sp restoreCtx with_funcName with_args with_sb
         with_pc with_result with_newTarget with_stash with_prg with_callStack]
      in Href2.
    split; lia.
Qed.



End Unwinding.

Section TryProperties.

Context {host : Host} {layout : Layout}.

Lemma try_finally_outcome (o f : Z) (ex : option Exception) (s1 : vm) :
  0 < f ->
  try_finally o f ex s1
  = match dispatch_loop (finally_entry o f s1) with
    | Panics x s2 => Panic x s2 [EvRun (o + f)]
    | Returns _ s2 =>
        match fetch s2 with
        | Raise x => Panic x s2 [EvRun (o + f)]
        | Done i =>
            if bool_decide (i = retFinally)
            then Ok ex (with_pc (vm_pc s1) s2) [EvRun (o + f)]
            else Ok None s2 [EvRun (o + f)]
        end
    end.
Proof.
  intros Hf. unfold try_finally.
  destruct (Z.ltb_spec 0 f); [|lia].
  rewrite bind_gets, bind_modify.
  unfold bind at 1. rewrite run_outcome.
  change (with_halt false (with_pc (o + f) s1)) with (finally_entry o f s1).
  change (vm_pc (with_pc (o + f) s1)) with (o + f).
  destruct (dispatch_loop (finally_entry o f s1)) as [[] s2 | x s2]; [|reflexivity].
  cbv beta iota delta [code_at_pc bind get lift].
  destruct (fetch s2) as [i | x]; [|reflexivity].
  cbv beta iota delta [ret]. destruct (bool_decide (i = retFinally)); reflexivity.
Qed.

Lemma push_outcome (v : Slot) (s : vm) :
  (exists s1, push v s = Ok tt s1 [] /\ vm_pc s1 = vm_pc s)
  \/ push v s = Panic index_out_of_range s [].
Proof.
  unfold push. destruct (vm_sp s <? 0); [right; reflexivity|].
  left. eexists. split; reflexivity.
Qed.

Lemma try_catch_run_pcs (fuel : nat) (o c : Z) (s : vm) :
  try_catch fuel o c s <> OutOfFuel ->
  run_pcs (trace (try_catch fuel o c s)) = [vm_pc s]
  \/ 0 < c /\ run_pcs (trace (try_catch fuel o c s)) = [vm_pc s; o + c].
Proof.
  pose proof (runTry_run_pcs fuel s) as Hbody.
  remember (try_catch fuel o c s) as out eqn:Hout.
  unfold try_catch in Hout. unfold bind at 1 in Hout. intros Hfuel.
  destruct (runTry fuel s) as [ex s1 tr1 | x s1 tr1 |];
    [| subst out; left; apply Hbody; discriminate | by destruct Hfuel].
  cbn [trace] in Hbody. specialize (Hbody ltac:(discriminate)).
  destruct ex as [e|]; [|subst out; left; cbn; by rewrite app_nil_r].
  destruct (Z.ltb_spec 0 c) as [Hc|Hc];
    [|subst out; left; cbn; by rewrite app_nil_r].
  rewrite bind_modify in Hout.
  destruct (push_outcome (Some (ex_val e)) (with_pc (o + c) s1))
    as [(s2 & Hpush & Hpc) | Hpush].
  - right. split; [exact Hc|].
    rewrite (bind_Ok _ _ _ _ _ _ Hpush) in Hout.
    pose proof (runTry_run_pcs fuel s2) as Hcatch.
    destruct (runTry fuel s2) as [ex2 s3 tr3 | x s3 tr3 |];
      [| | subst out; by destruct Hfuel];
      subst out; cbn [trace app] in *; specialize (Hcatch ltac:(discriminate));
      rewrite !run_pcs_app, Hbody, Hcatch, Hpc; reflexivity.
  - left. unfold bind in Hout. rewrite Hpush in Hout. subst out.
    cbn [trace]. by rewrite app_nil_r.
Qed.

Lemma try_exec_outcome (fuel : nat) (c f : Z) (s : vm)
    (ex : option Exception) (s1 : vm) (tr1 : list Event) :
  0 < f ->
  try_catch fuel (vm_pc s) c (with_pc (vm_pc s + 1) s) = Ok ex s1 tr1 ->
  try_exec fuel c f s
  = let tr := tr1 ++ [EvRun (vm_pc s + f)] in
    match dispatch_loop (finally_entry (vm_pc s) f s1) with
    | Panics x s2 => Panic x s2 tr
    | Returns _ s2 =>
        match fetch s2 with
        | Raise x => Panic x s2 tr
        | Done i =>
            if bool_decide (i = retFinally) then
              match ex with
              | Some e =>
                  Panic (pException e)
                        (with_pc (-1) (with_halt false (with_pc (vm_pc s1) s2))) tr
              | None => Ok tt (with_halt false (with_pc (vm_pc s1) s2)) tr
              end
            else Ok tt (with_halt false s2) tr
        end
    end.
Proof.
  intros Hf Htc. unfold try_exec.
  rewrite bind_gets. unfold pc_incr. rewrite bind_modify.
  rewrite (bind_Ok _ _ _ _ _ _ Htc).
  unfold bind at 1. rewrite (try_finally_outcome _ _ _ _ Hf).
  cbv zeta.
  destruct (dispatch_loop (finally_entry (vm_pc s) f s1)) as [[] s2 | x s2];
    [|reflexivity].
  destruct (fetch s2) as [i | x]; [|reflexivity].
  destruct (bool_decide (i = retFinally)).
  - rewrite bind_modify. destruct ex as [e|].
    + rewrite bind_modify. reflexivity.
    + reflexivity.
  - rewrite bind_modify. reflexivity.
Qed.

(** An uncatchable condition, or a foreign Go panic, that leaves the
    try / catch part as a panic goes through [try.exec] as it is: the
    finally part is not reached. *)
Lemma try_exec_passes_panic (fuel : nat) (c f : Z) (s : vm)
    (x : PanicVal) (s1 : vm) (tr1 : list Event) :
  try_catch fuel (vm_pc s) c (with_pc (vm_pc s + 1) s) = Panic x s1 tr1 ->
  try_exec fuel c f s = Panic x s1 tr1.
Proof.
  intros Htc. unfold try_exec.
  rewrite bind_gets. unfold pc_incr. rewrite bind_modify.
  unfold bind at 1. rewrite Htc. reflexivity.
Qed.

Lemma run_pcs_returnIter (its : list IterRef) : run_pcs (EvReturnIter <$> its) = [].
Proof. induction its as [|it its IH]; [reflexivity | exact IH]. Qed.

Lemma runTry_returns (fuel : nat) (s s1 : vm) :
  dispatch_loop (with_halt false s) = Returns tt s1 ->
  runTry (S fuel) s = Ok None s1 [EvRun (vm_pc s)].
Proof.
  intros Hloop. unfold runTry. rewrite vm_try_step, run_outcome, Hloop. reflexivity.
Qed.

(** A throw that a script can see, in a block run by [runTry], comes
    back as the pending exception, with fuel for one level of closes. *)
Lemma runTry_throws (fuel : nat) (s sx : vm) (x : PanicVal) (e : Exception) :
  dispatch_loop (with_halt false s) = Panics x sx ->
  thrown x = Some e ->
  unwinds s sx ->
  exists s1 tr1,
    runTry (S (S fuel)) s = Ok (Some e) s1 tr1
    /\ run_pcs tr1 = [vm_pc s]
    /\ vm_sp s1 = vm_sp s.
Proof.
  intros Hloop Hx Hun.
  assert (Hrun : run s = Panic x sx [EvRun (vm_pc s)])
    by (rewrite run_outcome, Hloop; reflexivity).
  destruct (vm_try_unwinds fuel run s sx x _ Hrun Hun) as (s1 & Htry & Hsp & _).
  cbv zeta in Htry. rewrite (handle_thrown _ _ Hx) in Htry.
  exists s1. eexists. split; [exact Htry|]. split; [|exact Hsp].
  rewrite run_pcs_app, run_pcs_returnIter. reflexivity.
Qed.

Lemma try_exec_trace (fuel : nat) (c f : Z) (s : vm)
    (ex : option Exception) (s1 : vm) (tr1 : list Event) :
  0 < f ->
  try_catch fuel (vm_pc s) c (with_pc (vm_pc s + 1) s) = Ok ex s1 tr1 ->
  trace (try_exec fuel c f s) = tr1 ++ [EvRun (vm_pc s + f)].
Proof.
  intros Hf Htc. rewrite (try_exec_outcome fuel c f s ex s1 tr1 Hf Htc). cbv zeta.
  destruct (dispatch_loop (finally_entry (vm_pc s) f s1)) as [[] s2 | x s2];
    [|reflexivity].
  destruct (fetch s2) as [i | x]; [|reflexivity].
  destruct (bool_decide (i = retFinally)); [|reflexivity].
  destruct ex; reflexivity.
Qed.

(** C1.  [try.exec] with a finally offset, given fuel for one level of
    iterator closes.  However the try / catch part ends - the try block
    completes; it throws and there is no catch block; it throws and the
    catch block completes; it throws and the catch block throws again -
    the try / catch part ends with something pending (nothing after a
    normal completion or a caught throw, the exception otherwise) and
    the dispatch loop is started at the finally offset exactly once, as
    the last run, after the one run of the try block and the one run of
    the catch block, if any.  A throw is any panic a script can see: a
    thrown value, an exception raised again by an inner try region, and
    the errors the machine raises itself; the iterators the block left
    open are closed on the way.  What the finally block does then
    decides the outcome: if it panics, that panic is the outcome; if it
    stops at an instruction other than the end marker [retFinally] - it
    left by a break, continue or return - the instruction ends normally
    and what was pending is dropped; if it stops at the end marker, the
    program counter goes back to where the try / catch part left it and
    a pending exception is raised again. *)
Theorem finally_runs_once (fuel : nat) (c f : Z) (s : vm) (Hf : 0 < f) :
  let o := vm_pc s in
  let body := with_pc (o + 1) s in
  let exec := try_exec (S (S fuel)) c f s in
  let pending ex s1 tr1 := try_catch (S (S fuel)) o c body = Ok ex s1 tr1 in
  (forall s1,
      dispatch_loop (with_halt false body) = Returns tt s1 ->
      pending None s1 [EvRun (o + 1)]
      /\ run_pcs (trace exec) = [o + 1; o + f])
  /\ (forall x e sx,
        dispatch_loop (with_halt false body) = Panics x sx ->
        thrown x = Some e -> unwinds s sx ->
        c <= 0 ->
        exists s1 tr1,
          pending (Some e) s1 tr1
          /\ run_pcs (trace exec) = [o + 1; o + f])
  /\ (forall x e sx,
        dispatch_loop (with_halt false body) = Panics x sx ->
        thrown x = Some e -> unwinds s sx ->
        0 < c -> 0 <= vm_sp s ->
        exists s1 tr1 sc,
          push (Some (ex_val e)) (with_pc (o + c) s1) = Ok tt sc []
          /\ (forall s3,
                dispatch_loop (with_halt false sc) = Returns tt s3 ->
                pending None s3 (tr1 ++ [EvRun (o + c)])
                /\ run_pcs (trace exec) = [o + 1; o + c; o + f])
          /\ (forall y e' sy,
                dispatch_loop (with_halt false sc) = Panics y sy ->
                thrown y = Some e' -> unwinds sc sy ->
                exists s4 tr4,
                  pending (Some e') s4 tr4
                  /\ run_pcs (trace exec) = [o + 1; o + c; o + f]))
  /\ (forall ex s1 tr1,
        pending ex s1 tr1 ->
        let tr := tr1 ++ [EvRun (o + f)] in
        (run_pcs tr1 = [o + 1] \/ 0 < c /\ run_pcs tr1 = [o + 1; o + c])
        /\ trace exec = tr
        /\ run_pcs (trace exec) = run_pcs tr1 ++ [o + f]
        /\ (forall x s2,
              dispatch_loop (finally_entry o f s1) = Panics x s2 ->
              exec = Panic x s2 tr)
        /\ (forall s2 i,
              dispatch_loop (finally_entry o f s1) = Returns tt s2 ->
              fetch s2 = Done i -> i <> retFinally ->
              exec = Ok tt (with_halt false s2) tr)
        /\ (forall s2,
              dispatch_loop (finally_entry o f s1) = Returns tt s2 ->
              fetch s2 = Done retFinally ->
              exec
              = match ex with
                | Some e =>
                    Panic (pException e)
                          (with_pc (-1) (with_halt false (with_pc (vm_pc s1) s2))) tr
                | None => Ok tt (with_halt false (with_pc (vm_pc s1) s2)) tr
                end)).
Proof.
  intros o body exec pending.
  assert (Hruns : forall ex s1 tr1,
            pending ex s1 tr1 -> run_pcs (trace exec) = run_pcs tr1 ++ [o + f]).
  { intros ex s1 tr1 Htc. unfold exec.
    rewrite (try_exec_trace _ c f s ex s1 tr1 Hf Htc), run_pcs_app. reflexivity. }
  assert (Hthrow : forall x e sx,
            dispatch_loop (with_halt false body) = Panics x sx ->
            thrown x = Some e -> unwinds s sx ->
            exists s1 tr1,
              runTry (S (S fuel)) body = Ok (Some e) s1 tr1
              /\ run_pcs tr1 = [o + 1] /\ vm_sp s1 = vm_sp s).
  { intros x e sx Hloop Hx Hun.
    exact (runTry_throws fuel body sx x e Hloop Hx Hun). }
  split; [|split; [|split]].
  - intros s1 Hloop.
    assert (Htc : pending None s1 [EvRun (o + 1)]).
    { unfold pending, try_catch.
      rewrite (bind_Ok _ _ _ _ _ _ (runTry_returns (S fuel) body s1 Hloop)).
      reflexivity. }
    split; [exact Htc|]. rewrite (Hruns _ _ _ Htc). reflexivity.
  - intros x e sx Hloop Hx Hun Hc.
    destruct (Hthrow x e sx Hloop Hx Hun) as (s1 & tr1 & Htry & Hpcs & _).
    assert (Htc : pending (Some e) s1 tr1).
    { unfold pending, try_catch. rewrite (bind_Ok _ _ _ _ _ _ Htry).
      destruct (Z.ltb_spec 0 c); [lia|]. cbn. by rewrite app_nil_r. }
    exists s1, tr1. split; [exact Htc|].
    rewrite (Hruns _ _ _ Htc), Hpcs. reflexivity.
  - intros x e sx Hloop Hx Hun Hc Hsp.
    destruct (Hthrow x e sx Hloop Hx Hun) as (s1 & tr1 & Htry & Hpcs & Hsp1).
    destruct (push_outcome (Some (ex_val e)) (with_pc (o + c) s1))
      as [(sc & Hpush & Hpc) | Hpush];
      [| unfold push in Hpush; cbn [vm_sp with_pc] in Hpush; rewrite Hsp1 in Hpush;
         destruct (Z.ltb_spec (vm_sp s) 0); [lia | discriminate]].
    cbn [vm_pc with_pc] in Hpc.
    assert (Hcatch :
              try_catch (S (S fuel)) o c body
              = match runTry (S (S fuel)) sc with
                | Ok b s2 tr2 => Ok b s2 (tr1 ++ tr2)
                | Panic y s2 tr2 => Panic y s2 (tr1 ++ tr2)
                | OutOfFuel => OutOfFuel
                end).
    { unfold try_catch. rewrite (bind_Ok _ _ _ _ _ _ Htry).
      destruct (Z.ltb_spec 0 c); [|lia].
      rewrite bind_modify, (bind_Ok_nil _ _ _ _ _ Hpush).
      destruct (runTry (S (S fuel)) sc); reflexivity. }
    exists s1, tr1, sc. split; [exact Hpush|]. split.
    + intros s3 Hloop3.
      assert (Htc : pending None s3 (tr1 ++ [EvRun (o + c)])).
      { unfold pending. rewrite Hcatch, (runTry_returns (S fuel) sc s3 Hloop3), Hpc.
        reflexivity. }
      split; [exact Htc|].
      rewrite (Hruns _ _ _ Htc), run_pcs_app, Hpcs. reflexivity.
    + intros y e' sy Hloopy Hy Huny.
      destruct (runTry_throws fuel sc sy y e' Hloopy Hy Huny)
        as (s4 & tr4 & Htry4 & Hpcs4 & _).
      assert (Htc : pending (Some e') s4 (tr1 ++ tr4)).
      { unfold pending. rewrite Hcatch, Htry4. reflexivity. }
      exists s4, (tr1 ++ tr4). split; [exact Htc|].
      rewrite (Hruns _ _ _ Htc), run_pcs_app, Hpcs, Hpcs4, Hpc. reflexivity.
  - intros ex s1 tr1 Htc tr.
    pose proof (try_exec_outcome (S (S fuel)) c f s ex s1 tr1 Hf Htc) as Hout.
    cbv zeta in Hout. fold o in Hout. fold tr in Hout. fold exec in Hout.
    assert (Htrace : trace exec = tr)
      by exact (try_exec_trace _ c f s ex s1 tr1 Hf Htc).
    repeat apply conj.
    + pose proof (try_catch_run_pcs (S (S fuel)) o c body) as Hr.
      unfold pending in Htc. rewrite Htc in Hr. apply Hr. discriminate.
    + exact Htrace.
    + rewrite Htrace. unfold tr. by rewrite run_pcs_app.
    + intros x s2 Hloop. rewrite Hout, Hloop. reflexivity.
    + intros s2 i Hloop Hfetch Hi. rewrite Hout, Hloop, Hfetch.
      by rewrite bool_decide_eq_false_2.
    + intros s2 Hloop Hfetch. rewrite Hout, Hloop, Hfetch.
      by rewrite bool_decide_eq_true_2.
Qed.

End TryProperties.

Lemma finally_runs_once_witness :
  let raised := mkException (valueObject (NewTypeError (Host := erring_host) "x")) in
  try_catch (host := erring_host) 2 0 0 (with_pc 1 try_vm)
  = Ok (Some raised) try_vm_raised [EvRun 1]
  /\ run_pcs (trace (try_exec (host := erring_host) 2 0 2 try_vm)) = [1; 2]
  /\ try_exec (host := erring_host) 2 0 2 try_vm
     = Ok tt (with_halt false (with_halt true (finally_entry 0 2 try_vm_raised)))
          [EvRun 1; EvRun 2].
Proof.
  cbv zeta.
  assert (Htc : try_catch (host := erring_host) 2 (vm_pc try_vm) 0
                  (with_pc (vm_pc try_vm + 1) try_vm)
                = Ok (Some (mkException
                              (valueObject (NewTypeError (Host := erring_host) "x"))))
                     try_vm_raised [EvRun 1])
    by (vm_compute; reflexivity).
  pose proof (finally_runs_once (host := erring_host) 0 0 2 try_vm ltac:(lia))
    as (_ & Huncaught & _ & Hfinally).
  split; [exact Htc|]. split.
  - destruct (Huncaught (pTypeError "x") _ (with_halt false (with_pc 1 try_vm))
                eq_refl eq_refl) as (s1 & tr1 & _ & Hruns).
    + split; [cbn; lia|]. split; [cbn; lia|]. intros it Hin. cbn in Hin.
      by apply elem_of_nil in Hin.
    + lia.
    + exact Hruns.
  - destruct (Hfinally _ _ _ Htc) as (_ & _ & _ & _ & Hearly & _).
    apply (Hearly _ (jump 7)); [reflexivity | reflexivity | discriminate].
Defined.

Section IteratorProperties.

Context {host : Host} {layout : Layout}.


Lemma enumPopClose_no_iterator (s : vm) (item : iterStackItem) :
  last (vm_iterStack s) = Some item ->
  item_iter item = None ->
  _enumPopClose_exec s
  = Ok tt (with_pc (vm_pc s + 1) (with_iterStack (removelast (vm_iterStack s)) s)) [].
Proof.
  intros Hlast Hit. unfold _enumPopClose_exec.
  rewrite bind_get, Hlast, bind_modify, Hit. reflexivity.
Qed.











End IteratorProperties.


(* ===================================================================== *)
(** ** The growable value stack *)
(* ===================================================================== *)

Section StackGrowth.

Lemma cleared_visible_length (s : valueStack) :
  cleared s -> length (visible s) = vlen s.
Proof.
  intros [Hle _]. unfold visible, vcap in *. rewrite length_take. lia.
Qed.

Lemma ldiff_1023 (a : Z) : and_not a 1023 = 1024 * (a / 1024).
Proof.
  unfold and_not. change 1023 with (Z.ones 10).
  rewrite Z.ldiff_ones_r by lia.
  rewrite Z.shiftr_div_pow2, Z.shiftl_mul_pow2 by lia.
  change (2 ^ 10) with 1024. lia.
Qed.

(** The capacity asked for holds the new length: twice the length below
    1024 elements, and above that the next multiple of 1024 that leaves
    room for at least one more element. *)
Lemma new_cap_bounds (idx : Z) :
  0 < idx ->
  idx <= new_cap idx
  /\ (idx < 1024 -> new_cap idx = 2 * idx)
  /\ (1024 <= idx ->
      idx + 1 < new_cap idx <= idx + 1025 /\ new_cap idx mod 1024 = 0).
Proof.
  intros Hpos. unfold new_cap.
  destruct (idx <? 1024) eqn:Hlt.
  - apply Z.ltb_lt in Hlt. repeat apply conj; intros; lia.
  - apply Z.ltb_ge in Hlt. rewrite ldiff_1023.
    pose proof (Z.div_mod (idx + 1025) 1024 ltac:(lia)) as Hdm.
    pose proof (Z.mod_pos_bound (idx + 1025) 1024 ltac:(lia)) as Hb.
    repeat apply conj; intros; try lia.
    split; [lia|]. rewrite Z.mul_comm. apply Z.mod_mul. lia.
Qed.

Lemma expand_visible (idx : Z) (s : valueStack) :
  cleared s ->
  cleared (expand idx s)
  /\ visible (expand idx s) = grow idx (visible s)
  /\ (0 <= idx -> idx < Z.of_nat (vlen (expand idx s))).
Proof.
  intros Hc. pose proof (cleared_visible_length s Hc) as Hlen.
  destruct Hc as [Hle Hdrop].
  unfold expand, grow. rewrite Hlen.
  destruct (idx <? Z.of_nat (vlen s)) eqn:Hlt.
  - apply Z.ltb_lt in Hlt. repeat apply conj; try assumption; try reflexivity.
    intros _. assumption.
  - apply Z.ltb_ge in Hlt. cbv zeta.
    destruct (idx + 1 <? Z.of_nat (vcap s)) eqn:Hcap.
    + apply Z.ltb_lt in Hcap. unfold cleared, visible, vcap in *. cbn [backing vlen].
      assert (Hsplit : backing s = take (vlen s) (backing s)
                                   ++ replicate (length (backing s) - vlen s)%nat None).
      { rewrite <- Hdrop. symmetry. apply take_drop. }
      repeat apply conj.
      * lia.
      * rewrite Hsplit at 1. rewrite drop_app_ge by (rewrite length_take; lia).
        rewrite length_take, drop_replicate. f_equal. lia.
      * rewrite Hsplit at 1. rewrite take_app_ge by (rewrite length_take; lia).
        rewrite length_take, take_replicate. do 2 f_equal.
        rewrite Nat.min_l by lia. lia.
      * intros _. lia.
    + apply Z.ltb_ge in Hcap.
      pose proof (new_cap_bounds (idx + 1) ltac:(lia)) as (Hnc & _).
      unfold cleared, visible, vcap in *. cbn [backing vlen].
      rewrite length_app, length_take, length_replicate.
      repeat apply conj.
      * lia.
      * rewrite drop_app_ge by (rewrite length_take; lia).
        rewrite length_take, drop_replicate. f_equal. lia.
      * rewrite take_app_ge by (rewrite length_take; lia).
        rewrite length_take, take_replicate.
        do 2 f_equal. lia.
      * intros _. lia.
Qed.

(** X1: [expand] keeps the elements in view, makes the index valid, and
    brings only empty slots into view, provided the slots of the
    backing array beyond the length were empty; they still are
    afterwards. *)
Theorem expand_keeps_stack (idx : Z) (s : valueStack) :
  cleared s ->
  cleared (expand idx s)
  /\ visible (expand idx s) = grow idx (visible s)
  /\ (0 <= idx -> idx < Z.of_nat (vlen (expand idx s))).
Proof. apply expand_visible. Qed.

Lemma expand_keeps_stack_witness :
  let s := mkValueStack [Some _undefined; None; None] 1 in
  cleared (expand 5 s)
  /\ visible (expand 5 s) = grow 5 (visible s)
  /\ (0 <= 5 -> 5 < Z.of_nat (vlen (expand 5 s))).
Proof.
  intros s. apply (expand_keeps_stack 5 s).
  split; [cbn; lia | reflexivity].
Defined.

(** X2: what [clearStack] cuts off is emptied first: the slots beyond
    the new length are empty, so that a later [expand] cannot bring an
    old value back into view. *)
Theorem clear_from_keeps_cleared (sp : Z) (s s' : valueStack) :
  cleared s ->
  clear_from sp s = Some s' ->
  cleared s'
  /\ visible s' = take (Z.to_nat sp) (visible s)
  /\ forall idx, visible (expand idx s') = grow idx (visible s').
Proof.
  intros [Hle Hdrop] Hclr. unfold clear_from in Hclr.
  destruct ((0 <=? sp) && (sp <=? Z.of_nat (vlen s))) eqn:Hb; [|discriminate].
  apply andb_true_iff in Hb as [H0 H1].
  apply Z.leb_le in H0, H1. injection Hclr as <-.
  assert (Hcl : cleared
    {| backing := take (Z.to_nat sp) (backing s)
                  ++ replicate (vlen s - Z.to_nat sp) None
                  ++ drop (vlen s) (backing s);
       vlen := Z.to_nat sp |}).
  { unfold cleared, vcap in *. cbn [backing vlen].
    rewrite !length_app, length_take, length_replicate, length_drop.
    split; [lia|].
    rewrite drop_app_ge by (rewrite length_take; lia).
    rewrite length_take. rewrite Nat.min_l by lia.
    rewrite Nat.sub_diag, drop_0, Hdrop, <- replicate_add. f_equal.
    unfold Slot. lia. }
  split; [exact Hcl | split].
  - unfold visible, vcap in *. cbn [backing vlen].
    unfold Slot in *.
    rewrite take_app_le by (rewrite length_take; lia).
    rewrite !take_take. f_equal. lia.
  - intros idx. apply expand_visible. exact Hcl.
Qed.

Lemma clear_from_keeps_cleared_witness :
  let s := mkValueStack [Some _undefined; Some _null; None] 2 in
  let s' := mkValueStack [Some _undefined; None; None] 1 in
  cleared s'
  /\ visible s' = take (Z.to_nat 1) (visible s)
  /\ forall idx, visible (expand idx s') = grow idx (visible s').
Proof.
  intros s s'. apply (clear_from_keeps_cleared 1 s s').
  - split; [cbn; lia | reflexivity].
  - reflexivity.
Defined.

End StackGrowth.

(* ===================================================================== *)
(** ** Saving and restoring *)
(* ===================================================================== *)

Section FrameRoundTrips.

Context {host : Host} {layout : Layout}.

Lemma pushCtx_state (s : vm) :
  vm_maxCallStackSize s = 0
  \/ Z.of_nat (length (vm_callStack s)) + 1 < vm_maxCallStackSize s ->
  pushCtx s = Ok tt (with_callStack (vm_callStack s ++ [saveCtx s]) s) [].
Proof.
  intros Hok. unfold pushCtx, bind, get, modify.
  assert (negb (vm_maxCallStackSize s =? 0)
          && (vm_maxCallStackSize s <=? Z.of_nat (length (vm_callStack s)) + 1)
          = false) as ->.
  { destruct Hok as [-> | Hlt]; [reflexivity|].
    apply andb_false_iff. right. apply Z.leb_gt. exact Hlt. }
  cbn. rewrite length_app, Nat.add_sub. cbn.
  change (saveCtx (with_callStack (vm_callStack s ++ [empty_ctx]) s))
    with (saveCtx s).
  rewrite (insert_app_r_alt _ _ (length (vm_callStack s))) by lia.
  rewrite Nat.sub_diag. reflexivity.
Qed.

Lemma popCtx_state (s : vm) (cs : list vmContext) (ctx : vmContext) :
  vm_callStack s = cs ++ [ctx] ->
  popCtx s = Ok tt (with_callStack cs (restoreCtx ctx s)) [].
Proof.
  intros Hcs. unfold popCtx, bind, get, modify.
  rewrite Hcs, last_snoc. cbn. rewrite Hcs, removelast_last. reflexivity.
Qed.

(** X3: a frame saved by [pushCtx] and restored by [popCtx] gives back
    the program, the scope chain, [new.target], the result, the program
    counter, the stack base and the argument count, whatever they were
    set to in between; the frame array is as before.  The function name
    comes back as [saveCtx] recorded it. *)
Theorem pushCtx_popCtx (s : vm) (prg' : option Program) (fn' : string)
    (pc' sb' args' : Z) (stash' : option stash) (nt' res' : Slot) :
  vm_maxCallStackSize s = 0
  \/ Z.of_nat (length (vm_callStack s)) + 1 < vm_maxCallStackSize s ->
  (pushCtx ;;;
   modify (fun s1 =>
     with_prg prg' (with_funcName fn' (with_pc pc' (with_sb sb'
       (with_args args' (with_stash stash' (with_newTarget nt'
         (with_result res' s1)))))))) ;;;
   popCtx) s
  = Ok tt (with_funcName (ctx_funcName (saveCtx s)) s) [].
Proof.
  intros Hok. unfold bind at 1. rewrite (pushCtx_state s Hok).
  rewrite bind_modify.
  erewrite popCtx_state; [|reflexivity].
  destruct s; reflexivity.
Qed.

Lemma pushCtx_popCtx_witness :
  (pushCtx ;;;
   modify (fun s1 =>
     with_prg None (with_funcName "f" (with_pc 7 (with_sb 3
       (with_args 2 (with_stash (Some empty_stash) (with_newTarget (Some _null)
         (with_result (Some _null) s1)))))))) ;;;
   popCtx) (fresh_vm small_runtime)
  = Ok tt (with_funcName (ctx_funcName (saveCtx (fresh_vm small_runtime)))
             (fresh_vm small_runtime)) [].
Proof.
  apply (pushCtx_popCtx (fresh_vm small_runtime)).
  right. vm_compute. reflexivity.
Defined.

Lemma push_state (v : Slot) (s : vm) :
  0 <= vm_sp s ->
  push v s
  = Ok tt (with_sp (vm_sp s + 1)
             (with_stack (<[Z.to_nat (vm_sp s) := v]> (grow (vm_sp s) (vm_stack s))) s))
       [].
Proof.
  intros Hsp. unfold push, grow.
  destruct (vm_sp s <? 0) eqn:Hneg; [apply Z.ltb_lt in Hneg; lia|].
  destruct (vm_sp s <? Z.of_nat (length (vm_stack s))); [reflexivity|].
  do 6 f_equal. lia.
Qed.

Lemma grow_length (idx : Z) (st : list Slot) :
  0 <= idx -> idx < Z.of_nat (length (grow idx st)).
Proof.
  intros Hidx. unfold grow.
  destruct (idx <? Z.of_nat (length st)) eqn:Hlt.
  - apply Z.ltb_lt in Hlt. exact Hlt.
  - apply Z.ltb_ge in Hlt. rewrite length_app, length_replicate. lia.
Qed.

Lemma grow_lookup (idx : Z) (st : list Slot) (i : nat) (x : Slot) :
  st !! i = Some x -> grow idx st !! i = Some x.
Proof.
  intros Hi. unfold grow.
  destruct (idx <? Z.of_nat (length st)); [exact Hi|].
  apply lookup_app_l_Some. exact Hi.
Qed.

(** X4: [push] followed by [pop] hands back the value pushed and leaves
    the stack pointer where it was; the stack has grown to hold the
    slot, and every slot below the stack pointer is untouched. *)
Theorem push_then_pop (v : Slot) (s : vm) :
  0 <= vm_sp s ->
  exists s',
    (push v ;;; pop) s = Ok v s' []
    /\ vm_sp s' = vm_sp s
    /\ vm_stack s' !! Z.to_nat (vm_sp s) = Some v
    /\ forall i x, (i < Z.to_nat (vm_sp s))%nat ->
         vm_stack s !! i = Some x -> vm_stack s' !! i = Some x.
Proof.
  intros Hsp. unfold bind at 1. rewrite (push_state v s Hsp).
  pose proof (grow_length (vm_sp s) (vm_stack s) Hsp) as Hlen.
  unfold pop, bind, modify, gets, stack_at, index. cbn.
  replace (vm_sp s + 1 - 1) with (vm_sp s) by lia.
  destruct (vm_sp s <? 0) eqn:Hneg; [apply Z.ltb_lt in Hneg; lia|].
  rewrite list_lookup_insert_eq by lia.
  eexists. split; [reflexivity|]. cbn.
  repeat apply conj.
  - reflexivity.
  - apply list_lookup_insert_eq. lia.
  - intros i x Hi Hx. rewrite list_lookup_insert_ne by lia.
    apply grow_lookup. exact Hx.
Qed.

Lemma push_then_pop_witness :
  exists s',
    (push (Some _null) ;;; pop) (vm_with_stack [Some _undefined])
    = Ok (Some _null) s' []
    /\ vm_sp s' = vm_sp (vm_with_stack [Some _undefined])
    /\ vm_stack s' !! Z.to_nat (vm_sp (vm_with_stack [Some _undefined]))
       = Some (Some _null)
    /\ forall i x, (i < Z.to_nat (vm_sp (vm_with_stack [Some _undefined])))%nat ->
         vm_stack (vm_with_stack [Some _undefined]) !! i = Some x ->
         vm_stack s' !! i = Some x.
Proof.
  apply (push_then_pop (Some _null) (vm_with_stack [Some _undefined])).
  cbn. lia.
Defined.

End FrameRoundTrips.

(* ===================================================================== *)
(** ** Bindings of a scope record *)
(* ===================================================================== *)

Section BindingProperties.

Context {host : Host} {layout : Layout}.

Lemma ldiff_lor (a b c : Z) :
  Z.ldiff (Z.lor a b) c = Z.lor (Z.ldiff a c) (Z.ldiff b c).
Proof.
  apply Z.bits_inj'. intros i Hi.
  rewrite Z.ldiff_spec, !Z.lor_spec, !Z.ldiff_spec.
  destruct (Z.testbit a i), (Z.testbit b i), (Z.testbit c i); reflexivity.
Qed.

Lemma ldiff_disjoint (n m : Z) : Z.land n m = 0 -> Z.ldiff n m = n.
Proof.
  intros H. apply Z.bits_inj'. intros i Hi.
  assert (Hb : Z.testbit (Z.land n m) i = false) by (rewrite H; apply Z.bits_0).
  rewrite Z.land_spec in Hb. rewrite Z.ldiff_spec.
  destruct (Z.testbit n i), (Z.testbit m i); try reflexivity; discriminate.
Qed.

Lemma land_within (n v m : Z) :
  Z.land n m = 0 -> Z.ldiff v m = 0 -> Z.land n v = 0.
Proof.
  intros Hn Hv. apply Z.bits_inj'. intros i Hi.
  assert (Hb : Z.testbit (Z.land n m) i = false) by (rewrite Hn; apply Z.bits_0).
  assert (Hc : Z.testbit (Z.ldiff v m) i = false) by (rewrite Hv; apply Z.bits_0).
  rewrite Z.land_spec in Hb. rewrite Z.ldiff_spec in Hc.
  rewrite Z.land_spec, Z.bits_0.
  destruct (Z.testbit n i), (Z.testbit m i), (Z.testbit v i);
    try reflexivity; discriminate.
Qed.

Lemma land_lor_absorb (a v : Z) : Z.land (Z.lor a v) v = v.
Proof.
  apply Z.bits_inj'. intros i Hi.
  rewrite Z.land_spec, Z.lor_spec.
  destruct (Z.testbit a i), (Z.testbit v i); reflexivity.
Qed.

(** The index a [var] binding is created with: its slot is the number
    of names, and it is marked as a [var]. *)
Lemma var_index (n : Z) (deletable : bool) :
  layout_ok -> 0 <= n < 2 ^ 32 -> Z.land n maskTyp = 0 ->
  let idx := Z.lor (uint32 n) maskVar in
  let idx := if deletable then Z.lor idx maskDeletable else idx in
  and_not idx maskTyp = n /\ Z.land idx maskVar <> 0.
Proof.
  intros (Hv & Hd & Hc & Hs & Hv0 & Hcv & Hsv) Hn Hfit. cbv zeta.
  unfold uint32, and_not. rewrite Z.mod_small by lia.
  destruct deletable.
  - split.
    + rewrite !ldiff_lor, Hv, Hd, (ldiff_disjoint _ _ Hfit), !Z.lor_0_r.
      reflexivity.
    + rewrite (Z.lor_comm (Z.lor n maskVar)), Z.lor_assoc, land_lor_absorb.
      exact Hv0.
  - split.
    + rewrite ldiff_lor, Hv, (ldiff_disjoint _ _ Hfit), Z.lor_0_r. reflexivity.
    + rewrite land_lor_absorb. exact Hv0.
Qed.

(** The index a lexical binding is created with. *)
Lemma lex_index (n : Z) (isConst : bool) :
  layout_ok -> 0 <= n < 2 ^ 32 -> Z.land n maskTyp = 0 ->
  let idx := uint32 n in
  let idx := if isConst then Z.lor idx (Z.lor maskConst maskStrict) else idx in
  and_not idx maskTyp = n /\ Z.land idx maskVar = 0.
Proof.
  intros (Hv & Hd & Hc & Hs & Hv0 & Hcv & Hsv) Hn Hfit. cbv zeta.
  unfold uint32, and_not. rewrite Z.mod_small by lia.
  pose proof (land_within _ _ _ Hfit Hv) as Hnv.
  destruct isConst.
  - split.
    + rewrite !ldiff_lor, Hc, Hs, (ldiff_disjoint _ _ Hfit), !Z.lor_0_r.
      reflexivity.
    + rewrite !Z.land_lor_distr_l, Hnv, Hcv, Hsv. reflexivity.
  - split; [apply ldiff_disjoint; exact Hfit | exact Hnv].
Qed.

Lemma names_len_nonneg (s : stash) : 0 <= names_len s.
Proof. unfold names_len. destruct (names s); lia. Qed.

Lemma index_snoc {A : Type} (l : list A) (x : A) (n : Z) :
  Z.of_nat (length l) = n -> index (l ++ [x]) n = Some x.
Proof.
  intros <-. unfold index. destruct (Z.of_nat (length l) <? 0) eqn:E.
  - apply Z.ltb_lt in E. lia.
  - rewrite Nat2Z.id. apply list_lookup_middle. reflexivity.
Qed.

(** X5: [getByName] never answers that a name exists with a [nil]
    value, and never hands back a value for a name that does not
    exist. *)
Theorem getByName_exists_value (name : string) (s : stash) (v : Slot) (e : bool) :
  getByName name s = Done (v, e) ->
  (e = true -> v <> None) /\ (e = false -> v = None).
Proof.
  unfold getByName. intros H.
  destruct (obj s) as [o|].
  - destruct (stashObjHas o name); injection H as <- <-;
      split; intro; congruence.
  - destruct (names_lookup s name) as [idx|].
    + destruct (index (values s) (and_not idx maskTyp)) as [[x|]|];
        [| destruct (Z.land idx maskVar =? 0) |]; try discriminate;
        injection H as <- <-; split; intro; congruence.
    + injection H as <- <-. split; intro; congruence.
Qed.

(** X6: the life of a binding in a scope record with one slot per
    name.  A name created with [createBinding] reads as [undefined]; a
    name created with [createLexBinding] cannot be read until it is
    initialized, and reads as the value it was initialized with. *)
Theorem binding_lifecycle (s : stash) (name : string) (deletable isConst : bool)
    (v : Value) :
  layout_ok ->
  one_slot_per_name s ->
  names_lookup s name = None ->
  getByName name (createBinding name deletable s) = Done (Some _undefined, true)
  /\ getByName name (createLexBinding name isConst s) = Raise errAccessBeforeInit
  /\ exists s',
       initByName name (Some v) (createLexBinding name isConst s) = Done s'
       /\ getByName name s' = Done (Some v, true).
Proof.
  intros Hlay (Hobj & Hlen & Hlt & Hfit) Hfresh.
  pose proof (names_len_nonneg s) as Hnn.
  pose proof (var_index (names_len s) deletable Hlay ltac:(lia) Hfit) as [Hvi Hvv].
  pose proof (lex_index (names_len s) isConst Hlay ltac:(lia) Hfit) as [Hli Hlv].
  cbv zeta in Hvi, Hvv, Hli, Hlv.
  destruct s as [vals ea nm ob ou va]. cbn in Hobj, Hlen, Hfresh. subst ob.
  repeat apply conj.
  - unfold createBinding, getByName.
    destruct nm as [m|]; cbn in *; rewrite ?Hfresh, ?lookup_empty; cbn;
      rewrite ?map_size_empty, ?Nat2Z.inj_0;
      rewrite lookup_insert_eq, Hvi, (index_snoc _ _ _ Hlen); reflexivity.
  - unfold createLexBinding, getByName.
    destruct nm as [m|]; cbn in *; rewrite ?Hfresh, ?lookup_empty; cbn;
      rewrite ?map_size_empty, ?Nat2Z.inj_0;
      apply Z.eqb_eq in Hlv;
      rewrite lookup_insert_eq, Hli, Hlv, (index_snoc _ _ _ Hlen); reflexivity.
  - unfold createLexBinding, initByName, getByName, store.
    destruct nm as [m|]; cbn in *; rewrite ?Hfresh, ?lookup_empty; cbn;
      rewrite ?map_size_empty, ?Nat2Z.inj_0;
      rewrite lookup_insert_eq, Hli, (index_snoc _ _ _ Hlen);
      (eexists; split; [reflexivity|]); cbn;
      rewrite lookup_insert_eq, Hli; unfold index;
      (destruct (_ <? 0) eqn:E; [apply Z.ltb_lt in E; lia|]);
      rewrite list_lookup_insert_eq by (rewrite length_app; cbn; lia);
      reflexivity.
Qed.

End BindingProperties.

Lemma binding_lifecycle_witness :
  getByName (host := small_host) (layout := top_bits) "x"
    (createBinding (layout := top_bits) "x" true empty_stash)
  = Done (Some _undefined, true)
  /\ getByName (host := small_host) (layout := top_bits) "x"
       (createLexBinding (layout := top_bits) "x" true empty_stash)
     = Raise errAccessBeforeInit
  /\ exists s',
       initByName (layout := top_bits) "x" (Some _null)
         (createLexBinding (layout := top_bits) "x" true empty_stash) = Done s'
       /\ getByName (host := small_host) (layout := top_bits) "x" s'
          = Done (Some _null, true).
Proof.
  apply (binding_lifecycle (host := small_host) (layout := top_bits)
           empty_stash "x" true true _null).
  - repeat apply conj; vm_compute; congruence.
  - repeat apply conj; vm_compute; congruence.
  - reflexivity.
Defined.

Lemma getByName_exists_value_witness :
  (true = true -> Some _undefined <> None)
  /\ (true = false -> Some _undefined = None).
Proof.
  apply (getByName_exists_value (host := small_host) (layout := top_bits) "x"
           (createBinding (layout := top_bits) "x" true empty_stash)).
  vm_compute. reflexivity.
Defined.

Section SlotReuse.

Context {host : Host} {layout : Layout}.

(** X7: a new binding takes the number of names as its slot, not the
    number of slots.  After [deleteBinding] has removed a name, the next
    [createBinding] therefore lands on the slot of the binding that was
    created last: a value initialized under the new name is read back
    under the old one. *)
Theorem deleted_slot_reused (s : stash) (a b c : string) (ib : Z)
    (deletable : bool) (v : Value) :
  layout_ok ->
  one_slot_per_name s ->
  is_Some (names_lookup s a) ->
  names_lookup s b = Some ib ->
  a <> b ->
  and_not ib maskTyp = names_len s - 1 ->
  Z.land (names_len s - 1) maskTyp = 0 ->
  names_lookup s c = None ->
  exists s',
    initByName c (Some v) (createBinding c deletable (deleteBinding a s)) = Done s'
    /\ getByName b s' = Done (Some v, true).
Proof.
  intros Hlay (Hobj & Hlen & Hlt & _) [ia Ha] Hb Hab Hslot Hfit Hc.
  destruct s as [vals ea nm ob ou va]. cbn in Hobj, Hlen, Ha, Hb, Hc, Hslot, Hfit, Hlt.
  subst ob. destruct nm as [m|]; [|discriminate].
  cbn in Hlen, Ha, Hb, Hc, Hslot, Hfit, Hlt.
  assert (Hca : c <> a) by congruence.
  assert (Hcb : c <> b) by congruence.
  assert (Hpos : (size m <> 0)%nat).
  { intros Hz. apply map_size_empty_inv in Hz. subst m.
    rewrite lookup_empty in Ha. discriminate. }
  assert (Hsize : Z.of_nat (size (delete a m)) = Z.of_nat (size m) - 1).
  { rewrite (map_size_delete_Some a m) by eauto. lia. }
  assert (Hrange : 0 <= Z.of_nat (size m) - 1 < 2 ^ 32) by lia.
  pose proof (var_index (Z.of_nat (size m) - 1) deletable Hlay Hrange Hfit)
    as [Hvi _].
  cbv zeta in Hvi.
  assert (Hin : exists x, index (vals ++ [Some _undefined]) (Z.of_nat (size m) - 1)
                          = Some x).
  { unfold index. destruct (_ <? 0) eqn:E; [apply Z.ltb_lt in E; lia|].
    apply lookup_lt_is_Some_2. rewrite length_app. unfold Slot in *. lia. }
  destruct Hin as [x Hin].
  unfold createBinding, deleteBinding, initByName, getByName, store.
  cbn -[index]. rewrite lookup_delete_ne, Hc by congruence. cbn -[index].
  rewrite lookup_insert_eq, Hsize, Hvi, Hin.
  eexists. split; [reflexivity|]. cbn -[index].
  rewrite lookup_insert_ne, lookup_delete_ne, Hb, Hslot by congruence.
  unfold index. destruct (_ <? 0) eqn:E; [apply Z.ltb_lt in E; lia|].
  rewrite list_lookup_insert_eq
    by (rewrite length_app; cbn; unfold Slot in *; lia).
  reflexivity.
Qed.

End SlotReuse.

Lemma deleted_slot_reused_witness :
  let s := createBinding (layout := top_bits) "b" true
             (createBinding (layout := top_bits) "a" true empty_stash) in
  exists s',
    initByName (layout := top_bits) "c" (Some _null)
      (createBinding (layout := top_bits) "c" true (deleteBinding "a" s)) = Done s'
    /\ getByName (host := small_host) (layout := top_bits) "b" s'
       = Done (Some _null, true).
Proof.
  intros s.
  apply (deleted_slot_reused (host := small_host) (layout := top_bits)
           s "a" "b" "c" (Z.lor (Z.lor 1 (2 ^ 30)) (2 ^ 29)) true _null).
  - repeat apply conj; vm_compute; congruence.
  - repeat apply conj; vm_compute; congruence.
  - vm_compute. eauto.
  - vm_compute. reflexivity.
  - discriminate.
  - vm_compute. reflexivity.
  - vm_compute. reflexivity.
  - vm_compute. reflexivity.
Defined.

(* ===================================================================== *)
(** ** Remainder, negation, increment and decrement *)
(* ===================================================================== *)

Section ArithmeticProperties.

Context {host : Host} {layout : Layout}.

Variable math_Mod : float64 -> float64 -> float64.

Lemma intToValue_safe (i : Z) :
  - maxInt <= i <= maxInt -> intToValue i = valueInt i.
Proof.
  intros Hi. unfold intToValue.
  destruct ((- maxInt <=? i) && (i <=? maxInt)) eqn:E.
  - destruct ((-128 <=? i) && (i <=? 127)); reflexivity.
  - apply andb_false_iff in E as [E|E]; apply Z.leb_gt in E; lia.
Qed.

Lemma rem_within (l r : Z) : r <> 0 -> Z.abs (Z.rem l r) <= Z.abs l.
Proof.
  intros Hr. rewrite <- Z.rem_abs by exact Hr.
  apply Z.rem_le; lia.
Qed.

(** X8: the remainder of two integers is computed on the integers, so
    the library's [math.Mod] plays no part in it: a zero divisor gives
    [NaN]; otherwise the result is the remainder of the truncated
    division, which takes the sign of the dividend, a zero remainder of
    a negative dividend being the negative zero. *)
Theorem mod_of_integers (l r : Z) :
  - maxInt <= l <= maxInt ->
  mod_result math_Mod (valueInt l) (valueInt r)
  = (if r =? 0 then _NaN
     else if (Z.rem l r =? 0) && (l <? 0) then _negativeZero
     else valueInt (Z.rem l r))
  /\ (r <> 0 ->
      l = r * Z.quot l r + Z.rem l r
      /\ Z.abs (Z.rem l r) < Z.abs r
      /\ 0 <= Z.rem l r * l).
Proof.
  intros Hl. split.
  - unfold mod_result, int64_rem. cbn.
    destruct (r =? 0) eqn:Hr; [reflexivity|].
    apply Z.eqb_neq in Hr.
    destruct ((Z.rem l r =? 0) && (l <? 0)); [reflexivity|].
    apply intToValue_safe. pose proof (rem_within l r Hr). lia.
  - intros Hr. repeat apply conj.
    + apply Z.quot_rem'.
    + apply Z.rem_bound_abs. exact Hr.
    + apply Z.rem_sign_mul. exact Hr.
Qed.

(** X9: negating the integer zero gives the negative zero; negating
    another integer gives the integer of opposite sign, so that negating
    twice gives the operand back, except for the least [int64], which
    is its own negation. *)
Theorem neg_of_integers (i : Z) :
  int64_range i ->
  neg_result (valueInt i)
  = (if i =? 0 then _negativeZero
     else if i =? minInt64 then valueInt minInt64
     else valueInt (- i))
  /\ (i <> 0 -> i <> minInt64 ->
      neg_result (neg_result (valueInt i)) = valueInt i).
Proof.
  intros Hi. unfold int64_range, minInt64, maxInt64 in Hi.
  assert (Hneg : forall j, int64_range j -> j <> 0 ->
            neg_result (valueInt j)
            = valueInt (if j =? minInt64 then minInt64 else - j)).
  { intros j Hj Hj0. unfold neg_result, int64_neg. cbn.
    apply Z.eqb_neq in Hj0. rewrite Hj0. f_equal.
    unfold int64_range, minInt64, maxInt64 in Hj.
    destruct (j =? minInt64) eqn:E.
    - apply Z.eqb_eq in E. subst j. reflexivity.
    - apply Z.eqb_neq in E. unfold minInt64 in E.
      apply wrap64_id. unfold int64_range, minInt64, maxInt64. lia. }
  split.
  - destruct (i =? 0) eqn:E0.
    + apply Z.eqb_eq in E0. subst i. reflexivity.
    + apply Z.eqb_neq in E0. rewrite (Hneg i) by (assumption || exact Hi).
      destruct (i =? minInt64); reflexivity.
  - intros H0 Hmin. rewrite (Hneg i) by (assumption || exact Hi).
    apply Z.eqb_neq in Hmin. rewrite Hmin.
    apply Z.eqb_neq in Hmin. unfold minInt64 in Hmin.
    rewrite Hneg.
    + assert ((- i =? minInt64) = false) as ->
        by (apply Z.eqb_neq; unfold minInt64; lia).
      f_equal. lia.
    + unfold int64_range, minInt64, maxInt64. lia.
    + lia.
Qed.

(** X10: on the integers a double holds exactly, increment and
    decrement undo each other, but for the two ends of that range: there
    the first step leaves the range and is rounded back to the end, and
    the way back lands one short of it. *)
Theorem inc_dec_round_trip (i : Z) :
  - maxInt <= i <= maxInt ->
  dec_result (inc_result (valueInt i))
  = valueInt (if i =? maxInt then maxInt - 1 else i)
  /\ inc_result (dec_result (valueInt i))
     = valueInt (if i =? - maxInt then - maxInt + 1 else i).
Proof.
  intros Hi. unfold maxInt in Hi. split.
  - destruct (i =? maxInt) eqn:E.
    + apply Z.eqb_eq in E. subst i. vm_compute. reflexivity.
    + apply Z.eqb_neq in E. unfold maxInt in E.
      unfold inc_result at 1. cbn. unfold int64_add.
      rewrite wrap64_id by (unfold int64_range, minInt64, maxInt64; lia).
      rewrite intToValue_safe by (unfold maxInt; lia).
      unfold dec_result. cbn. unfold int64_sub.
      rewrite wrap64_id by (unfold int64_range, minInt64, maxInt64; lia).
      rewrite intToValue_safe by (unfold maxInt; lia).
      f_equal. lia.
  - destruct (i =? - maxInt) eqn:E.
    + apply Z.eqb_eq in E. subst i. vm_compute. reflexivity.
    + apply Z.eqb_neq in E. unfold maxInt in E.
      unfold dec_result at 1. cbn. unfold int64_sub.
      rewrite wrap64_id by (unfold int64_range, minInt64, maxInt64; lia).
      rewrite intToValue_safe by (unfold maxInt; lia).
      unfold inc_result. cbn. unfold int64_add.
      rewrite wrap64_id by (unfold int64_range, minInt64, maxInt64; lia).
      rewrite intToValue_safe by (unfold maxInt; lia).
      f_equal. lia.
Qed.

End ArithmeticProperties.

Lemma mod_of_integers_witness :
  mod_result (host := small_host) (fun x _ => x) (valueInt (-4)) (valueInt 2)
  = _negativeZero.
Proof.
  apply (proj1 (mod_of_integers (host := small_host) (fun x _ => x) (-4) 2
                  ltac:(vm_compute; split; discriminate))).
Defined.

Lemma neg_of_integers_witness :
  neg_result (host := small_host) (valueInt minInt64) = valueInt minInt64.
Proof.
  apply (proj1 (neg_of_integers (host := small_host) minInt64
                  ltac:(vm_compute; split; discriminate))).
Defined.

Lemma inc_dec_round_trip_witness :
  dec_result (host := small_host) (inc_result (host := small_host) (valueInt maxInt))
  = valueInt (maxInt - 1).
Proof.
  apply (proj1 (inc_dec_round_trip (host := small_host) maxInt
                  ltac:(vm_compute; split; discriminate))).
Defined.

(* ===================================================================== *)
(** ** Calls *)
(* ===================================================================== *)

Section CallLimit.

Context {host : Host} {layout : Layout}.

(** X11: at the depth limit of the runtime a call of an object raises
    the range error before the callee is looked at: the machine is left
    as it was and nothing outside is called, whether the object is a
    scripted function, a native function, a proxy or not a function at
    all. *)
Theorem call_depth_limit (n : Z) (o : ObjRef) (s : vm) :
  index (vm_stack s) (vm_sp s - n - 1) = Some (Some (valueObject o)) ->
  stackDepthLimit (vm_r s) <> 0 ->
  stackDepthLimit (vm_r s) <= Z.of_nat (length (vm_callStack s)) + 1 ->
  call_exec n s = Panic call_stack_exceeded s [].
Proof.
  intros Hcallee Hlim Hdeep.
  assert (Hcond : negb (stackDepthLimit (vm_r s) =? 0)
                  && (stackDepthLimit (vm_r s)
                      <=? Z.of_nat (length (vm_callStack s)) + 1) = true).
  { apply andb_true_iff. split.
    - apply negb_true_iff. apply Z.eqb_neq. exact Hlim.
    - apply Z.leb_le. exact Hdeep. }
  cbv beta iota delta [call_exec bind gets stack_at toCallee ret].
  rewrite Hcallee. cbv beta iota.
  destruct (self o); cbn; rewrite Hcond; reflexivity.
Qed.

End CallLimit.

Lemma call_depth_limit_witness :
  let s := mkVm (mkRuntime 0%nat 1%nat 1) None "" 0
             [Some _undefined; Some (valueObject 2%nat)]
             2 (-1) 0 None [] [] [] None None 0 0 false in
  call_exec (host := small_host) 0 s = Panic call_stack_exceeded s [].
Proof.
  intros s. apply (call_depth_limit (host := small_host) 0 2%nat s).
  - reflexivity.
  - discriminate.
  - vm_compute. discriminate.
Defined.

Section VariadicProperties.

Context {host : Host} {layout : Layout}.

Variable variadicMarker : Value.

Lemma count_down_marker (pre vs rest : list Slot) (count : Z) :
  Forall (fun v => v <> Some variadicMarker) vs ->
  count_down variadicMarker (pre ++ Some variadicMarker :: vs ++ rest)
    (length pre + 1 + length vs) count
  = Done (count + Z.of_nat (length vs)).
Proof.
  revert rest count. induction vs as [|x vs IH] using rev_ind; intros rest count Hvs.
  - cbn [length app]. rewrite Nat.add_0_r, Nat.add_1_r. cbn [count_down].
    rewrite list_lookup_middle by reflexivity.
    rewrite bool_decide_eq_true_2 by reflexivity.
    f_equal. lia.
  - apply Forall_app in Hvs as [Hvs Hx]. apply Forall_inv in Hx.
    rewrite length_app. cbn [length].
    replace (length pre + 1 + (length vs + 1))%nat
      with (S (length pre + 1 + length vs)) by lia.
    cbn [count_down]. rewrite <- (app_assoc vs [x] rest). cbn [app].
    replace (pre ++ Some variadicMarker :: vs ++ x :: rest)
      with ((pre ++ Some variadicMarker :: vs) ++ x :: rest)
      by (rewrite <- app_assoc; reflexivity).
    rewrite list_lookup_middle by (rewrite length_app; cbn; lia).
    rewrite bool_decide_eq_false_2 by exact Hx.
    rewrite <- app_assoc. cbn [app].
    etrans; [exact (IH (x :: rest) (count + 1) Hvs)|].
    f_equal. lia.
Qed.

Lemma count_down_no_marker (st : list Slot) (n : nat) (count : Z) :
  (n <= length st)%nat ->
  Forall (fun v => v <> Some variadicMarker) (take n st) ->
  count_down variadicMarker st n count = Raise marker_not_found.
Proof.
  revert count. induction n as [|n IH]; intros count Hn Hall; [reflexivity|].
  cbn [count_down].
  destruct (st !! n) as [v|] eqn:Hv; [|apply lookup_ge_None in Hv; unfold Slot in *; lia].
  rewrite (take_S_r st n v Hv) in Hall.
  apply Forall_app in Hall as [Hall Hx]. apply Forall_inv in Hx.
  rewrite bool_decide_eq_false_2 by exact Hx.
  apply IH; [lia | exact Hall].
Qed.

(** X12: [countVariadicArgs] counts the slots between the topmost
    marker and the stack pointer, whatever lies below the marker; with
    no marker below the stack pointer it panics. *)
Theorem variadic_count (pre vs rest : list Slot) (s : vm) :
  vm_stack s = pre ++ Some variadicMarker :: vs ++ rest ->
  vm_sp s = Z.of_nat (length pre + 1 + length vs) ->
  Forall (fun v => v <> Some variadicMarker) vs ->
  countVariadicArgs variadicMarker s = Ok (Z.of_nat (length vs)) s []
  /\ forall s0,
       vm_sp s0 = Z.of_nat (length vs) ->
       vm_stack s0 = vs ++ rest ->
       countVariadicArgs variadicMarker s0 = Panic marker_not_found s0 [].
Proof.
  intros Hst Hsp Hvs. split.
  - unfold countVariadicArgs, bind, get. rewrite Hst, Hsp, Nat2Z.id.
    rewrite (count_down_marker pre vs rest 0 Hvs). reflexivity.
  - intros s0 Hsp0 Hst0.
    unfold countVariadicArgs, bind, get. rewrite Hst0, Hsp0, Nat2Z.id.
    rewrite count_down_no_marker; [reflexivity | rewrite length_app; lia |].
    rewrite take_app_length. exact Hvs.
Qed.

End VariadicProperties.

Lemma variadic_count_witness :
  let s := vm_with_stack
             [Some (valueSymbol "m"); Some _null; Some (valueSymbol "m");
              Some _undefined; Some _null] in
  countVariadicArgs (valueSymbol "m") s = Ok 2 s [].
Proof.
  intros s.
  apply (proj1 (variadic_count (valueSymbol "m")
                  [Some (valueSymbol "m"); Some _null]
                  [Some _undefined; Some _null] [] s
                  eq_refl eq_refl
                  ltac:(repeat constructor; discriminate))).
Defined.

(* ===================================================================== *)
(** ** Lexical variables on the stack and blocks *)
(* ===================================================================== *)

Section StackVariables.

Context {host : Host} {layout : Layout}.

Lemma index_Some_range {A : Type} (l : list A) (i : Z) (x : A) :
  index l i = Some x -> 0 <= i < Z.of_nat (length l).
Proof.
  unfold index. destruct (i <? 0) eqn:E; [discriminate|].
  apply Z.ltb_ge in E. intros H. apply lookup_lt_Some in H. lia.
Qed.

Lemma index_insert_eq {A : Type} (l : list A) (i : Z) (x y : A) :
  index l i = Some y -> index (<[Z.to_nat i := x]> l) i = Some x.
Proof.
  intros H. pose proof (index_Some_range _ _ _ H) as Hr. unfold index.
  destruct (i <? 0) eqn:E; [apply Z.ltb_lt in E; lia|].
  apply list_lookup_insert_eq. lia.
Qed.

Lemma index_insert_ne {A : Type} (l : list A) (i j : Z) (x : A) :
  0 <= i -> i <> j -> index (<[Z.to_nat i := x]> l) j = index l j.
Proof.
  intros Hi Hij. unfold index. destruct (j <? 0) eqn:E; [reflexivity|].
  apply Z.ltb_ge in E. apply list_lookup_insert_ne. lia.
Qed.

(** X13: a lexical variable kept on the stack.  While its slot is
    empty it can be neither read nor assigned: both raise the
    access-before-initialization error and leave the machine as it was.
    [initStack1] fills the slot from the top of the stack and pops;
    after that the variable reads as that value. *)
Theorem stack_lexical_lifecycle (l : Z) (v : Value) (s : vm) :
  0 < l ->
  index (vm_stack s) (vm_sb s + l) = Some None ->
  index (vm_stack s) (vm_sp s - 1) = Some (Some v) ->
  loadStack1Lex_exec l s = Panic errAccessBeforeInit s []
  /\ storeStack1Lex_exec l s = Panic errAccessBeforeInit s []
  /\ exists s1,
       initStack1_exec l s = Ok tt s1 []
       /\ vm_sp s1 = vm_sp s - 1
       /\ index (vm_stack s1) (vm_sb s1 + l) = Some (Some v)
       /\ top_of (loadStack1Lex_exec l s1) = Some (Some v).
Proof.
  intros Hl Hslot Htop.
  assert (Hl' : (l <=? 0) = false) by (apply Z.leb_gt; exact Hl).
  pose proof (index_Some_range _ _ _ Htop) as Hsp.
  repeat apply conj.
  - unfold loadStack1Lex_exec, bind, get, stack_at. rewrite Hslot. reflexivity.
  - unfold storeStack1Lex_exec, storeStack1Lex. rewrite Hl'.
    unfold bind, get, stack_at. rewrite Hslot. reflexivity.
  - unfold initStack1_exec, initStack1. rewrite Hl'.
    unfold bind, get, stack_at, stack_put, store, sp_decr, pc_incr, modify.
    rewrite Htop, Hslot. eexists. split; [reflexivity|]. cbn.
    pose proof (index_insert_eq (vm_stack s) (vm_sb s + l) (Some v) None Hslot)
      as Hnew.
    repeat apply conj; [reflexivity | exact Hnew |].
    unfold loadStack1Lex_exec, bind, get, stack_at. cbn. rewrite Hnew.
    rewrite push_state by (cbn; lia). cbn.
    unfold index. destruct (_ <? 0) eqn:E; [apply Z.ltb_lt in E; lia|].
    replace (Z.to_nat (vm_sp s - 1 + 1 - 1)) with (Z.to_nat (vm_sp s - 1)) by lia.
    apply list_lookup_insert_eq.
    pose proof (grow_length (vm_sp s - 1)
                  (<[Z.to_nat (vm_sb s + l) := Some v]> (vm_stack s))
                  ltac:(lia)).
    unfold Slot in *. lia.
Qed.

End StackVariables.

Lemma stack_lexical_lifecycle_witness :
  let s := with_sb 0 (vm_with_stack [Some _undefined; None; Some _null]) in
  loadStack1Lex_exec 1 s = Panic errAccessBeforeInit s []
  /\ storeStack1Lex_exec 1 s = Panic errAccessBeforeInit s []
  /\ exists s1,
       initStack1_exec 1 s = Ok tt s1 []
       /\ vm_sp s1 = vm_sp s - 1
       /\ index (vm_stack s1) (vm_sb s1 + 1) = Some (Some _null)
       /\ top_of (loadStack1Lex_exec 1 s1) = Some (Some _null).
Proof.
  intros s. apply (stack_lexical_lifecycle 1 _null s).
  - lia.
  - reflexivity.
  - reflexivity.
Defined.

Section BlockProperties.

Context {host : Host} {layout : Layout}.

Lemma grow_length_ge (idx : Z) (st : list Slot) :
  idx + 1 <= Z.of_nat (length (grow idx st))
  /\ (length st <= length (grow idx st))%nat.
Proof.
  unfold grow. destruct (idx <? Z.of_nat (length st)) eqn:Hlt.
  - apply Z.ltb_lt in Hlt. lia.
  - apply Z.ltb_ge in Hlt. rewrite length_app, length_replicate. lia.
Qed.

Lemma fresh_slots_spec (sp : Z) (ss : nat) (st : list Slot) :
  0 <= sp ->
  (forall i, sp <= i < sp + Z.of_nat ss ->
     index (fresh_slots sp ss st) i = Some None)
  /\ (forall i x, i < sp -> index st i = Some x ->
        index (fresh_slots sp ss st) i = Some x).
Proof.
  intros Hsp. unfold fresh_slots. cbv zeta.
  pose proof (grow_length_ge (sp + Z.of_nat ss - 1) st) as [Hlen Hmono].
  set (st' := grow (sp + Z.of_nat ss - 1) st) in *.
  assert (Htake : length (take (Z.to_nat sp) st') = Z.to_nat sp)
    by (rewrite length_take; unfold Slot in *; lia).
  split.
  - intros i Hi. unfold index.
    destruct (i <? 0) eqn:E; [apply Z.ltb_lt in E; lia|].
    rewrite lookup_app_r by (rewrite Htake; lia).
    rewrite Htake, lookup_app_l by (rewrite length_replicate; lia).
    apply lookup_replicate_2. lia.
  - intros i x Hi Hx. pose proof (index_Some_range _ _ _ Hx) as Hr.
    unfold index in *. destruct (i <? 0); [discriminate|].
    rewrite lookup_app_l by (rewrite Htake; lia).
    rewrite lookup_take_lt by lia. subst st'. apply grow_lookup. exact Hx.
Qed.

Lemma alloc_slots (ss : nat) (s : vm) :
  0 <= vm_sp s ->
  (sp <- gets vm_sp ;;
   let ss := Z.of_nat ss in
   stack_expand (sp + ss - 1) ;;;
   fill sp (sp + ss) None ;;;
   modify (with_sp (sp + ss)) ;;;
   pc_incr) s
  = Ok tt (with_pc (vm_pc s + 1)
             (with_sp (vm_sp s + Z.of_nat ss)
                (with_stack (fresh_slots (vm_sp s) ss (vm_stack s)) s))) [].
Proof.
  intros Hsp. rewrite bind_gets. cbv zeta.
  unfold stack_expand. rewrite bind_modify.
  pose proof (grow_length_ge (vm_sp s + Z.of_nat ss - 1) (vm_stack s)) as [Hlen _].
  assert (Hfill :
    fill (vm_sp s) (vm_sp s + Z.of_nat ss) None
      (with_stack (grow (vm_sp s + Z.of_nat ss - 1) (vm_stack s)) s)
    = Ok tt (with_stack (fresh_slots (vm_sp s) ss (vm_stack s)) s) []).
  { unfold fill, fresh_slots. cbn [vm_stack with_stack].
    assert (((0 <=? vm_sp s) && (vm_sp s <=? vm_sp s + Z.of_nat ss)
             && (vm_sp s + Z.of_nat ss
                 <=? Z.of_nat (length (grow (vm_sp s + Z.of_nat ss - 1) (vm_stack s)))))
            = true) as ->.
    { rewrite !andb_true_iff, !Z.leb_le. lia. }
    cbv zeta.
    replace (Z.to_nat (vm_sp s + Z.of_nat ss - vm_sp s)) with ss by lia.
    replace (Z.to_nat (vm_sp s + Z.of_nat ss)) with (Z.to_nat (vm_sp s) + ss)%nat
      by lia.
    destruct s; reflexivity. }
  rewrite (bind_Ok_nil _ _ _ _ _ Hfill), bind_modify.
  unfold pc_incr, modify. destruct s; reflexivity.
Qed.

(** X14: [enterBlock] gives the block its stack slots empty, whatever
    the stack held there before, and leaves the slots below the stack
    pointer alone; a block with variables in a scope record gets a new
    record in front of the scope chain, every variable of it empty.  The
    matching [leaveBlock] puts the stack pointer and the scope chain
    back. *)
Theorem block_round_trip (e_names : gmap string Z) (stashSize stackSize : nat)
    (s : vm) :
  0 <= vm_sp s ->
  exists s1 s2,
    enterBlock_exec e_names stashSize stackSize s = Ok tt s1 []
    /\ vm_sp s1 = vm_sp s + Z.of_nat stackSize
    /\ vm_stash s1 = block_stash e_names stashSize (vm_stash s)
    /\ (forall i, vm_sp s <= i < vm_sp s1 -> index (vm_stack s1) i = Some None)
    /\ (forall i x, i < vm_sp s -> index (vm_stack s) i = Some x ->
          index (vm_stack s1) i = Some x)
    /\ leaveBlock_exec stackSize (0 <? stashSize)%nat s1 = Ok tt s2 []
    /\ vm_sp s2 = vm_sp s
    /\ vm_stash s2 = vm_stash s
    /\ vm_stack s2 = vm_stack s1
    /\ vm_pc s2 = vm_pc s + 2.
Proof.
  intros Hsp.
  pose proof (fresh_slots_spec (vm_sp s) stackSize (vm_stack s) Hsp) as [Hnew Hold].
  assert (Hstash : exists s0,
    (if (0 <? stashSize)%nat then
       newStash ;;;
       on_stash (set_values (replicate stashSize None)) ;;;
       (if (0 <? size e_names)%nat then on_stash (set_names (Some e_names))
        else ret tt)
     else ret tt) s = Ok tt s0 []
    /\ vm_sp s0 = vm_sp s /\ vm_stack s0 = vm_stack s /\ vm_pc s0 = vm_pc s
    /\ vm_stash s0 = block_stash e_names stashSize (vm_stash s)).
  { unfold block_stash.
    destruct (0 <? stashSize)%nat; [|eexists; repeat apply conj; reflexivity].
    destruct (0 <? size e_names)%nat;
      eexists; (split; [reflexivity|]); repeat apply conj; reflexivity. }
  destruct Hstash as (s0 & Hrun & Hsp0 & Hst0 & Hpc0 & Hstash0).
  assert (Hleave : forall st1 pc1, exists s2,
    leaveBlock_exec stackSize (0 <? stashSize)%nat
      (with_pc pc1 (with_sp (vm_sp s + Z.of_nat stackSize) (with_stack st1 s0)))
    = Ok tt s2 []
    /\ vm_sp s2 = vm_sp s /\ vm_stash s2 = vm_stash s
    /\ vm_stack s2 = st1 /\ vm_pc s2 = pc1 + 1).
  { intros st1 pc1. unfold leaveBlock_exec, block_stash in *.
    destruct (0 <? stashSize)%nat.
    - rewrite bind_Ok_nil
        with (s1 := with_stash (vm_stash s)
                      (with_pc pc1 (with_sp (vm_sp s + Z.of_nat stackSize)
                                      (with_stack st1 s0)))) (a := tt).
      2:{ rewrite bind_get. cbn [vm_stash with_pc with_sp with_stack].
          rewrite Hstash0. reflexivity. }
      destruct (0 <? stackSize)%nat eqn:Hss.
      + rewrite bind_modify. eexists. split; [reflexivity|]. cbn.
        repeat apply conj; try reflexivity. lia.
      + rewrite bind_ret. eexists. split; [reflexivity|]. cbn.
        apply Nat.ltb_ge in Hss. repeat apply conj; try reflexivity. lia.
    - rewrite bind_ret.
      destruct (0 <? stackSize)%nat eqn:Hss.
      + rewrite bind_modify. eexists. split; [reflexivity|]. cbn.
        repeat apply conj; try reflexivity; [lia | exact Hstash0].
      + rewrite bind_ret. eexists. split; [reflexivity|]. cbn.
        apply Nat.ltb_ge in Hss.
        repeat apply conj; try reflexivity; [lia | exact Hstash0]. }
  unfold enterBlock_exec. rewrite (bind_Ok_nil _ _ _ _ _ Hrun).
  rewrite alloc_slots by lia. rewrite Hsp0, Hst0, Hpc0.
  destruct (Hleave (fresh_slots (vm_sp s) stackSize (vm_stack s)) (vm_pc s + 1))
    as (s2 & Hl & Hl1 & Hl2 & Hl3 & Hl4).
  eexists. exists s2. split; [reflexivity|].
  cbn [vm_sp vm_stash vm_stack vm_pc with_pc with_sp with_stack].
  repeat apply conj; try assumption.
  - reflexivity.
  - lia.
Qed.

End BlockProperties.

Lemma block_round_trip_witness :
  let s := vm_with_stack [Some _null] in
  exists s1 s2,
    enterBlock_exec ∅ 1 2 s = Ok tt s1 []
    /\ vm_sp s1 = vm_sp s + Z.of_nat 2
    /\ vm_stash s1 = block_stash ∅ 1 (vm_stash s)
    /\ (forall i, vm_sp s <= i < vm_sp s1 -> index (vm_stack s1) i = Some None)
    /\ (forall i x, i < vm_sp s -> index (vm_stack s) i = Some x ->
          index (vm_stack s1) i = Some x)
    /\ leaveBlock_exec 2 (0 <? 1)%nat s1 = Ok tt s2 []
    /\ vm_sp s2 = vm_sp s
    /\ vm_stash s2 = vm_stash s
    /\ vm_stack s2 = vm_stack s1
    /\ vm_pc s2 = vm_pc s + 2.
Proof.
  intros s. apply (block_round_trip ∅ 1 2 s). cbn. lia.
Defined.

Section StackCapacity.

(** X15: [expand] reallocates only when the new length does not stay
    below the capacity, the case of equality included; it then asks for
    twice the new length while that is below 1024 elements, and above
    that for a multiple of 1024 that leaves room for more than one
    further element. *)
Theorem expand_capacity (idx : Z) (s : valueStack) :
  cleared s ->
  Z.of_nat (vlen s) <= idx ->
  (idx + 1 < Z.of_nat (vcap s) -> backing (expand idx s) = backing s)
  /\ (Z.of_nat (vcap s) <= idx + 1 ->
      let c := Z.of_nat (vcap (expand idx s)) in
      (idx + 1 < 1024 -> c = 2 * (idx + 1))
      /\ (1024 <= idx + 1 -> idx + 2 < c <= idx + 1026 /\ c mod 1024 = 0)).
Proof.
  intros Hc Hidx. pose proof (cleared_visible_length s Hc) as Hlen.
  unfold expand. apply Z.ltb_ge in Hidx. rewrite Hidx. apply Z.ltb_ge in Hidx.
  cbv zeta. split.
  - intros Hcap. apply Z.ltb_lt in Hcap. rewrite Hcap. reflexivity.
  - intros Hcap. apply Z.ltb_ge in Hcap. rewrite Hcap.
    pose proof (new_cap_bounds (idx + 1) ltac:(lia)) as (Hge & Hsmall & Hbig).
    assert (Hnew : Z.of_nat (vcap
              {| backing := visible s
                            ++ replicate (Z.to_nat (new_cap (idx + 1)) - vlen s) None;
                 vlen := Z.to_nat (idx + 1) |}) = new_cap (idx + 1)).
    { unfold vcap. cbn [backing].
      rewrite length_app, Hlen, length_replicate. lia. }
    rewrite !Hnew. split.
    + intros Hlt. rewrite (Hsmall Hlt). reflexivity.
    + intros Hle. destruct (Hbig Hle) as [Hb Hm]. split; [lia | exact Hm].
Qed.

Lemma expand_capacity_witness :
  let s := mkValueStack [Some _undefined; None] 1 in
  (1 + 1 < Z.of_nat (vcap s) -> backing (expand 1 s) = backing s)
  /\ (Z.of_nat (vcap s) <= 1 + 1 ->
      let c := Z.of_nat (vcap (expand 1 s)) in
      (1 + 1 < 1024 -> c = 2 * (1 + 1))
      /\ (1024 <= 1 + 1 -> 1 + 2 < c <= 1 + 1026 /\ c mod 1024 = 0)).
Proof.
  intros s. apply (expand_capacity 1 s).
  - split; [cbn; lia | reflexivity].
  - cbn. lia.
Defined.

End StackCapacity.

(* ===================================================================== *)
(** ** Variables in scope records *)
(* ===================================================================== *)

Section StashVariables.

Context {host : Host} {layout : Layout}.

Lemma update_at_done (n : nat) (f : stash -> Result stash) (chain : option stash)
    (sc sc' : stash) :
  outer_at n chain = Done (Some sc) ->
  f sc = Done sc' ->
  exists chain',
    update_at n f chain = Done chain'
    /\ outer_at n chain' = Done (Some sc').
Proof.
  revert chain. induction n as [|n IH]; intros chain Hat Hf.
  - cbn in Hat. injection Hat as ->. cbn. rewrite Hf. eexists. split; reflexivity.
  - destruct chain as [s0|]; [|discriminate]. cbn in Hat.
    destruct (IH _ Hat Hf) as (o & Hup & Hout).
    cbn. rewrite Hup. eexists. split; [reflexivity|].
    cbn. destruct s0; exact Hout.
Qed.

Lemma update_at_raise (n : nat) (f : stash -> Result stash) (chain : option stash)
    (sc : stash) (x : PanicVal) :
  outer_at n chain = Done (Some sc) ->
  f sc = Raise x ->
  update_at n f chain = Raise x.
Proof.
  revert chain. induction n as [|n IH]; intros chain Hat Hf.
  - cbn in Hat. injection Hat as ->. cbn. rewrite Hf. reflexivity.
  - destruct chain as [s0|]; [|discriminate]. cbn in Hat.
    cbn. rewrite (IH _ Hat Hf). reflexivity.
Qed.

Lemma top_of_push (v : Slot) (s : vm) :
  0 <= vm_sp s -> top_of ((push v ;;; pc_incr) s) = Some v.
Proof.
  intros Hsp. rewrite (bind_Ok_nil _ _ _ _ _ (push_state v s Hsp)).
  unfold pc_incr, modify, top_of. cbn.
  replace (vm_sp s + 1 - 1) with (vm_sp s) by lia.
  unfold index. destruct (_ <? 0) eqn:E; [apply Z.ltb_lt in E; lia|].
  apply list_lookup_insert_eq.
  pose proof (grow_length (vm_sp s) (vm_stack s) Hsp). unfold Slot in *. lia.
Qed.

Lemma stash_at_eq (g : Z) (s : vm) (sc : stash) :
  outer_at (stash_level g) (vm_stash s) = Done (Some sc) ->
  stash_at g s = Ok sc s [].
Proof. intros Hat. unfold stash_at. rewrite bind_get, Hat. reflexivity. Qed.

(** X16: a lexical variable kept in a scope record, addressed by level
    and index.  While its slot is empty, [loadStashLex] and
    [storeStashLex] raise the access-before-initialization error and
    leave the machine as it was, whereas [loadStash] reads it as
    [undefined].  [initStash] fills the slot of the record at that level
    from the top of the stack and pops; after that [loadStashLex] with
    the same operand pushes that value. *)
Theorem stash_lexical_lifecycle (g : Z) (v : Value) (sc : stash) (s : vm) :
  outer_at (stash_level g) (vm_stash s) = Done (Some sc) ->
  obj sc = None ->
  index (values sc) (stash_idx g) = Some None ->
  index (vm_stack s) (vm_sp s - 1) = Some (Some v) ->
  loadStashLex_exec g s = Panic errAccessBeforeInit s []
  /\ storeStashLex_exec g s = Panic errAccessBeforeInit s []
  /\ top_of (loadStash_exec g s) = Some (Some _undefined)
  /\ exists s1,
       initStash_exec g s = Ok tt s1 []
       /\ vm_sp s1 = vm_sp s - 1
       /\ vm_stack s1 = vm_stack s
       /\ top_of (loadStashLex_exec g s1) = Some (Some v).
Proof.
  intros Hat Hobj Hslot Htop.
  pose proof (index_Some_range _ _ _ Htop) as Hsp.
  pose proof (stash_at_eq g s sc Hat) as Hstash_at.
  repeat apply conj.
  - unfold loadStashLex_exec. rewrite (bind_Ok_nil _ _ _ _ _ Hstash_at).
    unfold getByIdx. rewrite Hslot. reflexivity.
  - unfold storeStashLex_exec, setLocalLex.
    cbv beta iota delta [bind get stack_at]. rewrite Htop. cbv beta iota.
    rewrite (update_at_raise _ _ _ sc errAccessBeforeInit Hat);
      [reflexivity|].
    unfold stashRefLex_set. rewrite Hslot. reflexivity.
  - unfold loadStash_exec. rewrite (bind_Ok_nil _ _ _ _ _ Hstash_at).
    unfold getByIdx. rewrite Hslot. cbn [lift]. rewrite bind_ret.
    apply top_of_push. lia.
  - assert (Hinit : initByIdx (stash_idx g) (Some v) sc
                    = Done (set_values (<[Z.to_nat (stash_idx g) := Some v]>
                                          (values sc)) sc)).
    { unfold initByIdx, store. rewrite Hobj, Hslot. reflexivity. }
    destruct (update_at_done _ _ _ _ _ Hat Hinit) as (chain' & Hup & Hat').
    unfold initStash_exec, initLocal.
    cbv beta iota delta [bind get stack_at]. rewrite Htop. cbv beta iota.
    rewrite Hup.
    eexists. split; [reflexivity|]. cbn.
    repeat apply conj; try reflexivity.
    unfold loadStashLex_exec.
    erewrite bind_Ok_nil; [|apply stash_at_eq; cbn; exact Hat'].
    unfold getByIdx. destruct sc as [vals ea nm ob ou va]. cbn [values set_values].
    cbn [values] in Hslot. rewrite (index_insert_eq _ _ _ _ Hslot).
    cbn [lift]. rewrite bind_ret.
    apply top_of_push. cbn. lia.
Qed.

End StashVariables.

Lemma stash_lexical_lifecycle_witness :
  let sc := mkStash [None] [] None None None false in
  let s := with_stash (Some (mkStash [] [] None None (Some sc) false))
             (vm_with_stack [Some _null]) in
  loadStashLex_exec (2 ^ 24) s = Panic errAccessBeforeInit s []
  /\ storeStashLex_exec (2 ^ 24) s = Panic errAccessBeforeInit s []
  /\ top_of (loadStash_exec (2 ^ 24) s) = Some (Some _undefined)
  /\ exists s1,
       initStash_exec (2 ^ 24) s = Ok tt s1 []
       /\ vm_sp s1 = vm_sp s - 1
       /\ vm_stack s1 = vm_stack s
       /\ top_of (loadStashLex_exec (2 ^ 24) s1) = Some (Some _null).
Proof.
  intros sc s. apply (stash_lexical_lifecycle (2 ^ 24) _null sc s); reflexivity.
Defined.

(* ===================================================================== *)
(** ** Resolution by name *)
(* ===================================================================== *)

Section NameResolution.

Context {host : Host} {layout : Layout}.

Lemma getRefByName_binds (name : string) (strict : bool) (sc : stash) :
  (binds name sc = false -> getRefByName name strict sc = None)
  /\ (binds name sc = true -> is_Some (getRefByName name strict sc)).
Proof.
  unfold binds, getRefByName. destruct (obj sc) as [o|].
  - destruct (stashObjHas o name); split; intros H; try discriminate; eauto.
  - destruct (names_lookup sc name) as [idx|]; cbn; split; intros H;
      try discriminate; try reflexivity.
    destruct (Z.land idx maskVar =? 0); [destruct (Z.land idx maskConst =? 0)|];
      eauto.
Qed.

Lemma chain_getRefByName_first (name : string) (strict : bool)
    (pre : list stash) (sc : stash) (post : list stash) (s : stash) :
  scope_chain s = pre ++ sc :: post ->
  Forall (fun x => binds name x = false) pre ->
  binds name sc = true ->
  chain_getRefByName name strict s = getRefByName name strict sc.
Proof.
  revert s. induction pre as [|p pre IH]; intros s Hchain Hpre Hsc.
  - destruct (proj2 (getRefByName_binds name strict sc) Hsc) as [r Hr].
    destruct s as [v e n o ou va].
    assert (sc = mkStash v e n o ou va) as ->
      by (destruct ou; cbn in Hchain; congruence).
    destruct ou; cbn [chain_getRefByName]; rewrite Hr; reflexivity.
  - apply Forall_cons in Hpre as [Hp Hpre].
    destruct s as [v e n o ou va].
    assert (p = mkStash v e n o ou va) as ->
      by (destruct ou; cbn in Hchain; congruence).
    pose proof (proj1 (getRefByName_binds name strict _) Hp) as Hnone.
    destruct ou as [ou|].
    + cbn [chain_getRefByName]. rewrite Hnone. apply IH; try assumption.
      cbn in Hchain. congruence.
    + cbn in Hchain. destruct pre; discriminate.
Qed.

Lemma chain_getRefByName_unbound (name : string) (strict : bool) (s : stash) :
  Forall (fun x => binds name x = false) (scope_chain s) ->
  chain_getRefByName name strict s = None.
Proof.
  remember (scope_chain s) as l eqn:Hl. revert s Hl.
  induction l as [|p l IH]; intros s Hl Hall.
  - destruct s as [v e n o [ou|] va]; discriminate.
  - apply Forall_cons in Hall as [Hp Hall].
    destruct s as [v e n o ou va].
    assert (p = mkStash v e n o ou va) as ->
      by (destruct ou; cbn in Hl; congruence).
    pose proof (proj1 (getRefByName_binds name strict _) Hp) as Hnone.
    destruct ou as [ou|]; cbn [chain_getRefByName]; rewrite Hnone;
      [|reflexivity].
    apply IH; [|exact Hall]. cbn in Hl. congruence.
Qed.

(** X17: resolving a name to a reference.  The innermost scope record
    that binds the name decides, whatever the records further out bind.
    When no record binds it, sloppy code gets a reference to a property
    of the global object; strict code gets one only if the global
    object has the property, and otherwise an unresolvable reference,
    reading or writing which raises the reference error for that
    name. *)
Theorem resolve_by_name (name : string) (st : stash) (s : vm) :
  vm_stash s = Some st ->
  (forall strict pre sc post,
     scope_chain st = pre ++ sc :: post ->
     Forall (fun x => binds name x = false) pre ->
     binds name sc = true ->
     exists r,
       getRefByName name strict sc = Some r
       /\ (if strict then resolveVar1Strict_exec name s else resolveVar1_exec name s)
          = Ok tt (with_pc (vm_pc s + 1)
                     (with_refStack (vm_refStack s ++ [Some r]) s)) [])
  /\ (Forall (fun x => binds name x = false) (scope_chain st) ->
      resolveVar1_exec name s
      = Ok tt (with_pc (vm_pc s + 1)
                 (with_refStack
                    (vm_refStack s ++ [Some (objRef (globalObject (vm_r s)) name false)])
                    s)) []
      /\ resolveVar1Strict_exec name s
         = Ok tt (with_pc (vm_pc s + 1)
                    (with_refStack
                       (vm_refStack s
                        ++ [Some (if hasPropertyStr (globalObject (vm_r s)) name
                                  then objRef (globalObject (vm_r s)) name true
                                  else unresolvedRef name)])
                       s)) []
      /\ forall x vals,
           ref_get (unresolvedRef name) vals = Some (Raise (throwReferenceError name))
           /\ ref_set (unresolvedRef name) x vals
              = Some (Raise (throwReferenceError name))).
Proof.
  intros Hst. split.
  - intros strict pre sc post Hchain Hpre Hsc.
    pose proof (chain_getRefByName_first name strict pre sc post st Hchain Hpre Hsc)
      as Hfirst.
    destruct (proj2 (getRefByName_binds name strict sc) Hsc) as [r Hr].
    exists r. split; [exact Hr|].
    destruct strict;
      unfold resolveVar1Strict_exec, resolveVar1_exec, resolve_in_chain;
      rewrite bind_get, Hst, Hfirst, Hr;
      unfold push_ref; rewrite bind_modify; reflexivity.
  - intros Hall. repeat apply conj.
    + unfold resolveVar1_exec, resolve_in_chain.
      rewrite bind_get, Hst, (chain_getRefByName_unbound name false st Hall).
      unfold push_ref. rewrite bind_modify. reflexivity.
    + unfold resolveVar1Strict_exec, resolve_in_chain.
      rewrite bind_get, Hst, (chain_getRefByName_unbound name true st Hall).
      unfold push_ref. rewrite bind_modify. reflexivity.
    + intros x vals. split; reflexivity.
Qed.

End NameResolution.

Lemma resolve_by_name_witness :
  let st := createBinding (layout := top_bits) "x" false empty_stash in
  let s := with_stash (Some st) (fresh_vm small_runtime) in
  resolveVar1Strict_exec (host := small_host) (layout := top_bits) "y" s
  = Ok tt (with_pc (vm_pc s + 1)
             (with_refStack
                (vm_refStack s
                 ++ [Some (if hasPropertyStr (Host := small_host)
                                (globalObject (vm_r s)) "y"
                           then objRef (globalObject (vm_r s)) "y" true
                           else unresolvedRef "y")])
                s)) [].
Proof.
  intros st s.
  pose proof (resolve_by_name (host := small_host) (layout := top_bits)
                "y" st s eq_refl) as [_ H].
  apply H. repeat constructor.
Defined.

Section DynamicLoad.

Context {host : Host} {layout : Layout}.

Lemma getByName_unbound (name : string) (sc : stash) :
  binds name sc = false -> getByName name sc = Done (None, false).
Proof.
  unfold binds, getByName. destruct (obj sc) as [o|].
  - intros ->. reflexivity.
  - destruct (names_lookup sc name); [|reflexivity].
    intros H. apply bool_decide_eq_false in H. exfalso. apply H. eauto.
Qed.

Lemma getByName_bound (name : string) (sc : stash) :
  binds name sc = true ->
  (exists x, getByName name sc = Raise x)
  \/ (exists v, getByName name sc = Done (Some v, true)).
Proof.
  unfold binds, getByName. destruct (obj sc) as [o|].
  - intros ->. right. eauto.
  - destruct (names_lookup sc name) as [idx|].
    + intros _.
      destruct (index (values sc) (and_not idx maskTyp)) as [[v|]|]; eauto.
      destruct (Z.land idx maskVar =? 0); eauto.
    + intros H. apply bool_decide_eq_true in H. destruct H; discriminate.
Qed.

Lemma chain_getByName_first (name : string)
    (pre : list stash) (sc : stash) (post : list stash) (s : stash) :
  scope_chain s = pre ++ sc :: post ->
  Forall (fun x => binds name x = false) pre ->
  binds name sc = true ->
  chain_getByName name s
  = match getByName name sc with
    | Done (v, _) => Done v
    | Raise x => Raise x
    end.
Proof.
  revert s. induction pre as [|p pre IH]; intros s Hchain Hpre Hsc.
  - destruct s as [v e n o ou va].
    assert (sc = mkStash v e n o ou va) as ->
      by (destruct ou; cbn in Hchain; congruence).
    destruct (getByName_bound name _ Hsc) as [[x Hx] | [w Hw]];
      destruct ou; cbn [chain_getByName]; rewrite ?Hx, ?Hw; reflexivity.
  - apply Forall_cons in Hpre as [Hp Hpre].
    destruct s as [v e n o ou va].
    assert (p = mkStash v e n o ou va) as ->
      by (destruct ou; cbn in Hchain; congruence).
    pose proof (getByName_unbound name _ Hp) as Hnone.
    destruct ou as [ou|].
    + cbn [chain_getByName]. rewrite Hnone. apply IH; try assumption.
      cbn in Hchain. congruence.
    + cbn in Hchain. destruct pre; discriminate.
Qed.

Lemma chain_getByName_unbound (name : string) (s : stash) :
  Forall (fun x => binds name x = false) (scope_chain s) ->
  chain_getByName name s = Done None.
Proof.
  remember (scope_chain s) as l eqn:Hl. revert s Hl.
  induction l as [|p l IH]; intros s Hl Hall.
  - destruct s as [v e n o [ou|] va]; discriminate.
  - apply Forall_cons in Hall as [Hp Hall].
    destruct s as [v e n o ou va].
    assert (p = mkStash v e n o ou va) as ->
      by (destruct ou; cbn in Hl; congruence).
    pose proof (getByName_unbound name _ Hp) as Hnone.
    destruct ou as [ou|]; cbn [chain_getByName]; rewrite Hnone;
      [|reflexivity].
    apply IH; [|exact Hall]. cbn in Hl. congruence.
Qed.

(** X18: [loadDynamic] reads a name through the innermost scope record
    that binds it: what that record answers is the outcome, so a
    lexical binding that is not yet initialized raises its error even
    when a record further out has a value for the name.  A name bound
    in no record is read from the global object, and raises the
    reference error for the name when the global object has no such
    property; nothing is pushed then. *)
Theorem loadDynamic_by_name (name : string) (st : stash) (s : vm) :
  vm_stash s = Some st ->
  0 <= vm_sp s ->
  (forall pre sc post,
     scope_chain st = pre ++ sc :: post ->
     Forall (fun x => binds name x = false) pre ->
     binds name sc = true ->
     (forall x, getByName name sc = Raise x ->
        loadDynamic_exec name s = Panic x s [])
     /\ (forall v, getByName name sc = Done (Some v, true) ->
           top_of (loadDynamic_exec name s) = Some (Some v)))
  /\ (Forall (fun x => binds name x = false) (scope_chain st) ->
      (getStr (globalObject (vm_r s)) name = None ->
         loadDynamic_exec name s = Panic (throwReferenceError name) s [])
      /\ (forall v, getStr (globalObject (vm_r s)) name = Some v ->
            top_of (loadDynamic_exec name s) = Some (Some v))).
Proof.
  intros Hst Hsp. split.
  - intros pre sc post Hchain Hpre Hsc.
    pose proof (chain_getByName_first name pre sc post st Hchain Hpre Hsc) as Hfirst.
    split.
    + intros x Hx. rewrite Hx in Hfirst.
      unfold loadDynamic_exec. rewrite bind_get, Hst, Hfirst. reflexivity.
    + intros v Hv. rewrite Hv in Hfirst.
      unfold loadDynamic_exec. rewrite bind_get, Hst, Hfirst.
      cbn [lift]. rewrite !bind_ret. apply top_of_push. exact Hsp.
  - intros Hall. pose proof (chain_getByName_unbound name st Hall) as Hnone.
    split.
    + intros Hg. unfold loadDynamic_exec.
      rewrite bind_get, Hst, Hnone. cbn [lift]. rewrite bind_ret, Hg. reflexivity.
    + intros v Hg. unfold loadDynamic_exec.
      rewrite bind_get, Hst, Hnone. cbn [lift]. rewrite bind_ret, Hg, bind_ret.
      apply top_of_push. exact Hsp.
Qed.

End DynamicLoad.

Lemma loadDynamic_by_name_witness :
  let outer_st := createBinding (layout := top_bits) "x" false empty_stash in
  let st := set_outer (Some outer_st)
              (createLexBinding (layout := top_bits) "x" false empty_stash) in
  let s := with_stash (Some st) (fresh_vm small_runtime) in
  loadDynamic_exec (host := small_host) (layout := top_bits) "x" s
  = Panic errAccessBeforeInit s [].
Proof.
  intros outer_st st s.
  pose proof (loadDynamic_by_name (host := small_host) (layout := top_bits)
                "x" st s eq_refl ltac:(cbn; lia)) as [H _].
  apply (proj1 (H [] st [outer_st] eq_refl ltac:(constructor) eq_refl)).
  reflexivity.
Defined.

(* ===================================================================== *)
(** ** What [vm.try] puts back *)
(* ===================================================================== *)

Section TryRollback.

Context {host : Host} {layout : Layout}.

Lemma close_tail_idle (try_close : IterRef -> M unit) (iterTail : list iterStackItem) :
  open_iters iterTail = [] ->
  forall base s,
  exists its,
    close_tail try_close iterTail base s = Ok tt (with_iterStack its s) []
    /\ length its = length (vm_iterStack s)
    /\ forall n, (n <= base)%nat -> take n its = take n (vm_iterStack s).
Proof.
  induction iterTail as [|item rest IH]; intros Hopen base s.
  - exists (vm_iterStack s).
    split; [destruct s; reflexivity | split; reflexivity].
  - rewrite open_iters_cons in Hopen.
    destruct (item_iter item) eqn:Hit; [discriminate|].
    cbn [close_tail]. rewrite Hit, bind_ret, bind_modify.
    destruct (IH Hopen (S base)
                (with_iterStack (<[base := empty_item]> (vm_iterStack s)) s))
      as (its & E & Hlen & Htake).
    exists its. split; [|split].
    + rewrite E. destruct s; reflexivity.
    + rewrite Hlen. cbn [vm_iterStack with_iterStack]. apply length_insert.
    + intros n Hn. rewrite (Htake n ltac:(lia)). cbn [vm_iterStack with_iterStack].
      apply take_insert_ge. lia.
Qed.





Lemma vm_try_rollback_state (fuel : nat) (f : M unit) (s0 s1 : vm) (x : PanicVal)
    (tr : list Event) :
  f s0 = Panic x s1 tr ->
  (length (vm_iterStack s0) <= length (vm_iterStack s1))%nat ->
  open_iters (drop (length (vm_iterStack s0)) (vm_iterStack s1)) = [] ->
  (length (vm_refStack s0) <= length (vm_refStack s1))%nat ->
  exists s2,
    vm_try (S fuel) f s0
    = match handle x with
      | Caught ex => Ok (Some ex) s2 tr
      | Rethrown y => Panic y s2 tr
      end
    /\ vm_callStack s2 = callStack_upto (length (vm_callStack s0)) s1
    /\ vm_iterStack s2 = take (length (vm_iterStack s0)) (vm_iterStack s1)
    /\ vm_refStack s2 = take (length (vm_refStack s0)) (vm_refStack s1)
    /\ vm_sp s2 = vm_sp s0
    /\ vm_pc s2 = vm_pc s0
    /\ vm_sb s2 = vm_sb s0
    /\ vm_args s2 = vm_args s0
    /\ vm_stash s2 = vm_stash s0
    /\ vm_prg s2 = vm_prg s0
    /\ vm_newTarget s2 = vm_newTarget s0
    /\ vm_result s2 = vm_result s0
    /\ vm_stack s2 = vm_stack s1
    /\ vm_halt s2 = vm_halt s1.
Proof.
  intros Hf Hiter Hopen Hrefs.
  set (try_close := fun it : IterRef =>
         (_ <- vm_try fuel (returnIter it) ;; ret tt) : M unit).
  set (sa := with_sp (vm_sp s0)
               (restoreCtx (saveCtx s0)
                  (with_callStack (callStack_upto (length (vm_callStack s0)) s1)
                     s1))).
  destruct (close_tail_idle try_close _ Hopen (length (vm_iterStack s0)) sa)
    as (its & Hclose & Hits & Htake).
  assert (Hrestore :
    restore_stacks try_close (saveCtx s0) (length (vm_callStack s0)) (vm_sp s0)
      (length (vm_iterStack s0)) (length (vm_refStack s0)) s1
    = Ok tt (with_refStack (take (length (vm_refStack s0)) (vm_refStack s1))
               (with_iterStack (take (length (vm_iterStack s0)) (vm_iterStack s1))
                  sa)) []).
  { unfold restore_stacks. rewrite !bind_modify, bind_get. fold sa.
    assert ((length (vm_iterStack sa) <? length (vm_iterStack s0))%nat = false) as ->
      by (apply Nat.ltb_ge; exact Hiter).
    change (vm_iterStack sa) with (vm_iterStack s1).
    rewrite (bind_Ok_nil _ _ _ _ _ Hclose), bind_modify, bind_get.
    cbn [vm_refStack with_iterStack vm_iterStack].
    change (vm_refStack sa) with (vm_refStack s1).
    assert ((length (vm_refStack s1) <? length (vm_refStack s0))%nat = false) as ->
      by (apply Nat.ltb_ge; exact Hrefs).
    unfold modify. cbn [vm_refStack with_iterStack vm_iterStack].
    change (vm_iterStack sa) with (vm_iterStack s1) in Hits.
    rewrite iterStack_upto_within
      by (cbn [vm_iterStack with_iterStack]; lia).
    cbn [vm_iterStack with_iterStack].
    rewrite (Htake _ (le_n _)).
    change (vm_refStack sa) with (vm_refStack s1).
    change (vm_iterStack sa) with (vm_iterStack s1).
    destruct sa; reflexivity. }
  eexists. split.
  - cbn [vm_try]. rewrite Hf. fold try_close. rewrite Hrestore.
    rewrite app_nil_r. reflexivity.
  - repeat apply conj; reflexivity.
Qed.


End TryRollback.


Section IteratorStep.

Context {host : Host} {layout : Layout}.

Variable r_getIterator : Slot -> vm -> Reply IterRef.
Variable iter_step : IterRef -> vm -> Reply (Slot * option Exception).

(** X20: a [for-of] loop under [vm.try] whose iterator fails at a step.
    [iterNext] takes the iterator off the iterator stack before it
    throws, so the unwinding of [vm.try] finds nothing to close: the
    thrown value is returned as the exception, the iterator stack is as
    on entry, and the iterator's close is never called. *)
Theorem failed_step_not_closed (fuel : nat) (jmp : Z) (v value : Slot)
    (it : IterRef) (ex : Exception) (s0 sa sc : vm) :
  let item := mkIterStackItem None None (Some it) in
  index (vm_stack s0) (vm_sp s0 - 1) = Some v ->
  r_getIterator v s0 = Returns it sa ->
  vm_iterStack sa = vm_iterStack s0 ->
  iter_step it (with_pc (vm_pc sa + 1)
                  (with_iterStack (vm_iterStack sa ++ [item]) sa))
  = Returns (value, Some ex) sc ->
  vm_iterStack sc = vm_iterStack sa ++ [item] ->
  (length (vm_refStack s0) <= length (vm_refStack sc))%nat ->
  exists s2,
    vm_try (S fuel)
      (_iterate_exec r_getIterator ;;; iterNext_exec iter_step jmp) s0
    = Ok (Some (mkException (ex_val ex))) s2 []
    /\ vm_iterStack s2 = vm_iterStack s0
    /\ vm_sp s2 = vm_sp s0
    /\ vm_pc s2 = vm_pc s0.
Proof.
  intros item Htop Hget Hsa Hstep Hsc Hrefs.
  set (sb := with_pc (vm_pc sa + 1)
               (with_iterStack (vm_iterStack sa ++ [item]) sa)) in *.
  assert (Hiterate : _iterate_exec r_getIterator s0 = Ok tt sb []).
  { unfold _iterate_exec.
    cbv beta iota delta [bind gets stack_at unlogged].
    rewrite Htop. cbv beta iota. rewrite Hget. reflexivity. }
  assert (Hnext : iterNext_exec iter_step jmp sb
                  = Panic (pValue (ex_val ex))
                      (with_iterStack (vm_iterStack sa) sc) []).
  { unfold iterNext_exec. rewrite bind_get.
    assert (Hidx : index (vm_iterStack sb)
                     (Z.of_nat (length (vm_iterStack sb)) - 1) = Some item).
    { cbn [sb vm_iterStack with_pc with_iterStack]. unfold index.
      rewrite length_app. cbn [length].
      destruct (_ <? 0) eqn:E; [apply Z.ltb_lt in E; lia|].
      replace (Z.to_nat (Z.of_nat (length (vm_iterStack sa) + 1) - 1))
        with (length (vm_iterStack sa)) by lia.
      apply list_lookup_middle. reflexivity. }
    rewrite Hidx. cbn [item_iter item].
    unfold bind at 1, unlogged. rewrite Hstep.
    unfold iter_drop_top. cbv beta iota delta [bind get].
    rewrite Hsc. destruct (vm_iterStack sa ++ [item]) eqn:Happ;
      [destruct (vm_iterStack sa); discriminate|].
    rewrite <- Happ, removelast_last. reflexivity. }
  assert (Hf : (_iterate_exec r_getIterator ;;; iterNext_exec iter_step jmp) s0
               = Panic (pValue (ex_val ex))
                   (with_iterStack (vm_iterStack sa) sc) []).
  { rewrite (bind_Ok_nil _ _ _ _ _ Hiterate). exact Hnext. }
  destruct (vm_try_rollback_state fuel _ s0 _ _ _ Hf) as (s2 & Htry & Hrest).
  - cbn [vm_iterStack with_iterStack]. rewrite Hsa. lia.
  - cbn [vm_iterStack with_iterStack]. rewrite Hsa, drop_all. reflexivity.
  - exact Hrefs.
  - exists s2. cbn [handle] in Htry. split; [exact Htry|].
    destruct Hrest as (_ & Hit & _ & Hsp & Hpc & _).
    cbn [vm_iterStack with_iterStack] in Hit. rewrite Hsa, firstn_all in Hit.
    repeat apply conj; assumption.
Qed.

End IteratorStep.

Lemma failed_step_not_closed_witness :
  let getIter : Slot -> vm -> Reply IterRef := fun _ s => Returns 7%nat s in
  let step : IterRef -> vm -> Reply (Slot * option Exception) :=
    fun _ s => Returns (None, Some (mkException _null)) s in
  let s0 := vm_with_stack [Some _undefined] in
  exists s2,
    vm_try (host := small_host) 1
      (_iterate_exec getIter ;;; iterNext_exec step 3) s0
    = Ok (Some (mkException (ex_val (mkException _null)))) s2 []
    /\ vm_iterStack s2 = vm_iterStack s0
    /\ vm_sp s2 = vm_sp s0
    /\ vm_pc s2 = vm_pc s0.
Proof.
  intros getIter step s0.
  apply (failed_step_not_closed (host := small_host) getIter step 0 3
           (Some _undefined) None 7%nat (mkException _null) s0 s0
           (with_pc (vm_pc s0 + 1)
              (with_iterStack
                 (vm_iterStack s0 ++ [mkIterStackItem None None (Some 7%nat)]) s0)));
    reflexivity.
Defined.

(* ===================================================================== *)
(** ** Entering and leaving a function *)
(* ===================================================================== *)

Section FunctionFrames.

Context {host : Host} {layout : Layout}.

Lemma fill_state (lo hi : Z) (v : Slot) (s : vm) :
  0 <= lo <= hi -> hi <= Z.of_nat (length (vm_stack s)) ->
  fill lo hi v s = Ok tt (with_stack (filled lo hi v (vm_stack s)) s) [].
Proof.
  intros Hlo Hhi. unfold fill, filled.
  assert (((0 <=? lo) && (lo <=? hi) && (hi <=? Z.of_nat (length (vm_stack s))))
          = true) as ->
    by (rewrite !andb_true_iff, !Z.leb_le; lia).
  reflexivity.
Qed.

Lemma filled_length (lo hi : Z) (v : Slot) (st : list Slot) :
  0 <= lo <= hi -> hi <= Z.of_nat (length st) ->
  length (filled lo hi v st) = length st.
Proof.
  intros Hlo Hhi. unfold filled.
  rewrite !length_app, length_take, length_replicate, length_drop.
  unfold Slot in *. lia.
Qed.

Lemma index_filled (lo hi : Z) (v : Slot) (st : list Slot) (i : Z) :
  0 <= lo <= hi -> hi <= Z.of_nat (length st) ->
  index (filled lo hi v st) i
  = if (lo <=? i) && (i <? hi) then Some v else index st i.
Proof.
  intros Hlo Hhi. unfold filled, index.
  destruct (i <? 0) eqn:Hneg.
  - apply Z.ltb_lt in Hneg.
    assert ((lo <=? i) = false) as -> by (apply Z.leb_gt; lia). reflexivity.
  - apply Z.ltb_ge in Hneg.
    assert (Htake : length (take (Z.to_nat lo) st) = Z.to_nat lo)
      by (rewrite length_take; unfold Slot in *; lia).
    destruct (lo <=? i) eqn:H1; [destruct (i <? hi) eqn:H2|]; cbn [andb].
    + apply Z.leb_le in H1. apply Z.ltb_lt in H2.
      rewrite lookup_app_r by (rewrite Htake; lia).
      rewrite Htake, lookup_app_l by (rewrite length_replicate; lia).
      apply lookup_replicate_2. lia.
    + apply Z.leb_le in H1. apply Z.ltb_ge in H2.
      rewrite lookup_app_r by (rewrite Htake; lia).
      rewrite Htake, lookup_app_r by (rewrite length_replicate; lia).
      rewrite length_replicate, lookup_drop. f_equal. lia.
    + apply Z.leb_gt in H1.
      rewrite lookup_app_l by (rewrite Htake; lia).
      apply lookup_take_lt. lia.
Qed.

Lemma index_grow (idx : Z) (st : list Slot) (i : Z) (x : Slot) :
  index st i = Some x -> index (grow idx st) i = Some x.
Proof.
  unfold index. destruct (i <? 0); [discriminate|]. apply grow_lookup.
Qed.

Lemma index_grow_new (idx : Z) (st : list Slot) (i : Z) :
  Z.of_nat (length st) <= i <= idx -> index (grow idx st) i = Some None.
Proof.
  intros Hi. unfold grow, index.
  destruct (idx <? Z.of_nat (length st)) eqn:E; [apply Z.ltb_lt in E; lia|].
  destruct (i <? 0) eqn:Hneg; [apply Z.ltb_lt in Hneg; lia|].
  rewrite lookup_app_r by lia. apply lookup_replicate_2. lia.
Qed.

Lemma bind_assoc {A B C : Type} (m : M A) (k : A -> M B) (k' : B -> M C) (s : vm) :
  bind (bind m k) k' s = bind m (fun a => bind (k a) k') s.
Proof.
  unfold bind. destruct (m s) as [a s1 tr1 | |]; try reflexivity.
  destruct (k a s1) as [b s2 tr2 | |]; try reflexivity.
  destruct (k' b s2); try reflexivity; rewrite app_assoc; reflexivity.
Qed.

Lemma enterFuncStashless_state (stackSize args : nat) (s : vm) :
  0 <= vm_sp s ->
  let d := Z.max 0 (Z.of_nat args - vm_args s) in
  exists s',
    enterFuncStashless_exec stackSize args s = Ok tt s' []
    /\ vm_sb s' = vm_sp s - vm_args s - 1
    /\ vm_args s' = Z.max (vm_args s) (Z.of_nat args)
    /\ vm_sp s' = vm_sp s + d + Z.of_nat stackSize
    /\ vm_pc s' = vm_pc s + 1
    /\ vm_callStack s' = vm_callStack s
    /\ vm_halt s' = vm_halt s
    /\ vm_prg s' = vm_prg s
    /\ vm_stash s' = vm_stash s
    /\ (forall i x, i < vm_sp s -> index (vm_stack s) i = Some x ->
          index (vm_stack s') i = Some x)
    /\ (forall i, vm_sp s <= i < vm_sp s + d ->
          index (vm_stack s') i = Some (Some _undefined))
    /\ (forall i, vm_sp s + d <= i < vm_sp s' ->
          index (vm_stack s') i = Some None).
Proof.
  intros Hsp d. unfold enterFuncStashless_exec.
  rewrite bind_get, bind_modify.
  destruct (0 <? Z.of_nat args - vm_args s) eqn:Hd.
  - apply Z.ltb_lt in Hd.
    assert (Hdd : d = Z.of_nat args - vm_args s) by (unfold d; lia).
    set (ss := vm_sp s + Z.of_nat stackSize + (Z.of_nat args - vm_args s)).
    pose proof (grow_length_ge ss (vm_stack s)) as [Hlen _].
    unfold stack_expand. rewrite bind_assoc, bind_modify, bind_assoc.
    erewrite bind_Ok_nil;
      [|apply fill_state; cbn [vm_stack with_stack with_sb]; unfold ss in *; lia].
    rewrite bind_assoc.
    erewrite bind_Ok_nil;
      [|apply fill_state; cbn [vm_stack with_stack with_sb];
        rewrite ?filled_length; unfold ss in *; lia].
    rewrite bind_assoc, !bind_modify. unfold pc_incr, modify.
    eexists. split; [reflexivity|].
    cbn [vm_sb vm_args vm_sp vm_pc vm_callStack vm_halt vm_stack vm_prg vm_stash
         with_pc with_sp with_args with_stack with_sb].
    repeat apply conj; try reflexivity; try lia.
    + intros i x Hi Hx.
      rewrite !index_filled by (rewrite ?filled_length; unfold ss in *; lia).
      assert ((vm_sp s + (Z.of_nat args - vm_args s) <=? i) = false) as ->
        by (apply Z.leb_gt; lia).
      assert ((vm_sp s <=? i) = false) as -> by (apply Z.leb_gt; lia).
      cbn [andb]. apply index_grow. exact Hx.
    + intros i Hi.
      rewrite !index_filled by (rewrite ?filled_length; unfold ss in *; lia).
      assert ((vm_sp s + (Z.of_nat args - vm_args s) <=? i) = false) as ->
        by (apply Z.leb_gt; lia).
      assert ((vm_sp s <=? i) = true) as -> by (apply Z.leb_le; lia).
      assert ((i <? vm_sp s + (Z.of_nat args - vm_args s)) = true) as ->
        by (apply Z.ltb_lt; lia).
      reflexivity.
    + intros i Hi.
      rewrite index_filled by (rewrite ?filled_length; unfold ss in *; lia).
      assert ((vm_sp s + (Z.of_nat args - vm_args s) <=? i) = true) as ->
        by (apply Z.leb_le; lia).
      assert ((i <? ss) = true) as -> by (apply Z.ltb_lt; unfold ss; lia).
      reflexivity.
  - apply Z.ltb_ge in Hd.
    assert (Hdd : d = 0) by (unfold d; lia).
    destruct (0 <? stackSize)%nat eqn:Hss.
    + set (ss := vm_sp s + Z.of_nat stackSize).
      pose proof (grow_length_ge ss (vm_stack s)) as [Hlen _].
      unfold stack_expand. rewrite bind_assoc, bind_modify, bind_assoc.
      erewrite bind_Ok_nil;
        [|apply fill_state; cbn [vm_stack with_stack with_sb]; unfold ss in *; lia].
      rewrite !bind_modify. unfold pc_incr, modify.
      eexists. split; [reflexivity|].
      cbn [vm_sb vm_args vm_sp vm_pc vm_callStack vm_halt vm_stack vm_prg vm_stash
           with_pc with_sp with_args with_stack with_sb].
      repeat apply conj; try reflexivity; try lia.
      * intros i x Hi Hx.
        rewrite index_filled by (unfold ss in *; lia).
        assert ((vm_sp s <=? i) = false) as -> by (apply Z.leb_gt; lia).
        cbn [andb]. apply index_grow. exact Hx.
      * intros i Hi.
        rewrite index_filled by (unfold ss in *; lia).
        assert ((vm_sp s <=? i) = true) as -> by (apply Z.leb_le; lia).
        assert ((i <? ss) = true) as -> by (apply Z.ltb_lt; unfold ss; lia).
        reflexivity.
    + apply Nat.ltb_ge in Hss. rewrite bind_ret. unfold pc_incr, modify.
      eexists. split; [reflexivity|].
      cbn [vm_sb vm_args vm_sp vm_pc vm_callStack vm_halt vm_stack vm_prg vm_stash
           with_pc with_sp with_args with_stack with_sb].
      repeat apply conj; try reflexivity; try lia.
      intros i x Hi Hx. exact Hx.
Qed.

Lemma call_function_state (n : Z) (o : ObjRef) (prg : Program) (st : option stash)
    (this : Slot) (s : vm) :
  index (vm_stack s) (vm_sp s - n - 1) = Some (Some (valueObject o)) ->
  index (vm_stack s) (vm_sp s - n - 2) = Some this ->
  self o = funcObject prg st \/ self o = methodFuncObject prg st ->
  stackDepthLimit (vm_r s) = 0
  \/ Z.of_nat (length (vm_callStack s)) + 1 < stackDepthLimit (vm_r s) ->
  vm_maxCallStackSize s = 0
  \/ Z.of_nat (length (vm_callStack s)) + 1 < vm_maxCallStackSize s ->
  call_exec n s
  = Ok tt
      (with_stack
         (<[Z.to_nat (vm_sp s - n - 2) := Some (valueObject o)]>
            (<[Z.to_nat (vm_sp s - n - 1) := this]> (vm_stack s)))
         (with_pc 0 (with_stash st (with_prg (Some prg) (with_args n
            (with_callStack
               (vm_callStack s ++ [saveCtx (with_pc (vm_pc s + 1) s)])
               (with_pc (vm_pc s + 1) s))))))) [].
Proof.
  intros Hcallee Hthis Hself Hdepth Hmax.
  pose proof (index_Some_range _ _ _ Hcallee) as Hr1.
  pose proof (index_Some_range _ _ _ Hthis) as Hr2.
  assert (Hcond : negb (stackDepthLimit (vm_r s) =? 0)
                  && (stackDepthLimit (vm_r s)
                      <=? Z.of_nat (length (vm_callStack s)) + 1) = false).
  { destruct Hdepth as [-> | Hlt]; [reflexivity|].
    apply andb_false_iff. right. apply Z.leb_gt. exact Hlt. }
  assert (Hpush : pushCtx (with_pc (vm_pc s + 1) s)
                  = Ok tt (with_callStack
                             (vm_callStack s ++ [saveCtx (with_pc (vm_pc s + 1) s)])
                             (with_pc (vm_pc s + 1) s)) [])
    by exact (pushCtx_state (with_pc (vm_pc s + 1) s) Hmax).
  assert (Hbody :
    (enter_function n prg st ;;;
     sp <- gets vm_sp ;;
     a <- stack_at (sp - n - 2) ;;
     b <- stack_at (sp - n - 1) ;;
     stack_put (sp - n - 1) a ;;;
     stack_put (sp - n - 2) b) s
    = Ok tt
      (with_stack
         (<[Z.to_nat (vm_sp s - n - 2) := Some (valueObject o)]>
            (<[Z.to_nat (vm_sp s - n - 1) := this]> (vm_stack s)))
         (with_pc 0 (with_stash st (with_prg (Some prg) (with_args n
            (with_callStack
               (vm_callStack s ++ [saveCtx (with_pc (vm_pc s + 1) s)])
               (with_pc (vm_pc s + 1) s))))))) []).
  { unfold enter_function, pc_incr.
    rewrite !bind_assoc, bind_modify, bind_assoc.
    rewrite (bind_Ok_nil _ _ _ _ _ Hpush).
    repeat first [rewrite bind_assoc | rewrite bind_modify].
    rewrite bind_gets.
    cbv beta iota delta [bind stack_at stack_put store].
    cbn [vm_stack vm_sp with_stack with_pc with_stash with_prg with_args
         with_callStack].
    rewrite Hthis. cbv beta iota.
    cbn [vm_stack vm_sp with_stack with_pc with_stash with_prg with_args
         with_callStack].
    rewrite Hcallee. cbv beta iota.
    cbn [vm_stack vm_sp with_stack with_pc with_stash with_prg with_args
         with_callStack].
    rewrite Hcallee. cbv beta iota.
    cbn [vm_stack vm_sp with_stack with_pc with_stash with_prg with_args
         with_callStack].
    rewrite index_insert_ne, Hthis by lia.
    destruct s; reflexivity. }
  assert (H1 : stack_at (vm_sp s - n - 1) s = Ok (Some (valueObject o)) s [])
    by (unfold stack_at; rewrite Hcallee; reflexivity).
  assert (H2 : toCallee (Some (valueObject o)) s = Ok o s []) by reflexivity.
  unfold call_exec.
  rewrite bind_gets, (bind_Ok_nil _ _ _ _ _ H1), (bind_Ok_nil _ _ _ _ _ H2).
  destruct Hself as [-> | ->]; cbn [call_dispatch];
    rewrite bind_get, Hcond; exact Hbody.
Qed.

Lemma ret_state (s : vm) (cs : list vmContext) (ctx : vmContext) (rv y : Slot) :
  vm_callStack s = cs ++ [ctx] ->
  index (vm_stack s) (vm_sp s - 1) = Some rv ->
  index (vm_stack s) (vm_sb s - 1) = Some y ->
  _ret_exec s
  = Ok tt
      ((if ctx_pc ctx <? 0 then with_halt true else fun s' => s')
         (with_callStack cs
            (restoreCtx ctx
               (with_sp (vm_sb s)
                  (with_stack (<[Z.to_nat (vm_sb s - 1) := rv]> (vm_stack s)) s)))))
      [].
Proof.
  intros Hcs Htop Hslot. unfold _ret_exec. rewrite bind_get.
  assert (H1 : stack_at (vm_sp s - 1) s = Ok rv s [])
    by (unfold stack_at; rewrite Htop; reflexivity).
  assert (H2 : stack_put (vm_sb s - 1) rv s
               = Ok tt (with_stack (<[Z.to_nat (vm_sb s - 1) := rv]> (vm_stack s)) s) [])
    by (unfold stack_put, store; rewrite Hslot; reflexivity).
  rewrite (bind_Ok_nil _ _ _ _ _ H1), (bind_Ok_nil _ _ _ _ _ H2), bind_modify.
  erewrite bind_Ok_nil; [|apply popCtx_state with (cs := cs) (ctx := ctx); exact Hcs].
  rewrite bind_gets.
  cbn [vm_pc with_callStack restoreCtx with_funcName with_args with_sb with_pc].
  destruct (ctx_pc ctx <? 0); reflexivity.
Qed.

(** X21: a call of a scripted function followed by [enterFuncStashless]
    lays out the frame of the callee.  The caller's frame is saved with
    its program counter already past the call; the stack base points at
    [this], the callee lies below it and the arguments passed lie above
    it where they were; arguments declared but not passed are
    [undefined], the stack-resident variables above them are empty, and
    the stack pointer is just above those. *)
Theorem call_enters_function (n : Z) (stackSize args : nat) (o : ObjRef)
    (prg : Program) (st : option stash) (this : Slot) (s : vm) :
  0 <= n ->
  index (vm_stack s) (vm_sp s - n - 1) = Some (Some (valueObject o)) ->
  index (vm_stack s) (vm_sp s - n - 2) = Some this ->
  self o = funcObject prg st \/ self o = methodFuncObject prg st ->
  stackDepthLimit (vm_r s) = 0
  \/ Z.of_nat (length (vm_callStack s)) + 1 < stackDepthLimit (vm_r s) ->
  vm_maxCallStackSize s = 0
  \/ Z.of_nat (length (vm_callStack s)) + 1 < vm_maxCallStackSize s ->
  let m := Z.max n (Z.of_nat args) in
  exists s',
    (call_exec n ;;; enterFuncStashless_exec stackSize args) s = Ok tt s' []
    /\ vm_callStack s' = vm_callStack s ++ [saveCtx (with_pc (vm_pc s + 1) s)]
    /\ vm_prg s' = Some prg
    /\ vm_stash s' = st
    /\ vm_pc s' = 1
    /\ vm_args s' = m
    /\ vm_sb s' = vm_sp s - n - 1
    /\ vm_sp s' = vm_sb s' + 1 + m + Z.of_nat stackSize
    /\ index (vm_stack s') (vm_sb s' - 1) = Some (Some (valueObject o))
    /\ index (vm_stack s') (vm_sb s') = Some this
    /\ (forall i x, 1 <= i <= n ->
          index (vm_stack s) (vm_sp s - n - 1 + i) = Some x ->
          index (vm_stack s') (vm_sb s' + i) = Some x)
    /\ (forall i, n < i <= m ->
          index (vm_stack s') (vm_sb s' + i) = Some (Some _undefined))
    /\ (forall i, m < i <= m + Z.of_nat stackSize ->
          index (vm_stack s') (vm_sb s' + i) = Some None).
Proof.
  intros Hn Hcallee Hthis Hself Hdepth Hmax m.
  pose proof (index_Some_range _ _ _ Hcallee) as Hr1.
  pose proof (index_Some_range _ _ _ Hthis) as Hr2.
  pose proof (call_function_state n o prg st this s Hcallee Hthis Hself Hdepth Hmax)
    as Hcall.
  set (s1 := with_stack
               (<[Z.to_nat (vm_sp s - n - 2) := Some (valueObject o)]>
                  (<[Z.to_nat (vm_sp s - n - 1) := this]> (vm_stack s)))
               (with_pc 0 (with_stash st (with_prg (Some prg) (with_args n
                  (with_callStack
                     (vm_callStack s ++ [saveCtx (with_pc (vm_pc s + 1) s)])
                     (with_pc (vm_pc s + 1) s))))))) in *.
  destruct (enterFuncStashless_state stackSize args s1 ltac:(cbn; lia))
    as (s' & Hrun & Hsb & Hargs & Hsp & Hpc & Hcs & _ & Hprg & Hstash
        & Hold & Hundef & Hnil).
  cbn [s1 vm_sp vm_args vm_pc vm_callStack vm_prg vm_stash with_stack with_pc
       with_stash with_prg with_args with_callStack] in Hsb, Hargs, Hsp, Hpc, Hcs,
       Hprg, Hstash, Hundef, Hnil.
  assert (Hs1_this : index (vm_stack s1) (vm_sp s - n - 1) = Some this).
  { cbn [s1 vm_stack with_stack]. rewrite index_insert_ne by lia.
    apply (index_insert_eq _ _ _ _ Hcallee). }
  assert (Hs1_callee : index (vm_stack s1) (vm_sp s - n - 2)
                       = Some (Some (valueObject o))).
  { cbn [s1 vm_stack with_stack]. apply index_insert_eq with (y := this).
    rewrite index_insert_ne by lia. exact Hthis. }
  exists s'. rewrite (bind_Ok_nil _ _ _ _ _ Hcall).
  split; [exact Hrun|].
  rewrite Hsb. unfold m.
  repeat apply conj; try assumption; try lia.
  - replace (vm_sp s - n - 1 - 1) with (vm_sp s - n - 2) by lia.
    apply Hold; [cbn; lia | exact Hs1_callee].
  - apply Hold; [cbn; lia | exact Hs1_this].
  - intros i x Hi Hx. apply Hold; [cbn; lia|].
    cbn [s1 vm_stack with_stack]. rewrite !index_insert_ne by lia. exact Hx.
  - intros i Hi. apply Hundef. lia.
  - intros i Hi. apply Hnil. lia.
Qed.

(** X22: a call of a scripted function whose body leaves a value on
    the stack and returns.  After [_ret] the caller goes on at the
    instruction after the call: the callee, [this] and the arguments
    are gone from the stack and the returned value is on top in their
    place, the slots below are untouched, and the frame array and the
    caller's frame registers are as before the call.  The machine halts
    only if the program counter it returns to is negative. *)
Theorem call_return_round_trip (n : Z) (stackSize args : nat) (o : ObjRef)
    (prg : Program) (st : option stash) (this : Slot) (rv : Value) (s : vm) :
  0 <= n ->
  index (vm_stack s) (vm_sp s - n - 1) = Some (Some (valueObject o)) ->
  index (vm_stack s) (vm_sp s - n - 2) = Some this ->
  self o = funcObject prg st \/ self o = methodFuncObject prg st ->
  stackDepthLimit (vm_r s) = 0
  \/ Z.of_nat (length (vm_callStack s)) + 1 < stackDepthLimit (vm_r s) ->
  vm_maxCallStackSize s = 0
  \/ Z.of_nat (length (vm_callStack s)) + 1 < vm_maxCallStackSize s ->
  exists s',
    (call_exec n ;;;
     enterFuncStashless_exec stackSize args ;;;
     push (Some rv) ;;;
     _ret_exec) s = Ok tt s' []
    /\ vm_pc s' = vm_pc s + 1
    /\ vm_sp s' = vm_sp s - n - 1
    /\ index (vm_stack s') (vm_sp s' - 1) = Some (Some rv)
    /\ (forall i x, i < vm_sp s - n - 2 ->
          index (vm_stack s) i = Some x -> index (vm_stack s') i = Some x)
    /\ vm_callStack s' = vm_callStack s
    /\ vm_sb s' = vm_sb s
    /\ vm_args s' = vm_args s
    /\ vm_stash s' = vm_stash s
    /\ vm_prg s' = vm_prg s
    /\ vm_newTarget s' = vm_newTarget s
    /\ vm_result s' = vm_result s
    /\ vm_halt s' = (if vm_pc s + 1 <? 0 then true else vm_halt s).
Proof.
  intros Hn Hcallee Hthis Hself Hdepth Hmax.
  pose proof (index_Some_range _ _ _ Hcallee) as Hr1.
  pose proof (index_Some_range _ _ _ Hthis) as Hr2.
  pose proof (call_function_state n o prg st this s Hcallee Hthis Hself Hdepth Hmax)
    as Hcall.
  set (s1 := with_stack
               (<[Z.to_nat (vm_sp s - n - 2) := Some (valueObject o)]>
                  (<[Z.to_nat (vm_sp s - n - 1) := this]> (vm_stack s)))
               (with_pc 0 (with_stash st (with_prg (Some prg) (with_args n
                  (with_callStack
                     (vm_callStack s ++ [saveCtx (with_pc (vm_pc s + 1) s)])
                     (with_pc (vm_pc s + 1) s))))))) in *.
  destruct (enterFuncStashless_state stackSize args s1 ltac:(cbn; lia))
    as (s2 & Hrun & Hsb & _ & Hsp & _ & Hcs & Hhalt & _ & _ & Hold & _ & _).
  cbn [s1 vm_sp vm_args vm_callStack vm_halt with_stack with_pc
       with_stash with_prg with_args with_callStack] in Hsb, Hsp, Hcs, Hhalt.
  assert (Hsp2 : vm_sp s <= vm_sp s2) by lia.
  assert (Hs1_callee : index (vm_stack s1) (vm_sp s - n - 2)
                       = Some (Some (valueObject o))).
  { cbn [s1 vm_stack with_stack]. apply index_insert_eq with (y := this).
    rewrite index_insert_ne by lia. exact Hthis. }
  pose proof (push_state (Some rv) s2 ltac:(lia)) as Hpush.
  set (s3 := with_sp (vm_sp s2 + 1)
               (with_stack (<[Z.to_nat (vm_sp s2) := Some rv]>
                              (grow (vm_sp s2) (vm_stack s2))) s2)) in *.
  pose proof (grow_length (vm_sp s2) (vm_stack s2) ltac:(lia)) as Hglen.
  assert (Htop3 : index (vm_stack s3) (vm_sp s3 - 1) = Some (Some rv)).
  { cbn [s3 vm_stack vm_sp with_sp with_stack].
    replace (vm_sp s2 + 1 - 1) with (vm_sp s2) by lia.
    unfold index. destruct (_ <? 0) eqn:E; [apply Z.ltb_lt in E; lia|].
    apply list_lookup_insert_eq. unfold Slot in *. lia. }
  assert (Hbelow3 : forall i x, i < vm_sp s ->
            index (vm_stack s1) i = Some x -> index (vm_stack s3) i = Some x).
  { intros i x Hi Hx. cbn [s3 vm_stack with_sp with_stack].
    rewrite index_insert_ne by lia. apply index_grow.
    apply Hold; [cbn; lia | exact Hx]. }
  assert (Hslot3 : index (vm_stack s3) (vm_sb s3 - 1)
                   = Some (Some (valueObject o))).
  { cbn [s3 vm_sb with_sp with_stack]. rewrite Hsb.
    replace (vm_sp s - n - 1 - 1) with (vm_sp s - n - 2) by lia.
    apply Hbelow3; [lia | exact Hs1_callee]. }
  pose proof (ret_state s3 (vm_callStack s) (saveCtx (with_pc (vm_pc s + 1) s))
                (Some rv) _ Hcs Htop3 Hslot3) as Hret.
  eexists. split.
  { rewrite (bind_Ok_nil _ _ _ _ _ Hcall), (bind_Ok_nil _ _ _ _ _ Hrun),
      (bind_Ok_nil _ _ _ _ _ Hpush).
    exact Hret. }
  cbn [saveCtx ctx_pc vm_pc with_pc].
  assert (Hsb3 : vm_sb s3 = vm_sp s - n - 1) by exact Hsb.
  assert (Hhalt3 : vm_halt s3 = vm_halt s) by exact Hhalt.
  destruct (vm_pc s + 1 <? 0);
    cbn [vm_pc vm_sp vm_stack vm_callStack vm_sb vm_args vm_stash vm_prg
         vm_newTarget vm_result vm_halt
         with_halt with_callStack restoreCtx with_funcName with_args with_sb
         with_pc with_result with_newTarget with_stash with_prg with_sp
         with_stack saveCtx ctx_pc ctx_sb ctx_args ctx_stash ctx_prg
         ctx_newTarget ctx_result];
    rewrite ?Hsb3;
    (repeat apply conj; try reflexivity; try assumption;
     [ replace (vm_sp s - n - 1 - 1) with (vm_sp s - n - 2) by lia;
       apply index_insert_eq with (y := Some (valueObject o));
       rewrite <- Hslot3, Hsb3; f_equal; lia
     | intros i x Hi Hx; rewrite index_insert_ne by lia;
       apply Hbelow3; [lia|];
       cbn [s1 vm_stack with_stack]; rewrite !index_insert_ne by lia; exact Hx ]).
Qed.

End FunctionFrames.

Lemma call_enters_function_witness :
  let s := vm_with_stack [Some _undefined; Some (valueObject 5%nat); Some _null] in
  let m := Z.max 1 (Z.of_nat 2) in
  exists s',
    (call_exec (host := script_host) 1 ;;; enterFuncStashless_exec 1 2) s
    = Ok tt s' []
    /\ vm_callStack s' = vm_callStack s ++ [saveCtx (with_pc (vm_pc s + 1) s)]
    /\ vm_prg s' = Some (mkProgram [] [] "f")
    /\ vm_stash s' = None
    /\ vm_pc s' = 1
    /\ vm_args s' = m
    /\ vm_sb s' = vm_sp s - 1 - 1
    /\ vm_sp s' = vm_sb s' + 1 + m + Z.of_nat 1
    /\ index (vm_stack s') (vm_sb s' - 1) = Some (Some (valueObject 5%nat))
    /\ index (vm_stack s') (vm_sb s') = Some (Some _undefined)
    /\ (forall i x, 1 <= i <= 1 ->
          index (vm_stack s) (vm_sp s - 1 - 1 + i) = Some x ->
          index (vm_stack s') (vm_sb s' + i) = Some x)
    /\ (forall i, 1 < i <= m ->
          index (vm_stack s') (vm_sb s' + i) = Some (Some _undefined))
    /\ (forall i, m < i <= m + Z.of_nat 1 ->
          index (vm_stack s') (vm_sb s' + i) = Some None).
Proof.
  intros s.
  apply (call_enters_function (host := script_host) 1 1 2 5%nat
           (mkProgram [] [] "f") None (Some _undefined) s).
  - lia.
  - reflexivity.
  - reflexivity.
  - left. reflexivity.
  - left. reflexivity.
  - right. vm_compute. reflexivity.
Defined.

Lemma call_return_round_trip_witness :
  let s := vm_with_stack [Some _undefined; Some (valueObject 5%nat); Some _null] in
  exists s',
    (call_exec (host := script_host) 1 ;;;
     enterFuncStashless_exec 1 2 ;;;
     push (Some (valueInt 7)) ;;;
     _ret_exec) s = Ok tt s' []
    /\ vm_pc s' = vm_pc s + 1
    /\ vm_sp s' = vm_sp s - 1 - 1
    /\ index (vm_stack s') (vm_sp s' - 1) = Some (Some (valueInt 7))
    /\ (forall i x, i < vm_sp s - 1 - 2 ->
          index (vm_stack s) i = Some x -> index (vm_stack s') i = Some x)
    /\ vm_callStack s' = vm_callStack s
    /\ vm_sb s' = vm_sb s
    /\ vm_args s' = vm_args s
    /\ vm_stash s' = vm_stash s
    /\ vm_prg s' = vm_prg s
    /\ vm_newTarget s' = vm_newTarget s
    /\ vm_result s' = vm_result s
    /\ vm_halt s' = (if vm_pc s + 1 <? 0 then true else vm_halt s).
Proof.
  intros s.
  apply (call_return_round_trip (host := script_host) 1 1 2 5%nat
           (mkProgram [] [] "f") None (Some _undefined) (valueInt 7) s).
  - lia.
  - reflexivity.
  - reflexivity.
  - left. reflexivity.
  - left. reflexivity.
  - right. vm_compute. reflexivity.
Defined.

Section CatchBlock.

Context {host : Host} {layout : Layout}.

Lemma alloc_slots_at (ss : nat) (s : vm) (sp : Z) :
  sp = vm_sp s ->
  0 <= sp ->
  (stack_expand (sp + Z.of_nat ss - 1) ;;;
   fill sp (sp + Z.of_nat ss) None ;;;
   modify (with_sp (sp + Z.of_nat ss)) ;;;
   pc_incr) s
  = Ok tt (with_pc (vm_pc s + 1)
             (with_sp (vm_sp s + Z.of_nat ss)
                (with_stack (fresh_slots (vm_sp s) ss (vm_stack s)) s))) [].
Proof.
  intros -> Hsp. pose proof (alloc_slots ss s Hsp) as H.
  rewrite bind_gets in H. exact H.
Qed.

(** X23: [enterCatchBlock] moves the thrown value from the top of the
    stack into the first variable of a new scope record put in front of
    the scope chain, the other variables of the record being empty, and
    gives the block its stack slots empty; reading the first variable
    of the innermost record then gives the thrown value. *)
Theorem catch_block_binding (e_names : gmap string Z) (stashSize stackSize : nat)
    (v : Value) (s : vm) :
  index (vm_stack s) (vm_sp s - 1) = Some (Some v) ->
  exists s' sc,
    enterCatchBlock_exec e_names (S stashSize) stackSize s = Ok tt s' []
    /\ vm_stash s' = Some sc
    /\ outer sc = vm_stash s
    /\ values sc = Some v :: replicate stashSize None
    /\ vm_sp s' = vm_sp s - 1 + Z.of_nat stackSize
    /\ (forall i, vm_sp s - 1 <= i < vm_sp s' -> index (vm_stack s') i = Some None)
    /\ (forall i x, i < vm_sp s - 1 -> index (vm_stack s) i = Some x ->
          index (vm_stack s') i = Some x)
    /\ top_of (loadStashLex_exec 0 s') = Some (Some v).
Proof.
  intros Htop. pose proof (index_Some_range _ _ _ Htop) as Hr.
  pose proof (fresh_slots_spec (vm_sp s - 1) stackSize (vm_stack s) ltac:(lia))
    as [Hnew Hold].
  set (nm := if (0 <? size e_names)%nat then Some e_names else None).
  set (sc := mkStash (Some v :: replicate stashSize None) [] nm None (vm_stash s)
               false).
  assert (Hrun :
    enterCatchBlock_exec e_names (S stashSize) stackSize s
    = Ok tt (with_pc (vm_pc s + 1)
               (with_sp (vm_sp s - 1 + Z.of_nat stackSize)
                  (with_stack (fresh_slots (vm_sp s - 1) stackSize (vm_stack s))
                     (with_sp (vm_sp s - 1)
                        (with_stash (Some sc)
                           (with_stashAllocs (vm_stashAllocs s + 1) s)))))) []).
  { unfold enterCatchBlock_exec, newStash, on_stash, sp_decr, sc, nm.
    destruct (0 <? size e_names)%nat;
      repeat first
        [ rewrite bind_assoc | rewrite bind_modify | rewrite bind_get
        | rewrite bind_gets | rewrite bind_ret
        | progress cbn [vm_stash vm_stack vm_sp with_sp with_stash
                        with_stashAllocs] ];
      (erewrite bind_Ok_nil;
         [|unfold stack_at;
           cbn [vm_stash vm_stack vm_sp with_sp with_stash with_stashAllocs];
           rewrite Htop; reflexivity]);
      repeat first
        [ rewrite bind_assoc | rewrite bind_modify | rewrite bind_get
        | rewrite bind_gets | rewrite bind_ret
        | progress cbn [vm_stash vm_stack vm_sp with_sp with_stash
                        with_stashAllocs values set_values set_names store index
                        Z.ltb Z.compare Z.to_nat replicate lookup list_lookup] ];
      change (store (None :: replicate stashSize None) 0 (Some v))
        with (Some (Some v :: replicate stashSize None));
      cbv beta iota; rewrite bind_modify;
      (rewrite alloc_slots_at; [|reflexivity|cbn; lia]);
      destruct s; reflexivity. }
  eexists. exists sc. split; [exact Hrun|].
  cbn [vm_stash vm_stack vm_sp vm_pc with_pc with_sp with_stack with_stash
       with_stashAllocs].
  repeat apply conj; try reflexivity.
  - intros i Hi. apply Hnew. lia.
  - exact Hold.
  - unfold loadStashLex_exec.
    erewrite bind_Ok_nil; [|apply stash_at_eq; reflexivity].
    unfold getByIdx, stash_idx, uint32. cbn [values sc].
    change (index (Some v :: replicate stashSize None) (Z.land 0 16777215 mod 2 ^ 32))
      with (Some (Some v)).
    cbn [lift]. rewrite bind_ret. apply top_of_push. cbn. lia.
Qed.

End CatchBlock.

Lemma catch_block_binding_witness :
  let s := vm_with_stack [Some _undefined; Some _null] in
  exists s' sc,
    enterCatchBlock_exec ∅ 1 1 s = Ok tt s' []
    /\ vm_stash s' = Some sc
    /\ outer sc = vm_stash s
    /\ values sc = Some _null :: replicate 0 None
    /\ vm_sp s' = vm_sp s - 1 + Z.of_nat 1
    /\ (forall i, vm_sp s - 1 <= i < vm_sp s' -> index (vm_stack s') i = Some None)
    /\ (forall i x, i < vm_sp s - 1 -> index (vm_stack s) i = Some x ->
          index (vm_stack s') i = Some x)
    /\ top_of (loadStashLex_exec 0 s') = Some (Some _null).
Proof.
  intros s. apply (catch_block_binding ∅ 0 1 _null s). reflexivity.
Defined.

Section NativeCalls.

Context {host : Host} {layout : Layout}.

Lemma call_dispatch_open (s : vm) :
  stackDepthLimit (vm_r s) = 0
  \/ Z.of_nat (length (vm_callStack s)) + 1 < stackDepthLimit (vm_r s) ->
  (forall k : M unit,
     (s0 <- get ;;
      if negb (stackDepthLimit (vm_r s0) =? 0)
         && (stackDepthLimit (vm_r s0) <=? Z.of_nat (length (vm_callStack s0)) + 1)
      then panic (rangeError "Maximum call stack size exceeded")
      else k) s = k s).
Proof.
  intros Hdepth k. rewrite bind_get.
  assert (negb (stackDepthLimit (vm_r s) =? 0)
          && (stackDepthLimit (vm_r s)
              <=? Z.of_nat (length (vm_callStack s)) + 1) = false) as ->.
  { destruct Hdepth as [-> | Hlt]; [reflexivity|].
    apply andb_false_iff. right. apply Z.leb_gt. exact Hlt. }
  reflexivity.
Qed.

(** X24: a call of a native function.  The Go function is called once,
    with [this] and the arguments taken from the stack, under a frame of
    its own that is gone again afterwards; when it leaves the machine
    as it found it, its result, or [undefined] for a [nil] result,
    replaces the callee and the arguments on the stack and the caller
    goes on at the next instruction.  A native function object with no
    Go function behind it yields [undefined] without any call and
    without a frame. *)
Theorem call_native (n : Z) (o : ObjRef) (this : Slot) (s : vm) :
  0 <= n ->
  index (vm_stack s) (vm_sp s - n - 1) = Some (Some (valueObject o)) ->
  index (vm_stack s) (vm_sp s - n - 2) = Some this ->
  vm_sp s <= Z.of_nat (length (vm_stack s)) ->
  stackDepthLimit (vm_r s) = 0
  \/ Z.of_nat (length (vm_callStack s)) + 1 < stackDepthLimit (vm_r s) ->
  let arguments := take (Z.to_nat n) (drop (Z.to_nat (vm_sp s - n)) (vm_stack s)) in
  let inside :=
    with_funcName (host_toString (nilSafe (getStr o "name")))
      (with_prg None (with_callStack (vm_callStack s ++ [saveCtx s]) s)) in
  let after (r : Value) (s0 : vm) :=
    with_pc (vm_pc s + 1)
      (with_sp (vm_sp s - (n + 1))
         (with_stack (<[Z.to_nat (vm_sp s - n - 2) := Some r]> (vm_stack s)) s0)) in
  (forall fn r,
     self o = nativeFuncObject (Some fn) \/ self o = boundFuncObject (Some fn) ->
     vm_maxCallStackSize s = 0
     \/ Z.of_nat (length (vm_callStack s)) + 1 < vm_maxCallStackSize s ->
     native_f fn this arguments inside = Returns r inside ->
     call_exec n s
     = Ok tt (after (nilSafe r) (with_funcName (ctx_funcName (saveCtx s)) s))
         [EvNative fn this arguments])
  /\ (self o = nativeFuncObject None \/ self o = boundFuncObject None ->
      call_exec n s = Ok tt (after _undefined s) []).
Proof.
  intros Hn Hcallee Hthis Hsp Hdepth arguments inside after.
  pose proof (index_Some_range _ _ _ Hcallee) as Hr1.
  pose proof (index_Some_range _ _ _ Hthis) as Hr2.
  assert (H1 : stack_at (vm_sp s - n - 1) s = Ok (Some (valueObject o)) s [])
    by (unfold stack_at; rewrite Hcallee; reflexivity).
  assert (H2 : toCallee (Some (valueObject o)) s = Ok o s []) by reflexivity.
  assert (Hopen : call_exec n s = call_dispatch n o (self o) s).
  { unfold call_exec.
    rewrite bind_gets, (bind_Ok_nil _ _ _ _ _ H1), (bind_Ok_nil _ _ _ _ _ H2).
    reflexivity. }
  split.
  - intros fn r Hself Hmax Hnative.
    assert (Hpush : pushCtx s
                    = Ok tt (with_callStack (vm_callStack s ++ [saveCtx s]) s) [])
      by exact (pushCtx_state s Hmax).
    assert (Hslice : stack_slice (vm_sp s - n) (vm_sp s) inside
                     = Ok arguments inside []).
    { unfold stack_slice, inside, arguments.
      cbn [vm_stack with_funcName with_prg with_callStack].
      assert (((0 <=? vm_sp s - n) && (vm_sp s - n <=? vm_sp s)
               && (vm_sp s <=? Z.of_nat (length (vm_stack s)))) = true) as ->
        by (rewrite !andb_true_iff, !Z.leb_le; lia).
      replace (Z.to_nat (vm_sp s - (vm_sp s - n))) with (Z.to_nat n) by lia.
      reflexivity. }
    assert (Hthis' : stack_at (vm_sp s - n - 2) inside = Ok this inside [])
      by (unfold stack_at, inside;
          cbn [vm_stack with_funcName with_prg with_callStack];
          rewrite Hthis; reflexivity).
    assert (Hout : outside (EvNative fn this arguments)
                     (native_f fn this arguments) inside
                   = Ok r inside [EvNative fn this arguments])
      by (unfold outside; rewrite Hnative; reflexivity).
    assert (Hput : stack_put (vm_sp s - n - 2) (Some (nilSafe r)) inside
                   = Ok tt (with_stack
                              (<[Z.to_nat (vm_sp s - n - 2) := Some (nilSafe r)]>
                                 (vm_stack s)) inside) [])
      by (unfold stack_put, store, inside;
          cbn [vm_stack with_funcName with_prg with_callStack];
          rewrite Hthis; reflexivity).
    assert (Hbody : _nativeCall o (Some fn) n s
                    = Ok tt (after (nilSafe r)
                               (with_funcName (ctx_funcName (saveCtx s)) s))
                        [EvNative fn this arguments]).
    { unfold _nativeCall.
      rewrite !bind_assoc, (bind_Ok_nil _ _ _ _ _ Hpush).
      rewrite !bind_assoc, bind_modify, bind_assoc, bind_modify, bind_assoc.
      fold inside. rewrite bind_gets.
      change (vm_sp inside) with (vm_sp s).
      rewrite bind_assoc, (bind_Ok_nil _ _ _ _ _ Hslice).
      rewrite bind_assoc, (bind_Ok_nil _ _ _ _ _ Hthis').
      rewrite bind_assoc, (bind_Ok _ _ _ _ _ _ Hout).
      rewrite bind_assoc, bind_gets. change (vm_sp inside) with (vm_sp s).
      rewrite bind_assoc, (bind_Ok_nil _ _ _ _ _ Hput).
      erewrite bind_Ok_nil;
        [|apply popCtx_state with (cs := vm_callStack s) (ctx := saveCtx s);
          reflexivity].
      rewrite bind_modify. unfold pc_incr, modify, after, inside.
      destruct s; reflexivity. }
    rewrite Hopen.
    destruct Hself as [-> | ->]; cbn [call_dispatch];
      rewrite (call_dispatch_open s Hdepth); exact Hbody.
  - intros Hself.
    assert (Hput : stack_put (vm_sp s - n - 2) (Some _undefined) s
                   = Ok tt (with_stack
                              (<[Z.to_nat (vm_sp s - n - 2) := Some _undefined]>
                                 (vm_stack s)) s) [])
      by (unfold stack_put, store; rewrite Hthis; reflexivity).
    assert (Hbody : _nativeCall o None n s = Ok tt (after _undefined s) []).
    { unfold _nativeCall.
      rewrite !bind_assoc, bind_gets, (bind_Ok_nil _ _ _ _ _ Hput), bind_modify.
      unfold pc_incr, modify, after. destruct s; reflexivity. }
    rewrite Hopen.
    destruct Hself as [-> | ->]; cbn [call_dispatch];
      rewrite (call_dispatch_open s Hdepth); exact Hbody.
Qed.

End NativeCalls.

Lemma call_native_witness :
  let s := vm_with_stack [Some _undefined; Some (valueObject 3%nat); Some _null] in
  call_exec (host := small_host) 1 s
  = Ok tt
      (with_pc (vm_pc s + 1)
         (with_sp (vm_sp s - (1 + 1))
            (with_stack (<[Z.to_nat (vm_sp s - 1 - 2) := Some _undefined]> (vm_stack s))
               (with_funcName (ctx_funcName (saveCtx s)) s))))
      [EvNative 0%nat (Some _undefined) [Some _null]].
Proof.
  intros s.
  pose proof (call_native (host := small_host) 1 3%nat (Some _undefined) s
                ltac:(lia) eq_refl eq_refl ltac:(cbn; lia) (or_introl eq_refl))
    as [H _].
  apply (H 0%nat (Some _undefined)).
  - left. reflexivity.
  - right. vm_compute. reflexivity.
  - reflexivity.
Defined.

(* ===================================================================== *)
(** ** The two conversions to an integer, and [var] declarations *)
(* ===================================================================== *)

Section IntegerConversions.

Context {host : Host} {layout : Layout}.

(** X25: on numbers, [toIntIgnoreNegZero] and [assertInt64] give the
    same answer but for the negative zero, which the former takes for
    the integer 0 and the latter does not take for an integer. *)
Theorem toInt_conversions_agree :
  (forall i, toIntIgnoreNegZero (valueInt i) = assertInt64 (valueInt i))
  /\ (forall i, toIntIgnoreNegZero (valueInt64 i) = assertInt64 (valueInt64 i))
  /\ (forall f,
        toIntIgnoreNegZero (valueFloat f)
        = if bool_decide (valueFloat f = _negativeZero) then (0, true)
          else assertInt64 (valueFloat f))
  /\ assertInt64 _negativeZero = (0, false).
Proof.
  repeat apply conj; try reflexivity.
  intros f. unfold toIntIgnoreNegZero, assertInt64. cbn [ToNumber eq_negativeZero].
  destruct f as [[|]| | |]; cbn [f64_is_zero].
  - rewrite bool_decide_eq_true_2 by reflexivity. reflexivity.
  - rewrite bool_decide_eq_false_2 by (unfold _negativeZero; congruence).
    reflexivity.
  - rewrite bool_decide_eq_false_2 by (unfold _negativeZero; congruence).
    reflexivity.
  - rewrite bool_decide_eq_false_2 by (unfold _negativeZero; congruence).
    reflexivity.
  - rewrite bool_decide_eq_false_2 by (unfold _negativeZero; congruence).
    reflexivity.
Qed.

End IntegerConversions.

Section VarDeclarations.

Context {host : Host} {layout : Layout}.

Variable newError_SyntaxError : string -> ObjRef.

Lemma var_target_walk (name : string) (pre : list stash) (tgt : stash)
    (post : list stash) (s : stash) (depth : nat) :
  scope_chain s = pre ++ tgt :: post ->
  Forall (fun x => variable x = false) pre ->
  variable tgt = true ->
  var_target newError_SyntaxError name s depth
  = if existsb (lexically_bound name) (pre ++ [tgt])
    then Raise (alreadyDeclared newError_SyntaxError name)
    else Done (Some (depth + length pre)%nat).
Proof.
  revert s depth. induction pre as [|p pre IH]; intros s depth Hchain Hpre Htgt.
  - destruct s as [v e n o ou va].
    assert (tgt = mkStash v e n o ou va) as ->
      by (destruct ou; cbn in Hchain; congruence).
    cbn [app existsb orb length]. rewrite orb_false_r, Nat.add_0_r.
    unfold lexically_bound. cbn in Htgt. subst va.
    destruct ou; cbn [var_target variable];
      destruct (match names_lookup _ name with Some _ => _ | None => _ end);
      reflexivity.
  - apply Forall_cons in Hpre as [Hp Hpre].
    destruct s as [v e n o ou va].
    assert (p = mkStash v e n o ou va) as ->
      by (destruct ou; cbn in Hchain; congruence).
    cbn in Hp. subst va.
    destruct ou as [ou|]; [|cbn in Hchain; destruct pre; discriminate].
    cbn [app existsb length]. cbn [var_target variable].
    unfold lexically_bound at 1.
    destruct (match names_lookup _ name with Some _ => _ | None => _ end);
      [reflexivity|].
    cbn [orb]. rewrite (IH ou (S depth)); try assumption.
    + replace (S depth + length pre)%nat with (depth + S (length pre))%nat by lia.
      reflexivity.
    + cbn in Hchain. congruence.
Qed.

Lemma bind_targets_clear (d_names : list string) (pre : list stash) (tgt : stash)
    (post : list stash) (st : stash) (target : option nat) :
  scope_chain st = pre ++ tgt :: post ->
  Forall (fun x => variable x = false) pre ->
  variable tgt = true ->
  Forall (fun name => existsb (lexically_bound name) (pre ++ [tgt]) = false) d_names ->
  bind_targets newError_SyntaxError d_names (Some st) target
  = Done (match d_names with [] => target | _ => Some (length pre) end).
Proof.
  intros Hchain Hpre Htgt. revert target.
  induction d_names as [|name rest IH]; intros target Hclear; [reflexivity|].
  apply Forall_cons in Hclear as [Hname Hrest].
  cbn [bind_targets].
  rewrite (var_target_walk name pre tgt post st 0 Hchain Hpre Htgt), Hname.
  cbn [Nat.add]. rewrite (IH _ Hrest). destruct rest; reflexivity.
Qed.

Lemma bind_targets_conflict (ok : list string) (name : string) (rest : list string)
    (pre : list stash) (tgt : stash) (post : list stash) (st : stash)
    (target : option nat) :
  scope_chain st = pre ++ tgt :: post ->
  Forall (fun x => variable x = false) pre ->
  variable tgt = true ->
  Forall (fun n => existsb (lexically_bound n) (pre ++ [tgt]) = false) ok ->
  existsb (lexically_bound name) (pre ++ [tgt]) = true ->
  bind_targets newError_SyntaxError (ok ++ name :: rest) (Some st) target
  = Raise (alreadyDeclared newError_SyntaxError name).
Proof.
  intros Hchain Hpre Htgt. revert target.
  induction ok as [|n ok IH]; intros target Hok Hname.
  - cbn [app bind_targets].
    rewrite (var_target_walk name pre tgt post st 0 Hchain Hpre Htgt), Hname.
    reflexivity.
  - apply Forall_cons in Hok as [Hn Hok].
    cbn [app bind_targets].
    rewrite (var_target_walk n pre tgt post st 0 Hchain Hpre Htgt), Hn.
    apply IH; assumption.
Qed.

Lemma outer_at_chain (pre : list stash) (tgt : stash) (post : list stash) (st : stash) :
  scope_chain st = pre ++ tgt :: post ->
  outer_at (length pre) (Some st) = Done (Some tgt).
Proof.
  revert st. induction pre as [|p pre IH]; intros st Hchain.
  - destruct st as [v e n o [ou|] va]; cbn in Hchain; cbn; congruence.
  - destruct st as [v e n o [ou|] va]; cbn in Hchain.
    + cbn [length outer_at outer]. apply IH. congruence.
    + destruct pre; discriminate.
Qed.

Lemma createBinding_keeps (name other : string) (deletable : bool) (s : stash) :
  is_Some (names_lookup s other) ->
  is_Some (names_lookup (createBinding name deletable s) other).
Proof.
  intros [idx Hidx]. unfold createBinding.
  rewrite (make_names_present s other idx Hidx).
  destruct (names_lookup s name) as [i|] eqn:E; [eauto|].
  destruct s as [v e [m|] o ou va]; cbn in *; [|discriminate].
  destruct (decide (name = other)) as [->|Hne].
  - rewrite lookup_insert_eq. eauto.
  - rewrite lookup_insert_ne by exact Hne. eauto.
Qed.

Lemma foldl_createBinding_keeps (d_names : list string) (other : string)
    (deletable : bool) (s : stash) :
  is_Some (names_lookup s other) ->
  is_Some (names_lookup
             (foldl (fun acc name => createBinding name deletable acc) s d_names)
             other).
Proof.
  revert s. induction d_names as [|n rest IH]; intros s Hs; [exact Hs|].
  cbn [foldl]. apply IH. apply createBinding_keeps. exact Hs.
Qed.

Lemma foldl_createBinding_binds (d_names : list string) (name : string)
    (deletable : bool) (s : stash) :
  name ∈ d_names ->
  is_Some (names_lookup
             (foldl (fun acc n => createBinding n deletable acc) s d_names)
             name).
Proof.
  revert s. induction d_names as [|n rest IH]; intros s Hin.
  - apply elem_of_nil in Hin. destruct Hin.
  - cbn [foldl]. apply elem_of_cons in Hin as [-> | Hin].
    + apply foldl_createBinding_keeps. apply names_lookup_create.
    + apply IH. exact Hin.
Qed.

(** X26: [var] declarations made by [bindVars] go to the nearest
    variable scope record of the scope chain.  If a scope record on the
    way, the variable one included, binds one of the names lexically,
    the instruction throws the syntax error for the first such name and
    declares nothing; otherwise every name is bound in the variable
    scope record afterwards and the program counter has advanced. *)
Theorem bindVars_scope (d_names : list string) (deletable : bool)
    (pre : list stash) (tgt : stash) (post : list stash) (st : stash) (s : vm) :
  vm_stash s = Some st ->
  scope_chain st = pre ++ tgt :: post ->
  Forall (fun x => variable x = false) pre ->
  variable tgt = true ->
  (forall ok name rest,
     d_names = ok ++ name :: rest ->
     Forall (fun n => existsb (lexically_bound n) (pre ++ [tgt]) = false) ok ->
     existsb (lexically_bound name) (pre ++ [tgt]) = true ->
     bindVars_exec newError_SyntaxError d_names deletable s
     = Panic (alreadyDeclared newError_SyntaxError name) s [])
  /\ (Forall (fun n => existsb (lexically_bound n) (pre ++ [tgt]) = false) d_names ->
      d_names <> [] ->
      exists chain' tgt',
        bindVars_exec newError_SyntaxError d_names deletable s
        = Ok tt (with_pc (vm_pc s + 1) (with_stash chain' s)) []
        /\ outer_at (length pre) chain' = Done (Some tgt')
        /\ tgt' = foldl (fun acc n => createBinding n deletable acc) tgt d_names
        /\ forall name, name ∈ d_names -> is_Some (names_lookup tgt' name)).
Proof.
  intros Hst Hchain Hpre Htgt. split.
  - intros ok name rest -> Hok Hname.
    unfold bindVars_exec. rewrite bind_get, Hst.
    rewrite (bind_targets_conflict ok name rest pre tgt post st None
               Hchain Hpre Htgt Hok Hname).
    reflexivity.
  - intros Hclear Hne.
    pose proof (outer_at_chain pre tgt post st Hchain) as Hat.
    destruct (update_at_done (length pre)
                (fun sc => Done (foldl (fun acc n => createBinding n deletable acc)
                                   sc d_names))
                (Some st) tgt _ Hat eq_refl) as (chain' & Hup & Hat').
    exists chain'. eexists. repeat apply conj.
    + unfold bindVars_exec. rewrite bind_get, Hst.
      rewrite (bind_targets_clear d_names pre tgt post st None
                 Hchain Hpre Htgt Hclear).
      destruct d_names as [|n rest]; [congruence|].
      cbn [lift]. rewrite bind_ret.
      change (default 0%nat (Some (length pre))) with (length pre).
      rewrite Hup. cbn [lift]. rewrite bind_assoc, bind_ret, bind_modify.
      reflexivity.
    + exact Hat'.
    + reflexivity.
    + intros name Hin. apply foldl_createBinding_binds. exact Hin.
Qed.

End VarDeclarations.

Lemma bindVars_scope_witness :
  let fn_scope := mkStash [] [] None None None true in
  let block := createLexBinding (layout := top_bits) "x" false
                 (mkStash [] [] None None (Some fn_scope) false) in
  let s := with_stash (Some block) (fresh_vm small_runtime) in
  bindVars_exec (layout := top_bits) (fun _ => 96%nat) ["y"; "x"] true s
  = Panic (alreadyDeclared (fun _ => 96%nat) "x") s [].
Proof.
  intros fn_scope block s.
  pose proof (bindVars_scope (layout := top_bits) (fun _ => 96%nat) ["y"; "x"] true
                [block] fn_scope [] block s eq_refl eq_refl
                ltac:(repeat constructor) eq_refl) as [H _].
  apply (H ["y"] "x" []).
  - reflexivity.
  - repeat constructor.
  - reflexivity.
Defined.
